(** * GST calculator: the conversion functions and the session history

    A shallow embedding of [gst_app.py].  Python's [float] is IEEE 754
    binary64, which is exactly Rocq's primitive [float]; Python's [int] is
    [Z].  Exceptions are an explicit error result. *)

From Stdlib Require Import ZArith List String Ascii Bool Lia Floats DecimalString.
From Stdlib Require Reals Lra.
Import ListNotations.

Set Warnings "-inexact-float".

Local Open Scope Z_scope.

(** ** Python values and exceptions *)

Module Py.

Inductive exn : Type :=
  | ZeroDivisionError
  | ValueError
  | OverflowError.

Inductive result (A : Type) : Type :=
  | Ok (a : A)
  | Raise (e : exn).

Arguments Ok {A} a.
Arguments Raise {A} e.

Definition bind {A B : Type} (r : result A) (k : A -> result B) : result B :=
  match r with
  | Ok a => k a
  | Raise e => Raise e
  end.

(** A number is an [int] or a [float]. *)
Inductive value : Type :=
  | VInt (z : Z)
  | VFloat (f : float).

(** [float(z)]: the nearest binary64 value, ties to even;
    [OverflowError] when [z] is out of range. *)
Definition float_of_int (z : Z) : result float :=
  match binary_normalize prec emax z 0 false with
  | S754_infinity _ => Raise OverflowError
  | sf => Ok (SF2Prim sf)
  end.

Definition to_float (v : value) : result float :=
  match v with
  | VInt z => float_of_int z
  | VFloat f => Ok f
  end.

(** The exact integer or dyadic rational a spec float denotes, as a signed
    mantissa: [x = signed_mantissa * 2 ^ e]. *)
Definition signed_mantissa (s : bool) (m : positive) : Z :=
  cond_Zopp s (Zpos m).

(** [x ? z] for a float and an int, compared exactly as Python does;
    [None] when [x] is a NaN. *)
Definition compare_float_int (x : float) (z : Z) : option comparison :=
  match Prim2SF x with
  | S754_nan => None
  | S754_infinity s => Some (if s then Lt else Gt)
  | S754_zero _ => Some (0 ?= z)
  | S754_finite s m e =>
      if 0 <=? e
      then Some (signed_mantissa s m * 2 ^ e ?= z)
      else Some (signed_mantissa s m ?= z * 2 ^ (- e))
  end.

Definition compare (a b : value) : option comparison :=
  match a, b with
  | VInt x, VInt y => Some (x ?= y)
  | VFloat x, VFloat y => SFcompare (Prim2SF x) (Prim2SF y)
  | VFloat x, VInt y => compare_float_int x y
  | VInt x, VFloat y => option_map CompOpp (compare_float_int y x)
  end.

(** [a < b], [a <= b], [a == b], [a != b] *)
Definition lt (a b : value) : bool :=
  match compare a b with Some Lt => true | _ => false end.

Definition le (a b : value) : bool :=
  match compare a b with Some (Lt | Eq) => true | _ => false end.

Definition eq (a b : value) : bool :=
  match compare a b with Some Eq => true | _ => false end.

Definition ne (a b : value) : bool := negb (eq a b).

(** Truth value of a number: false exactly for zero. *)
Definition truthy (v : value) : bool := ne v (VInt 0).

(** Truth value of [rounding], which is [None] or a number. *)
Definition truthy_opt (o : option value) : bool :=
  match o with
  | None => false
  | Some v => truthy v
  end.

(** [a + b], [a - b], [a * b]: on two ints exact, otherwise on floats after
    converting the int operand. *)
Definition add (a b : value) : result value :=
  match a, b with
  | VInt x, VInt y => Ok (VInt (x + y))
  | _, _ =>
      bind (to_float a) (fun x =>
      bind (to_float b) (fun y =>
      Ok (VFloat (x + y)%float)))
  end.

Definition sub (a b : value) : result value :=
  match a, b with
  | VInt x, VInt y => Ok (VInt (x - y))
  | _, _ =>
      bind (to_float a) (fun x =>
      bind (to_float b) (fun y =>
      Ok (VFloat (x - y)%float)))
  end.

Definition mul (a b : value) : result value :=
  match a, b with
  | VInt x, VInt y => Ok (VInt (x * y))
  | _, _ =>
      bind (to_float a) (fun x =>
      bind (to_float b) (fun y =>
      Ok (VFloat (x * y)%float)))
  end.

(** The unrounded spec float of an int, for the correctly rounded
    quotient of two ints. *)
Definition spec_of_int (z : Z) : spec_float :=
  match z with
  | Z0 => S754_zero false
  | Zpos p => S754_finite false p 0
  | Zneg p => S754_finite true p 0
  end.

(** [a / b] (true division): always a float; [ZeroDivisionError] on a zero
    divisor. *)
Definition truediv (a b : value) : result value :=
  match a, b with
  | VInt x, VInt y =>
      if y =? 0 then Raise ZeroDivisionError
      else
        match SFdiv prec emax (spec_of_int x) (spec_of_int y) with
        | S754_infinity _ => Raise OverflowError
        | sf => Ok (VFloat (SF2Prim sf))
        end
  | _, _ =>
      bind (to_float a) (fun x =>
      bind (to_float b) (fun y =>
      if (y =? 0)%float then Raise ZeroDivisionError
      else Ok (VFloat (x / y)%float)))
  end.

(** The integer nearest to [m / 2 ^ k], ties to the even one ([0 < k]). *)
Definition round_half_even_shift (m : Z) (k : Z) : Z :=
  let d := 2 ^ k in
  let q := m / d in
  let r := m mod d in
  match 2 * r ?= d with
  | Lt => q
  | Gt => q + 1
  | Eq => if Z.even q then q else q + 1
  end.

(** [round(x)] with one argument: an int, the nearest, ties to even;
    [ValueError] on a NaN, [OverflowError] on an infinity. *)
Definition round_float (x : float) : result Z :=
  match Prim2SF x with
  | S754_nan => Raise ValueError
  | S754_infinity _ => Raise OverflowError
  | S754_zero _ => Ok 0
  | S754_finite s m e =>
      if 0 <=? e
      then Ok (signed_mantissa s m * 2 ^ e)
      else Ok (cond_Zopp s (round_half_even_shift (Zpos m) (- e)))
  end.

Definition round (v : value) : result value :=
  match v with
  | VInt z => Ok (VInt z)
  | VFloat f => bind (round_float f) (fun n => Ok (VInt n))
  end.

End Py.

Import Py.

Declare Scope py_scope.
Delimit Scope py_scope with py.
Notation "x <- c1 ;; c2" := (bind c1 (fun x => c2))
  (at level 61, c1 at next level, right associativity) : py_scope.
Notation "' pat <- c1 ;; c2" :=
  (bind c1 (fun x => match x with pat => c2 end))
  (at level 61, pat pattern, c1 at next level, right associativity) : py_scope.

Local Open Scope py_scope.

(** ** The conversion functions *)

(** [calc_from_included(total_price, rate, rounding)]; returns
    [(base, gst, cgst, sgst, total_price)]. *)
Definition calc_from_included (total_price rate : value) (rounding : option value)
  : result (value * value * value * value * value) :=
  let rate := if lt rate (VInt 0) then VInt 0 else rate in
  d <- add (VInt 1) rate ;;
  base <- truediv total_price d ;;
  gst <- sub total_price base ;;
  '(base, gst) <-
    match rounding with
    | Some r =>
        if truthy r then
          qb <- truediv base r ;;
          nb <- round qb ;;
          base <- mul nb r ;;
          qg <- truediv gst r ;;
          ng <- round qg ;;
          gst <- mul ng r ;;
          Ok (base, gst)
        else Ok (base, gst)
    | None => Ok (base, gst)
    end ;;
  cgst <- truediv gst (VInt 2) ;;
  sgst <- truediv gst (VInt 2) ;;
  Ok (base, gst, cgst, sgst, total_price).

(** [calc_from_excluded(base_price, rate, rounding)]; returns
    [(total, gst, cgst, sgst, base_price)]. *)
Definition calc_from_excluded (base_price rate : value) (rounding : option value)
  : result (value * value * value * value * value) :=
  gst <- mul base_price rate ;;
  total <- add base_price gst ;;
  '(gst, total) <-
    match rounding with
    | Some r =>
        if truthy r then
          qg <- truediv gst r ;;
          ng <- round qg ;;
          gst <- mul ng r ;;
          qt <- truediv total r ;;
          nt <- round qt ;;
          total <- mul nt r ;;
          Ok (gst, total)
        else Ok (gst, total)
    | None => Ok (gst, total)
    end ;;
  cgst <- truediv gst (VInt 2) ;;
  sgst <- truediv gst (VInt 2) ;;
  Ok (total, gst, cgst, sgst, base_price).

(** [calc_from_gst_amount(gst_amount, rate, rounding)]; returns
    [(base, total, cgst, sgst, gst_amount)]. *)
Definition calc_from_gst_amount (gst_amount rate : value) (rounding : option value)
  : result (value * value * value * value * value) :=
  base <- (if ne rate (VInt 0) then truediv gst_amount rate else Ok (VInt 0)) ;;
  total <- add base gst_amount ;;
  '(base, total) <-
    match rounding with
    | Some r =>
        if truthy r then
          qb <- truediv base r ;;
          nb <- round qb ;;
          base <- mul nb r ;;
          qt <- truediv total r ;;
          nt <- round qt ;;
          total <- mul nt r ;;
          Ok (base, total)
        else Ok (base, total)
    | None => Ok (base, total)
    end ;;
  cgst <- truediv gst_amount (VInt 2) ;;
  sgst <- truediv gst_amount (VInt 2) ;;
  Ok (base, total, cgst, sgst, gst_amount).

(** ** Text formatting *)

Local Open Scope string_scope.

(** [str(z)] for an int. *)
Definition str_int (z : Z) : string := NilZero.string_of_int (Z.to_int z).

(** The two digits after the point: [n] in [0, 100). *)
Definition two_digits (n : Z) : string :=
  str_int (n / 10) ++ str_int (n mod 10).

(** [format(x, '.2f')] for a float: the exact binary value rounded to two
    decimals, ties to even; the sign is kept also when the digits are
    all zero. *)
Definition format_2f_float (x : float) : string :=
  match Prim2SF x with
  | S754_nan => "nan"
  | S754_infinity s => if s then "-inf" else "inf"
  | S754_zero s => (if s then "-" else "") ++ "0.00"
  | S754_finite s m e =>
      let n := if (0 <=? e)%Z then (Zpos m * 100 * 2 ^ e)%Z
               else round_half_even_shift (Zpos m * 100) (- e) in
      (if s then "-" else "") ++ str_int (n / 100) ++ "." ++ two_digits (n mod 100)
  end.

(** [f"{v:.2f}"]: an int is converted to a float first. *)
Definition format_2f (v : value) : result string :=
  x <- to_float v ;;
  Ok (format_2f_float x).

(** ** The session history *)

(** A history entry, the dict built by each calculation. *)
Record entry : Type := {
  timestamp : string;
  mode : string;
  rate_pct : Z;
  base : value;
  gst : value;
  cgst : value;
  sgst : value;
  total : value
}.

(** [st.session_state]: [history] is [None] while the key is not set. *)
Record session_state : Type := {
  history : option (list entry)
}.

(** [add_history(entry)] *)
Definition add_history (e : entry) (st : session_state) : session_state :=
  let h := match history st with
           | None => []
           | Some h => h
           end in
  let h := e :: h in
  {| history := Some (firstn 10 h) |}.

(** The handler of the "Clear History" button. *)
Definition clear_history (st : session_state) : session_state :=
  {| history := Some [] |}.

(** One line of [history_to_txt]. *)
Definition txt_line (item : entry) : result string :=
  b <- format_2f (base item) ;;
  g <- format_2f (gst item) ;;
  c <- format_2f (cgst item) ;;
  s <- format_2f (sgst item) ;;
  t <- format_2f (total item) ;;
  Ok (timestamp item ++ " | " ++ mode item
      ++ " | Rate: " ++ str_int (rate_pct item)
      ++ "% | Base: ₹" ++ b ++ " | GST: ₹" ++ g
      ++ " | CGST: ₹" ++ c ++ " | SGST: ₹" ++ s
      ++ " | Total: ₹" ++ t).

Fixpoint txt_lines (h : list entry) : result (list string) :=
  match h with
  | [] => Ok []
  | item :: h' =>
      l <- txt_line item ;;
      ls <- txt_lines h' ;;
      Ok (l :: ls)
  end.

Definition newline : string := String (ascii_of_nat 10) EmptyString.

(** [history_to_txt()]: [None], or the UTF-8 bytes of the report. *)
Definition history_to_txt (st : session_state) : result (option string) :=
  match history st with
  | None => Ok None
  | Some [] => Ok None
  | Some h =>
      lines <- txt_lines h ;;
      Ok (Some (String.concat newline lines))
  end.

Section Collaborators.

(** [pandas.DataFrame(history).to_csv(index=False).encode("utf-8")] *)
Variable DataFrame_to_csv : list entry -> string.

(** [str(x)] for a float *)
Variable str_float : float -> string.

(** [history_to_csv()] *)
Definition history_to_csv (st : session_state) : option string :=
  match history st with
  | None => None
  | Some [] => None
  | Some h => Some (DataFrame_to_csv h)
  end.

(** ** The calculation handlers of the page *)

Inductive ui_call : Type :=
  | st_success (msg : string)
  | st_write (msg : string)
  | st_error (msg : string).

(** [f"{rate_pct/2}"] *)
Definition str_half (rate_pct : Z) : result string :=
  h <- truediv (VInt rate_pct) (VInt 2) ;;
  x <- to_float h ;;
  Ok (str_float x).

(** [f"CGST ({rate_pct/2}%): ₹{cgst:.2f}  |  SGST ({rate_pct/2}%): ₹{sgst:.2f}"] *)
Definition split_line (rate_pct : Z) (cgst sgst : value) : result string :=
  h1 <- str_half rate_pct ;;
  c <- format_2f cgst ;;
  h2 <- str_half rate_pct ;;
  s <- format_2f sgst ;;
  Ok ("CGST (" ++ h1 ++ "%): ₹" ++ c ++ "  |  SGST (" ++ h2 ++ "%): ₹" ++ s).

(** "Calculate (Excl GST)"; [now] is the formatted clock reading. *)
Definition on_calculate_excl (now : string) (rate_pct : Z) (rounding : option value)
    (base_input : value) (st : session_state)
  : result (session_state * list ui_call) :=
  rate <- truediv (VInt rate_pct) (VFloat 100) ;;
  '(total, gst_amount, cgst, sgst, base_price) <-
    calc_from_excluded base_input rate rounding ;;
  t <- format_2f total ;;
  g <- format_2f gst_amount ;;
  l <- split_line rate_pct cgst sgst ;;
  let entry := {| timestamp := now; mode := "Excl → Incl"; rate_pct := rate_pct;
                  base := base_price; gst := gst_amount; cgst := cgst;
                  sgst := sgst; total := total |} in
  Ok (add_history entry st,
      [st_success ("Total (including GST): ₹" ++ t);
       st_write ("GST amount (" ++ str_int rate_pct ++ "%): ₹" ++ g);
       st_write l]).

(** "Calculate (Incl GST)" *)
Definition on_calculate_incl (now : string) (rate_pct : Z) (rounding : option value)
    (total_input : value) (st : session_state)
  : result (session_state * list ui_call) :=
  rate <- truediv (VInt rate_pct) (VFloat 100) ;;
  '(base, gst_amount, cgst, sgst, total_price) <-
    calc_from_included total_input rate rounding ;;
  b <- format_2f base ;;
  g <- format_2f gst_amount ;;
  l <- split_line rate_pct cgst sgst ;;
  let entry := {| timestamp := now; mode := "Incl → Excl"; rate_pct := rate_pct;
                  base := base; gst := gst_amount; cgst := cgst;
                  sgst := sgst; total := total_price |} in
  Ok (add_history entry st,
      [st_success ("Base Price (excluding GST): ₹" ++ b);
       st_write ("GST amount (" ++ str_int rate_pct ++ "%): ₹" ++ g);
       st_write l]).

(** "Calculate from GST amount" *)
Definition on_calculate_from_gst (now : string) (rate_pct : Z) (rounding : option value)
    (gst_input : value) (st : session_state)
  : result (session_state * list ui_call) :=
  rate <- truediv (VInt rate_pct) (VFloat 100) ;;
  if eq rate (VInt 0) then
    Ok (st, [st_error "GST rate must be > 0 for Reverse calculation."])
  else
    '(base, total, cgst, sgst, gst_amount) <-
      calc_from_gst_amount gst_input rate rounding ;;
    b <- format_2f base ;;
    t <- format_2f total ;;
    l <- split_line rate_pct cgst sgst ;;
    let entry := {| timestamp := now; mode := "Reverse (GST→Base)"; rate_pct := rate_pct;
                    base := base; gst := gst_amount; cgst := cgst;
                    sgst := sgst; total := total |} in
    Ok (add_history entry st,
        [st_success ("Base Price (excluding GST): ₹" ++ b);
         st_write ("Total Price (including GST): ₹" ++ t);
         st_write l]).

End Collaborators.

(** ** Notions used by the statements *)

(** The functions are annotated with [float] arguments, and the page passes
    floats (and [None] for no rounding). *)
Definition rounding_arg (r : option float) : option value := option_map VFloat r.

(** The rounding rule in the words of the specification:
    [round_to(x, r) = round(x / r) * r]. *)
Definition round_to (x r : value) : result value :=
  q <- truediv x r ;;
  n <- round q ;;
  mul n r.

(** The exact value of a finite float as a fraction [(num, den)] with
    [den] a power of two; [None] for infinities and NaN. *)
Definition float_fraction (x : float) : option (Z * Z) :=
  match Prim2SF x with
  | S754_zero _ => Some (0, 1)%Z
  | S754_finite s m e =>
      if (0 <=? e)%Z then Some (signed_mantissa s m * 2 ^ e, 1)%Z
      else Some (signed_mantissa s m, 2 ^ (- e))%Z
  | _ => None
  end.

(** [n] is an integer nearest to [num / den], and the even one of the two
    when [num / den] lies half way. *)
Definition nearest_even (num den n : Z) : Prop :=
  (2 * Z.abs (n * den - num) <= den)%Z /\
  ((2 * Z.abs (n * den - num) = den)%Z -> Z.even n = true).

Definition is_nan (x : float) : bool :=
  match Prim2SF x with
  | S754_nan => true
  | _ => false
  end.

(** The floats [x] for which [x / 2 + x / 2] is [x] again: all but the odd
    multiples of the least subnormal [2 ^ -1074]. *)
Definition halves_exactly (x : float) : bool :=
  match Prim2SF x with
  | S754_finite _ (xO _) _ => true
  | S754_finite _ _ e => (-1074 <? e)%Z
  | _ => true
  end.

(** The length of the ledger; an unset key counts as empty. *)
Definition ledger_length (st : session_state) : nat :=
  match history st with
  | None => 0%nat
  | Some h => List.length h
  end.

(** The actions on the ledger. *)
Inductive ledger_op : Type :=
  | Record_entry (e : entry)
  | Clear.

Definition apply_op (op : ledger_op) (st : session_state) : session_state :=
  match op with
  | Record_entry e => add_history e st
  | Clear => clear_history st
  end.

(** The result of a conversion by field, as the handlers name the
    components of the returned tuples when they build a history entry. *)
Record ConversionResult : Type := {
  cr_base : value;
  cr_gst : value;
  cr_cgst : value;
  cr_sgst : value;
  cr_total : value
}.

Inductive operation : Type :=
  | FromExcluded
  | FromIncluded
  | FromGstAmount.

(** The operation [op] on the amount [x] (the base, the total or the GST
    amount, by the operation). *)
Definition convert (op : operation) (x rate : float) (rounding : option float)
  : result ConversionResult :=
  match op with
  | FromExcluded =>
      '(total, gst_amount, cgst, sgst, base_price) <-
        calc_from_excluded (VFloat x) (VFloat rate) (rounding_arg rounding) ;;
      Ok {| cr_base := base_price; cr_gst := gst_amount; cr_cgst := cgst;
            cr_sgst := sgst; cr_total := total |}
  | FromIncluded =>
      '(base, gst_amount, cgst, sgst, total_price) <-
        calc_from_included (VFloat x) (VFloat rate) (rounding_arg rounding) ;;
      Ok {| cr_base := base; cr_gst := gst_amount; cr_cgst := cgst;
            cr_sgst := sgst; cr_total := total_price |}
  | FromGstAmount =>
      '(base, total, cgst, sgst, gst_amount) <-
        calc_from_gst_amount (VFloat x) (VFloat rate) (rounding_arg rounding) ;;
      Ok {| cr_base := base; cr_gst := gst_amount; cr_cgst := cgst;
            cr_sgst := sgst; cr_total := total |}
  end.

(** The base and the total of [calc_from_gst_amount] before rounding: the
    division is skipped, and the base is the int [0], when [rate == 0]. *)
Definition gst_amount_base (gst_amount rate : float) : value :=
  if (rate =? 0)%float then VInt 0 else VFloat (gst_amount / rate).

Definition gst_amount_total (gst_amount rate : float) : value :=
  VFloat ((if (rate =? 0)%float then 0 else gst_amount / rate) + gst_amount).

(** The float [2.0] as a spec float. *)
Definition SF_two : spec_float := S754_finite false 4503599627370496 (-51).

(** A sequence of ledger actions, the first one first. *)
Definition run_ops (ops : list ledger_op) (st : session_state) : session_state :=
  fold_left (fun s op => apply_op op s) ops st.

(** The state at the start of a session. *)
Definition new_session : session_state := {| history := None |}.

(** The clicks that change the ledger, with what the page has read from
    its inputs and from the clock. *)
Inductive event : Type :=
  | CalculateExcl (now : string) (rate_pct : Z) (rounding : option value) (base_input : value)
  | CalculateIncl (now : string) (rate_pct : Z) (rounding : option value) (total_input : value)
  | CalculateFromGst (now : string) (rate_pct : Z) (rounding : option value) (gst_input : value)
  | ClearHistory.

(** The session state after one click; an exception ends the script run
    and leaves the state as it was. *)
Definition step (str_float : float -> string) (st : session_state) (ev : event)
  : session_state :=
  let after (r : result (session_state * list ui_call)) :=
    match r with
    | Ok (st', _) => st'
    | Raise _ => st
    end in
  match ev with
  | CalculateExcl now rate_pct rounding x =>
      after (on_calculate_excl str_float now rate_pct rounding x st)
  | CalculateIncl now rate_pct rounding x =>
      after (on_calculate_incl str_float now rate_pct rounding x st)
  | CalculateFromGst now rate_pct rounding x =>
      after (on_calculate_from_gst str_float now rate_pct rounding x st)
  | ClearHistory => clear_history st
  end.

Definition run_events (str_float : float -> string) (evs : list event)
    (st : session_state) : session_state :=
  fold_left (step str_float) evs st.

(** ** The rate selector and the history panel of the page *)

(** The ledger as a list; an unset key counts as empty. *)
Definition ledger (st : session_state) : list entry :=
  match history st with
  | None => []
  | Some h => h
  end.

Definition quick_rates : list Z := [5; 12; 18; 28]%Z.

(** [enumerate(l)], counting from [i]. *)
Fixpoint enumerate_from {A : Type} (i : nat) (l : list A) : list (nat * A) :=
  match l with
  | [] => []
  | x :: l' => (i, x) :: enumerate_from (S i) l'
  end.

(** The loop over the quick-rate buttons; [pressed i] is what the button in
    column [i] returns. *)
Definition selected_quick (pressed : nat -> bool) : option Z :=
  fold_left (fun sel ir => if pressed (fst ir) then Some (snd ir) else sel)
            (enumerate_from 0 quick_rates) None.

(** [default_rate]: the quick rate when one is selected, otherwise 18. *)
Definition default_rate (sel : option Z) : Z :=
  match sel with
  | Some r => if truthy (VInt r) then r else 18%Z
  | None => 18%Z
  end.

(** The options of the rate selector. *)
Definition rate_options : list Z := [5; 12; 18; 28]%Z.

(** [l.index(x)]: the first position of [x]; [ValueError] when [x] is not
    in [l]. *)
Fixpoint list_index (l : list Z) (x : Z) : result nat :=
  match l with
  | [] => Raise ValueError
  | y :: l' =>
      if (y =? x)%Z then Ok 0%nat
      else i <- list_index l' x ;; Ok (S i)
  end.

(** The [index] argument of the rate selector. *)
Definition rate_selector_index (pressed : nat -> bool) : result nat :=
  list_index rate_options (default_rate (selected_quick pressed)).

Definition GST_DESCRIPTIONS : list (Z * string) :=
  [ (5%Z, "Essential items (some packaged foods, edible oils, etc.)");
    (12%Z, "Processed foods & household items (some processed foods, computers accessories, etc.)");
    (18%Z, "Electronics & most services (mobiles, many services, branded goods).");
    (28%Z, "Luxury goods (cars, cigarettes, high-end electronics, luxury items).") ].

(** [d.get(k)] on a dict with int keys, kept as its items. *)
Fixpoint dict_get (d : list (Z * string)) (k : Z) : option string :=
  match d with
  | [] => None
  | (k', v) :: d' => if (k' =? k)%Z then Some v else dict_get d' k
  end.

(** The caption under the rate selector, when there is one. *)
Definition rate_caption (rate_pct : Z) : option string :=
  match dict_get GST_DESCRIPTIONS rate_pct with
  | Some d => Some ("Rate info: " ++ d)
  | None => None
  end.






Section Downloads.

Variable DataFrame_to_csv : list entry -> string.


End Downloads.

(** An amount that is a float. *)
Definition is_float (v : value) : bool :=
  match v with
  | VFloat _ => true
  | VInt _ => false
  end.

(** An entry whose five amounts are floats. *)
Definition float_entry (e : entry) : bool :=
  is_float (base e) && is_float (gst e) && is_float (cgst e) && is_float (sgst e)
  && is_float (total e).

(** A click as the page produces it: the amount typed into a number input
    is a float, and the rounding is [None] or a float. *)
Definition page_event (ev : event) : bool :=
  let float_opt (r : option value) :=
    match r with
    | None => true
    | Some v => is_float v
    end in
  match ev with
  | CalculateExcl _ _ rounding x => float_opt rounding && is_float x
  | CalculateIncl _ _ rounding x => float_opt rounding && is_float x
  | CalculateFromGst _ _ rounding x => float_opt rounding && is_float x
  | ClearHistory => true
  end.

(** The rounding selector: each choice with the increment it stands for. *)
Definition rounding_map : list (string * option value) :=
  [ ("No rounding", None);
    ("Round to ₹1", Some (VFloat 1));
    ("Round to ₹0.50", Some (VFloat 0.5)) ].

(** ** Rounding to binary64, and floats as real numbers *)

Local Open Scope Z_scope.

(** [num / den] lies in [[m, m + 1)], at the place [l] says. *)
Definition inbetween (m : Z) (l : location) (num den : Z) : Prop :=
  match l with
  | loc_Exact => num = m * den
  | loc_Inexact Lt => m * den < num /\ 2 * num < (2 * m + 1) * den
  | loc_Inexact Eq => 2 * num = (2 * m + 1) * den
  | loc_Inexact Gt => (2 * m + 1) * den < 2 * num /\ num < (m + 1) * den
  end.

(** What the mantissa and the exponent look like once rounded to the
    format: fewer than 54 bits, and 53 of them unless the exponent is the
    least one. *)
Definition in_format (m e : Z) : Prop :=
  0 <= m < 2 ^ 53 /\ -1074 <= e /\ (2 ^ 52 <= m \/ e = -1074).

(** The spec float of a sign, a rounded mantissa and its exponent. *)
Definition SF_of (s : bool) (m e : Z) : spec_float :=
  match m with
  | Z0 => S754_zero s
  | Zpos p => if e <=? 971 then S754_finite s p e else S754_infinity s
  | Zneg _ => S754_nan
  end.

(** The same when the rounding may have carried into a 54th bit. *)
Definition SF_round (s : bool) (m e : Z) : spec_float :=
  if m =? 9007199254740992 then SF_of s 4503599627370496 (e + 1) else SF_of s m e.

(** A float that is a zero or a positive finite number. *)
Definition nonneg_finite (x : spec_float) : Prop :=
  match x with
  | S754_zero _ => True
  | S754_finite false _ _ => True
  | _ => False
  end.

(** The float [1.0] as a spec float. *)
Definition SF_one : spec_float := S754_finite false 4503599627370496 (-52).

(** A float that is not an infinity and not a NaN. *)
Definition is_finite (x : float) : bool :=
  match Prim2SF x with
  | S754_zero _ | S754_finite _ _ _ => true
  | _ => false
  end.

Module RealValue.
Import Reals.

(** [2 ^ e] for an integer [e]. *)
Definition p2 (e : Z) : R := powerRZ 2 e.

(** The real number a spec float denotes; [0] for the infinities and NaN. *)
Definition SF2R (x : spec_float) : R :=
  match x with
  | S754_finite s m e => (IZR (cond_Zopp s (Zpos m)) * p2 e)%R
  | _ => 0%R
  end.

(** [z] is what rounding the non-negative real [X] to binary64 gives: it
    overflows only for a large [X], and otherwise is within half a unit in
    the last place. *)
Definition rounds_to (X : R) (z : spec_float) : Prop :=
  ((X < p2 1024 - p2 970)%R -> z <> S754_infinity false) /\
  (z <> S754_infinity false ->
   nonneg_finite z /\ SpecFloat.valid_binary prec emax z = true /\
   (Rabs (SF2R z - X) <= SF2R z * p2 (-53) + p2 (-1075))%R /\
   (forall k, -1074 <= k -> (p2 k <= X)%R -> (p2 k <= SF2R z)%R)).

(** The real number a float denotes. *)
Definition float_real (x : float) : R := SF2R (Prim2SF x).

(** The round trip of [base] at [rate] without rounding: both calls
    return, the base that comes back is finite and within the tolerance
    [base * 2 ^ -50 + 2 ^ -1073] of the base that went in. *)
Definition round_trip_close (base rate : float) : Prop :=
  let gst := (base * rate)%float in
  let total := (base + gst)%float in
  let back := (total / (1 + rate))%float in
  calc_from_excluded (VFloat base) (VFloat rate) None
  = Ok (VFloat total, VFloat gst, VFloat (gst / 2), VFloat (gst / 2), VFloat base) /\
  calc_from_included (VFloat total) (VFloat rate) None
  = Ok (VFloat back, VFloat (total - back), VFloat ((total - back) / 2),
        VFloat ((total - back) / 2), VFloat total) /\
  is_finite back = true /\
  (Rabs (float_real back - float_real base)
   <= float_real base * p2 (-50) + p2 (-1073))%R.

End RealValue.

(** ** Notions for the order and the rounding of amounts *)


Module Nearest.
Import Reals RealValue.

(** [z] comes from the non-negative real [X] by the rounding of the
    operations: it is [X] itself, a float, or what [binary_round_aux] makes
    of a mantissa [m] with its location, standing for the fraction
    [num / den] at the exponent [e], with [X = num / den * 2 ^ e]. *)
Definition rounding_of (X : R) (z : spec_float) : Prop :=
  (nonneg_finite z /\ SpecFloat.valid_binary prec emax z = true /\ SF2R z = X) \/
  exists (m e : Z) (l : location) (num den : Z),
    0 < den /\ 0 <= m /\ inbetween m l num den /\
    e <= fexp prec emax (Zdigits2 m + e) /\
    X = (IZR num / IZR den * p2 e)%R /\
    z = binary_round_aux prec emax false m e l.

(** A float that is a zero, a positive finite number or the positive
    infinity. *)
Definition nonneg (x : spec_float) : Prop :=
  match x with
  | S754_zero _ | S754_finite false _ _ | S754_infinity false => True
  | _ => False
  end.

(** A float that is finite, not below zero and at most [2 ^ k]. *)
Definition bounded_by (z : spec_float) (k : Z) : Prop :=
  nonneg_finite z /\ SpecFloat.valid_binary prec emax z = true /\ (SF2R z <= p2 k)%R.

(** [f] is a finite float, a multiple of the increment [inc] nearest to
    [x], and the even multiple when [x] lies half way between two. *)
Definition nearest_multiple (inc x f : float) : Prop :=
  is_finite f = true /\
  exists n : Z,
    float_real f = (IZR n * float_real inc)%R /\
    (Rabs (float_real f - float_real x) <= float_real inc / 2)%R /\
    ((Rabs (float_real f - float_real x) = float_real inc / 2)%R -> Z.even n = true).

(** [x <= y] on floats, as Python compares them. *)
Definition float_le (x y : float) : bool := Py.le (VFloat x) (VFloat y).

(** A float that is finite and not below zero. *)
Definition finite_nonneg (x : float) : bool :=
  is_finite x && Py.le (VInt 0) (VFloat x).

End Nearest.

(** ** Facts on binary64 arithmetic

    Derived from the specification of the primitive floats in [SpecFloat]
    and [FloatAxioms]. *)

Local Open Scope Z_scope.

Module FloatFacts.

Lemma digits2_pos_bounds (m : positive) :
  2 ^ (Zpos (digits2_pos m) - 1) <= Zpos m < 2 ^ Zpos (digits2_pos m).
Proof.
  induction m as [m IH | m IH | ]; cbn [digits2_pos].
  - rewrite Pos2Z.inj_succ.
    replace (Z.succ (Zpos (digits2_pos m)) - 1) with (Z.succ (Zpos (digits2_pos m) - 1)) by lia.
    rewrite !Z.pow_succ_r by lia. lia.
  - rewrite Pos2Z.inj_succ.
    replace (Z.succ (Zpos (digits2_pos m)) - 1) with (Z.succ (Zpos (digits2_pos m) - 1)) by lia.
    rewrite !Z.pow_succ_r by lia. lia.
  - cbn. lia.
Qed.

Lemma shr_1_m (mrs : shr_record) :
  0 <= shr_m mrs -> shr_m (shr_1 mrs) = shr_m mrs / 2.
Proof.
  destruct mrs as [m r s]; cbn [shr_m]. intros Hm.
  destruct m as [ | [p | p | ] | p ]; cbn [shr_1 shr_m]; try lia.
  - reflexivity.
  - rewrite Pos2Z.inj_xI. apply Z.div_unique with (r := 1); lia.
  - rewrite Pos2Z.inj_xO. apply Z.div_unique with (r := 0); lia.
  - reflexivity.
Qed.

Lemma iter_pos_shr_1_m (p : positive) : forall mrs,
  0 <= shr_m mrs ->
  shr_m (SpecFloat.iter_pos shr_1 p mrs) = shr_m mrs / 2 ^ Zpos p.
Proof.
  assert (Hnn : forall mrs, 0 <= shr_m mrs -> 0 <= shr_m (shr_1 mrs)).
  { intros mrs H. rewrite shr_1_m by assumption. apply Z.div_pos; lia. }
  induction p as [p IH | p IH | ]; intros mrs Hm; cbn [SpecFloat.iter_pos].
  - assert (H1 := Hnn _ Hm).
    assert (H2 : 0 <= shr_m (SpecFloat.iter_pos shr_1 p (shr_1 mrs))).
    { rewrite IH by assumption. apply Z.div_pos; [assumption | apply Z.pow_pos_nonneg; lia]. }
    rewrite IH by assumption. rewrite IH by assumption. rewrite shr_1_m by assumption.
    rewrite !Z.div_div by (try apply Z.pow_pos_nonneg; lia).
    f_equal. rewrite Pos2Z.inj_xI, <- Z.pow_add_r, <- (Z.pow_1_r 2) at 1 by lia.
    rewrite <- Z.pow_add_r by lia. f_equal. lia.
  - assert (H2 : 0 <= shr_m (SpecFloat.iter_pos shr_1 p mrs)).
    { rewrite IH by assumption. apply Z.div_pos; [assumption | apply Z.pow_pos_nonneg; lia]. }
    rewrite IH by assumption. rewrite IH by assumption.
    rewrite !Z.div_div by (try apply Z.pow_pos_nonneg; lia).
    f_equal. rewrite Pos2Z.inj_xO, <- Z.pow_add_r by lia. f_equal. lia.
  - rewrite shr_1_m by assumption. reflexivity.
Qed.

Lemma fexp_eq (x : Z) : fexp prec emax x = Z.max (x - 53) (-1074).
Proof. reflexivity. Qed.

Lemma Zdigits2_pos_bounds (m : Z) :
  0 < m -> 2 ^ (Zdigits2 m - 1) <= m < 2 ^ Zdigits2 m.
Proof.
  destruct m as [ | p | p ]; try lia. intros _. apply digits2_pos_bounds.
Qed.

Lemma Zdigits2_pos (m : Z) : 0 < m -> 0 < Zdigits2 m.
Proof. destruct m; cbn; lia. Qed.

Lemma Zdigits2_le (a b : Z) : 0 < a -> a <= b -> Zdigits2 a <= Zdigits2 b.
Proof.
  intros Ha Hab.
  assert (Hb : 0 < b) by lia.
  pose proof (Zdigits2_pos_bounds a Ha) as [Ha1 _].
  pose proof (Zdigits2_pos_bounds b Hb) as [_ Hb2].
  pose proof (Zdigits2_pos a Ha). pose proof (Zdigits2_pos b Hb).
  assert (H2 : 2 ^ (Zdigits2 a - 1) < 2 ^ Zdigits2 b) by lia.
  apply Z.pow_lt_mono_r_iff in H2; lia.
Qed.

(** Shifting a mantissa to its canonical exponent leaves it positive when
    the value is at least the least subnormal's magnitude. *)
Lemma shr_fexp_pos (m e : Z) (l : location) :
  0 < m -> -1074 < Zdigits2 m + e ->
  0 < shr_m (fst (shr_fexp prec emax m e l)) /\
  (forall m2, shr_m (fst (shr_fexp prec emax m e l)) <= m2 ->
              -1074 < Zdigits2 m2 + snd (shr_fexp prec emax m e l)).
Proof.
  intros Hm He. unfold shr_fexp. rewrite fexp_eq.
  assert (Hl : shr_m (shr_record_of_loc m l) = m) by (destruct l as [ | [ | | ]]; reflexivity).
  pose proof (Zdigits2_pos_bounds m Hm) as [Hlo _].
  pose proof (Zdigits2_pos m Hm) as Hd.
  unfold shr.
  destruct (Z.max (Zdigits2 m + e - 53) (-1074) - e) as [ | n | n ] eqn:En; cbn [fst snd].
  - rewrite Hl. split; [assumption | ]. intros m2 H2.
    pose proof (Zdigits2_le m m2 Hm H2). lia.
  - rewrite iter_pos_shr_1_m by (rewrite Hl; lia). rewrite Hl.
    assert (Hn : Zpos n <= Zdigits2 m - 1) by lia.
    assert (Hpow : 2 ^ Zpos n <= m).
    { apply Z.le_trans with (2 ^ (Zdigits2 m - 1)); [ | assumption].
      apply Z.pow_le_mono_r; lia. }
    assert (Hq : 0 < m / 2 ^ Zpos n).
    { apply Z.div_str_pos. split; [apply Z.pow_pos_nonneg; lia | assumption]. }
    split; [assumption | ]. intros m2 H2.
    assert (Hm2 : 0 < m2) by lia.
    pose proof (Zdigits2_pos m2 Hm2). lia.
  - rewrite Hl. split; [assumption | ]. intros m2 H2.
    pose proof (Zdigits2_le m m2 Hm H2). lia.
Qed.

Lemma round_nearest_even_ge (m : Z) (l : location) : m <= round_nearest_even m l.
Proof.
  destruct l as [ | [ | | ]]; cbn [round_nearest_even]; try lia.
  destruct (Z.even m); lia.
Qed.

(** Rounding a positive mantissa never gives a zero or a NaN unless the
    value underflows. *)
Lemma binary_round_aux_not_zero (sx : bool) (m e : Z) (l : location) :
  0 < m -> -1074 < Zdigits2 m + e ->
  (exists m' e', binary_round_aux prec emax sx m e l = S754_finite sx m' e') \/
  binary_round_aux prec emax sx m e l = S754_infinity sx.
Proof.
  intros Hm He. unfold binary_round_aux.
  destruct (shr_fexp_pos m e l Hm He) as [H1 H2].
  destruct (shr_fexp prec emax m e l) as [mrs1 e1]. cbn [fst snd] in H1, H2.
  set (m2 := round_nearest_even (shr_m mrs1) (loc_of_shr_record mrs1)).
  assert (Hge : shr_m mrs1 <= m2) by apply round_nearest_even_ge.
  assert (Hm2 : 0 < m2) by lia.
  destruct (shr_fexp_pos m2 e1 loc_Exact Hm2 (H2 m2 Hge)) as [H3 _].
  destruct (shr_fexp prec emax m2 e1 loc_Exact) as [mrs2 e2]. cbn [fst] in H3.
  destruct (shr_m mrs2) as [ | p | p ]; try lia.
  destruct (e2 <=? emax - prec); [left; eauto | right; reflexivity].
Qed.

Lemma iter_xO_Z (d m : positive) : Zpos (Pos.iter xO m d) = Zpos m * 2 ^ Zpos d.
Proof.
  induction d as [ | d IH ] using Pos.peano_ind.
  - cbn [Pos.iter]. lia.
  - rewrite Pos.iter_succ, Pos2Z.inj_xO, IH, Pos2Z.inj_succ, Z.pow_succ_r by lia. lia.
Qed.

(** [shl_align] keeps the value and never raises the exponent. *)
Lemma shl_align_spec (mx : positive) (ex ez : Z) :
  let d := Z.max 0 (ex - ez) in
  Zpos (fst (shl_align mx ex ez)) = Zpos mx * 2 ^ d /\
  snd (shl_align mx ex ez) = ex - d.
Proof.
  unfold shl_align. destruct (ez - ex) as [ | p | p ] eqn:E; cbn [fst snd].
  - replace (Z.max 0 (ex - ez)) with 0 by lia. rewrite Z.pow_0_r. lia.
  - replace (Z.max 0 (ex - ez)) with 0 by lia. rewrite Z.pow_0_r. lia.
  - replace (Z.max 0 (ex - ez)) with (Zpos p) by lia. rewrite iter_xO_Z. lia.
Qed.

Lemma binary_round_not_zero (sx : bool) (mx : positive) (ex : Z) :
  -1074 <= ex ->
  (exists m' e', binary_round prec emax sx mx ex = S754_finite sx m' e') \/
  binary_round prec emax sx mx ex = S754_infinity sx.
Proof.
  intros He. unfold binary_round.
  destruct (shl_align_spec mx ex (fexp prec emax (Zpos (digits2_pos mx) + ex)))
    as (Hm & Hs).
  destruct (shl_align mx ex (fexp prec emax (Zpos (digits2_pos mx) + ex))) as [mz ez].
  cbn [fst snd] in Hm, Hs.
  apply binary_round_aux_not_zero; [lia | ].
  assert (Hez : -1074 <= ez) by (rewrite fexp_eq in Hs; lia).
  pose proof (Zdigits2_pos (Zpos mz) ltac:(lia)). lia.
Qed.

(** The sum of two positive finite floats is not zero. *)
Lemma SFadd_pos_not_zero (mx my : positive) (ex ey : Z) :
  -1074 <= ex -> -1074 <= ey ->
  (exists m' e', SFadd prec emax (S754_finite false mx ex) (S754_finite false my ey)
                 = S754_finite false m' e') \/
  SFadd prec emax (S754_finite false mx ex) (S754_finite false my ey) = S754_infinity false.
Proof.
  intros Hx Hy. cbn [SFadd cond_Zopp]. cbn [Z.add binary_normalize].
  apply binary_round_not_zero. lia.
Qed.

Lemma valid_exponent (s : bool) (m : positive) (e : Z) :
  valid_binary (S754_finite s m e) = true -> -1074 <= e <= 971.
Proof.
  cbn [SpecFloat.valid_binary]. unfold bounded, canonical_mantissa.
  rewrite andb_true_iff, Z.eqb_eq, Z.leb_le, fexp_eq.
  change (emax - prec) with 971. lia.
Qed.

Lemma Prim2SF_one : Prim2SF 1 = S754_finite false 4503599627370496 (-52).
Proof. reflexivity. Qed.

Lemma Prim2SF_zero : Prim2SF 0 = S754_zero false.
Proof. reflexivity. Qed.

(** [x == 0] holds exactly for the two zeros. *)
Lemma eqb_zero (x : float) :
  (x =? 0)%float = match Prim2SF x with S754_zero _ => true | _ => false end.
Proof.
  rewrite eqb_spec, Prim2SF_zero. unfold SFeqb.
  destruct (Prim2SF x) as [ s | [ | ] | | [ | ] m e ]; reflexivity.
Qed.

Lemma div_eucl_pair (a b : Z) : Z.div_eucl a b = (a / b, a mod b).
Proof. unfold Z.div, Z.modulo. destruct (Z.div_eucl a b); reflexivity. Qed.

(** A mantissa already at its canonical exponent is left alone. *)
Lemma shr_fexp_id (m e : Z) (l : location) :
  fexp prec emax (Zdigits2 m + e) <= e ->
  shr_fexp prec emax m e l = (shr_record_of_loc m l, e).
Proof.
  intros H. unfold shr_fexp, shr.
  destruct (fexp prec emax (Zdigits2 m + e) - e) eqn:E; try reflexivity. lia.
Qed.

Lemma binary_round_aux_exact (sx : bool) (m : positive) (e : Z) :
  fexp prec emax (Zpos (digits2_pos m) + e) <= e -> e <= 971 ->
  binary_round_aux prec emax sx (Zpos m) e loc_Exact = S754_finite sx m e.
Proof.
  intros H He. unfold binary_round_aux.
  rewrite shr_fexp_id by exact H. cbn [shr_record_of_loc shr_m loc_of_shr_record round_nearest_even].
  rewrite shr_fexp_id by exact H. cbn [shr_record_of_loc shr_m].
  change (emax - prec) with 971. apply Z.leb_le in He. rewrite He. reflexivity.
Qed.

(** One bit too many, and that bit is zero: the shift is exact. *)
Lemma binary_round_aux_even (sx : bool) (p : positive) (e : Z) :
  fexp prec emax (Zpos (digits2_pos p) + (e + 1)) = e + 1 -> e + 1 <= 971 ->
  binary_round_aux prec emax sx (Zpos p~0) e loc_Exact = S754_finite sx p (e + 1).
Proof.
  intros H He. unfold binary_round_aux.
  assert (H1 : shr_fexp prec emax (Zpos p~0) e loc_Exact
               = ({| shr_m := Zpos p; shr_r := false; shr_s := false |}, e + 1)).
  { unfold shr_fexp, shr. cbn [Zdigits2 digits2_pos]. rewrite Pos2Z.inj_succ.
    replace (Z.succ (Zpos (digits2_pos p)) + e) with (Zpos (digits2_pos p) + (e + 1)) by lia.
    rewrite H. replace (e + 1 - e) with 1 by lia. reflexivity. }
  rewrite H1. cbn [shr_m loc_of_shr_record round_nearest_even].
  rewrite shr_fexp_id by (cbn [Zdigits2]; lia). cbn [shr_record_of_loc shr_m].
  change (emax - prec) with 971. apply Z.leb_le in He. rewrite He. reflexivity.
Qed.

Lemma Prim2SF_two : Prim2SF 2 = SF_two.
Proof. reflexivity. Qed.

Lemma bounded_digits (m : positive) (e : Z) :
  bounded prec emax m e = true ->
  Zpos (digits2_pos m) <= 53 /\ (-1074 < e -> Zpos (digits2_pos m) = 53).
Proof.
  unfold bounded, canonical_mantissa.
  rewrite andb_true_iff, Z.eqb_eq, Z.leb_le, fexp_eq. lia.
Qed.

(** Halving a float above the subnormal step only lowers the exponent. *)
Lemma SFdiv_two_normal (s : bool) (m : positive) (e : Z) :
  bounded prec emax m e = true -> -1074 < e ->
  SFdiv prec emax (S754_finite s m e) SF_two = S754_finite s m (e - 1).
Proof.
  intros Hb He.
  pose proof (valid_exponent s m e Hb) as Hr.
  destruct (bounded_digits m e Hb) as [_ Hd]. specialize (Hd He).
  unfold SF_two, SFdiv, SFdiv_core_binary.
  cbn [Zdigits2]. rewrite Hd.
  change (Zpos (digits2_pos 4503599627370496)) with 53.
  rewrite fexp_eq, div_eucl_pair, xorb_false_r.
  destruct (Z.eq_dec e (-1073)) as [-> | Hne].
  - cbn -[Z.div Z.modulo Z.shiftl binary_round_aux Z.pow].
    rewrite Z.shiftl_mul_pow2 by lia.
    change (2 ^ 52) with 4503599627370496.
    rewrite Z.div_mul, Z.mod_mul by lia.
    cbn [new_location Z.even new_location_even Z.eqb].
    apply binary_round_aux_exact; [rewrite fexp_eq, Hd | ]; lia.
  - replace (Z.min (Z.max (53 + e - (53 + -51) - 53) (-1074)) (e - -51)) with (e - 2) by lia.
    replace (e - -51 - (e - 2)) with 53 by lia.
    rewrite Z.shiftl_mul_pow2 by lia.
    replace (Zpos m * 2 ^ 53) with (Zpos m~0 * 4503599627370496) by (rewrite Pos2Z.inj_xO; lia).
    rewrite Z.div_mul, Z.mod_mul by lia.
    cbn [new_location Z.even new_location_even Z.eqb].
    replace (e - 1) with (e - 2 + 1) by lia.
    apply binary_round_aux_even; [rewrite fexp_eq, Hd | ]; lia.
Qed.

(** Halving an even multiple of the least subnormal halves the mantissa. *)
Lemma SFdiv_two_even (s : bool) (k : positive) :
  bounded prec emax k~0 (-1074) = true ->
  SFdiv prec emax (S754_finite s k~0 (-1074)) SF_two = S754_finite s k (-1074).
Proof.
  intros Hb.
  destruct (bounded_digits _ _ Hb) as [Hd _].
  unfold SF_two, SFdiv, SFdiv_core_binary.
  cbn [Zdigits2].
  change (Zpos (digits2_pos 4503599627370496)) with 53.
  rewrite fexp_eq, div_eucl_pair, xorb_false_r.
  replace (Z.min (Z.max (Zpos (digits2_pos k~0) + -1074 - (53 + -51) - 53) (-1074)) (-1074 - -51))
    with (-1074) by lia.
  change (-1074 - -51 - -1074) with 51.
  rewrite Z.shiftl_mul_pow2 by lia.
  replace (Zpos k~0 * 2 ^ 51) with (Zpos k * 4503599627370496) by (rewrite Pos2Z.inj_xO; lia).
  rewrite Z.div_mul, Z.mod_mul by lia.
  cbn [new_location Z.even new_location_even Z.eqb].
  cbn [digits2_pos] in Hd. rewrite Pos2Z.inj_succ in Hd.
  apply binary_round_aux_exact; [rewrite fexp_eq | ]; lia.
Qed.

Lemma shl_align_id (m : positive) (e e' : Z) :
  e <= e' -> shl_align m e e' = (m, e).
Proof.
  intros H. unfold shl_align. destruct (e' - e) eqn:E; try reflexivity. lia.
Qed.

Lemma cond_Zopp_double (s : bool) (m : positive) :
  cond_Zopp s (Zpos m) + cond_Zopp s (Zpos m) = cond_Zopp s (Zpos m~0).
Proof. destruct s; cbn [cond_Zopp]; lia. Qed.

Lemma binary_normalize_signed (s : bool) (m : positive) (e : Z) :
  binary_normalize prec emax (cond_Zopp s (Zpos m)) e false = binary_round prec emax s m e.
Proof. destruct s; reflexivity. Qed.

Lemma SFadd_self (s : bool) (m : positive) (e : Z) :
  SFadd prec emax (S754_finite s m e) (S754_finite s m e)
  = binary_round prec emax s m~0 e.
Proof.
  cbn [SFadd]. rewrite Z.min_id, shl_align_id by lia. cbn [fst].
  rewrite cond_Zopp_double. apply binary_normalize_signed.
Qed.

(** Doubling a float with a full mantissa only raises the exponent. *)
Lemma SFadd_self_normal (s : bool) (m : positive) (e : Z) :
  Zpos (digits2_pos m) = 53 -> -1075 <= e -> e + 1 <= 971 ->
  SFadd prec emax (S754_finite s m e) (S754_finite s m e) = S754_finite s m (e + 1).
Proof.
  intros Hd He1 He2. rewrite SFadd_self. unfold binary_round.
  cbn [digits2_pos]. rewrite Pos2Z.inj_succ, Hd.
  rewrite shl_align_id by (rewrite fexp_eq; lia).
  apply binary_round_aux_even; [rewrite fexp_eq, Hd | ]; lia.
Qed.

(** Doubling a subnormal that stays canonical doubles the mantissa. *)
Lemma SFadd_self_subnormal (s : bool) (k : positive) :
  Zpos (digits2_pos k~0) <= 53 ->
  SFadd prec emax (S754_finite s k (-1074)) (S754_finite s k (-1074))
  = S754_finite s k~0 (-1074).
Proof.
  intros Hd. rewrite SFadd_self. unfold binary_round.
  rewrite shl_align_id by (rewrite fexp_eq; lia).
  apply binary_round_aux_exact; [rewrite fexp_eq | ]; lia.
Qed.

Lemma SF_half_twice (x : spec_float) :
  valid_binary x = true ->
  match x with
  | S754_finite _ (xO _) _ => true
  | S754_finite _ _ e => -1074 <? e
  | _ => true
  end = true ->
  SFadd prec emax (SFdiv prec emax x SF_two) (SFdiv prec emax x SF_two) = x.
Proof.
  intros Hv Hx. destruct x as [ [ | ] | [ | ] | | s m e ]; try reflexivity.
  pose proof (valid_exponent s m e Hv) as Hr.
  cbn [SpecFloat.valid_binary] in Hv.
  destruct (bounded_digits m e Hv) as [Hd53 Hd].
  destruct (Z.eq_dec e (-1074)) as [-> | Hne].
  - destruct m as [ m | k | ]; try discriminate Hx.
    rewrite SFdiv_two_even by exact Hv. apply SFadd_self_subnormal. exact Hd53.
  - rewrite SFdiv_two_normal by (try exact Hv; lia).
    rewrite SFadd_self_normal by (try apply Hd; lia). f_equal. lia.
Qed.

(** The two halves of [x] add up to [x]. *)
Lemma half_twice (x : float) :
  halves_exactly x = true -> (x / 2 + x / 2)%float = x.
Proof.
  intros H. apply Prim2SF_inj.
  rewrite add_spec, div_spec, Prim2SF_two. unfold SF64add, SF64div.
  apply SF_half_twice; [apply Prim2SF_valid | exact H].
Qed.

Lemma SFcompare_refl (x : spec_float) :
  x <> S754_nan -> SFcompare x x = Some Eq.
Proof.
  destruct x as [ [ | ] | [ | ] | | [ | ] m e ]; cbn [SFcompare]; try reflexivity;
    try congruence; intros _; rewrite Z.compare_refl, Pos.compare_cont_refl; reflexivity.
Qed.

Lemma loc_of_shr_record_of_loc (m : Z) (l : location) :
  loc_of_shr_record (shr_record_of_loc m l) = l /\ shr_m (shr_record_of_loc m l) = m.
Proof. destruct l as [ | [ | | ]]; split; reflexivity. Qed.

Lemma shr_1_inbetween (mrs : shr_record) (num den : Z) :
  0 < den -> 0 <= shr_m mrs ->
  inbetween (shr_m mrs) (loc_of_shr_record mrs) num den ->
  inbetween (shr_m (shr_1 mrs)) (loc_of_shr_record (shr_1 mrs)) num (2 * den).
Proof.
  intros Hden Hm. destruct mrs as [m r s]. cbn [shr_m] in Hm.
  destruct m as [ | [ p | p | ] | p ].
  - destruct r, s; cbn [shr_1 shr_m loc_of_shr_record orb inbetween]; intros H; lia.
  - destruct r, s; cbn [shr_1 shr_m loc_of_shr_record orb inbetween]; intros H;
      rewrite (Pos2Z.inj_xI p) in H; lia.
  - destruct r, s; cbn [shr_1 shr_m loc_of_shr_record orb inbetween]; intros H;
      rewrite (Pos2Z.inj_xO p) in H; lia.
  - destruct r, s; cbn [shr_1 shr_m loc_of_shr_record orb inbetween]; intros H; lia.
  - exfalso. lia.
Qed.

Lemma shr_1_nonneg (mrs : shr_record) : 0 <= shr_m mrs -> 0 <= shr_m (shr_1 mrs).
Proof.
  destruct mrs as [m r s]. cbn [shr_m].
  destruct m as [ | [ p | p | ] | p ]; cbn; lia.
Qed.

Lemma pow2_xO (p : positive) : 2 ^ Zpos p~0 = 2 ^ Zpos p * 2 ^ Zpos p.
Proof. rewrite Pos2Z.inj_xO, <- Z.pow_add_r by lia. f_equal. lia. Qed.

Lemma pow2_xI (p : positive) : 2 ^ Zpos p~1 = 2 ^ Zpos p * (2 ^ Zpos p * 2).
Proof.
  rewrite Pos2Z.inj_xI. replace (2 * Zpos p + 1) with (Z.succ (Zpos p + Zpos p)) by lia.
  rewrite Z.pow_succ_r, Z.pow_add_r by lia. lia.
Qed.

Lemma iter_pos_shr_1_inbetween (p : positive) : forall (mrs : shr_record) (num den : Z),
  0 < den -> 0 <= shr_m mrs ->
  inbetween (shr_m mrs) (loc_of_shr_record mrs) num den ->
  0 <= shr_m (SpecFloat.iter_pos shr_1 p mrs) /\
  inbetween (shr_m (SpecFloat.iter_pos shr_1 p mrs)) (loc_of_shr_record (SpecFloat.iter_pos shr_1 p mrs))
    num (2 ^ Zpos p * den).
Proof.
  induction p as [ p IH | p IH | ]; intros mrs num den Hden Hm H; cbn [SpecFloat.iter_pos].
  - pose proof (shr_1_nonneg _ Hm) as H0.
    pose proof (shr_1_inbetween _ _ _ Hden Hm H) as H1.
    assert (Hp : 0 < 2 ^ Zpos p) by (apply Z.pow_pos_nonneg; lia).
    assert (Hd1 : 0 < 2 * den) by lia.
    destruct (IH _ _ _ Hd1 H0 H1) as [H2 H3].
    assert (Hd2 : 0 < 2 ^ Zpos p * (2 * den)) by (apply Z.mul_pos_pos; lia).
    destruct (IH _ _ _ Hd2 H2 H3) as [H4 H5].
    split; [exact H4 | ].
    rewrite pow2_xI, <- !Z.mul_assoc. exact H5.
  - assert (Hp : 0 < 2 ^ Zpos p) by (apply Z.pow_pos_nonneg; lia).
    destruct (IH _ _ _ Hden Hm H) as [H2 H3].
    assert (Hd2 : 0 < 2 ^ Zpos p * den) by (apply Z.mul_pos_pos; lia).
    destruct (IH _ _ _ Hd2 H2 H3) as [H4 H5].
    split; [exact H4 | ].
    rewrite pow2_xO, <- !Z.mul_assoc. exact H5.
  - split; [apply shr_1_nonneg, Hm | ].
    change (2 ^ 1) with 2. apply shr_1_inbetween; assumption.
Qed.

(** Rounding to nearest: the result is within half a unit. *)
Lemma round_nearest_even_correct (m : Z) (l : location) (num den : Z) :
  0 < den -> inbetween m l num den ->
  let n := round_nearest_even m l in
  m <= n <= m + 1 /\ 2 * Z.abs (n * den - num) <= den.
Proof.
  intros Hden H. cbv zeta.
  destruct l as [ | [ | | ]]; cbn [round_nearest_even inbetween] in *.
  - subst num. replace (m * den - m * den) with 0 by lia. cbn. lia.
  - destruct (Z.even m); lia.
  - lia.
  - lia.
Qed.

Lemma Zdigits2_unique (m j : Z) :
  2 ^ (j - 1) <= m < 2 ^ j -> 0 < j -> Zdigits2 m = j.
Proof.
  intros [Hlo Hhi] Hj.
  assert (Hm : 0 < m).
  { apply Z.lt_le_trans with (2 ^ (j - 1)); [apply Z.pow_pos_nonneg; lia | exact Hlo]. }
  pose proof (Zdigits2_pos_bounds m Hm) as [Hl Hh].
  pose proof (Zdigits2_pos m Hm) as Hd.
  assert (H1 : 2 ^ (j - 1) < 2 ^ Zdigits2 m) by lia.
  assert (H2 : 2 ^ (Zdigits2 m - 1) < 2 ^ j) by lia.
  apply Z.pow_lt_mono_r_iff in H1; [ | lia | lia].
  apply Z.pow_lt_mono_r_iff in H2; [ | lia | lia].
  lia.
Qed.

Lemma Zdigits2_lt_pow (m j : Z) : 0 <= m < 2 ^ j -> 0 <= j -> Zdigits2 m <= j.
Proof.
  intros [Hlo Hhi] Hj. destruct (Z.eq_dec m 0) as [-> | Hne]; [cbn; lia | ].
  assert (Hm : 0 < m) by lia.
  pose proof (Zdigits2_pos_bounds m Hm) as [Hl Hh].
  pose proof (Zdigits2_pos m Hm) as Hd.
  assert (H2 : 2 ^ (Zdigits2 m - 1) < 2 ^ j) by lia.
  apply Z.pow_lt_mono_r_iff in H2; lia.
Qed.

Lemma shr_fexp_correct (m e : Z) (l : location) (num den : Z) :
  0 < den -> 0 <= m -> inbetween m l num den ->
  e <= fexp prec emax (Zdigits2 m + e) ->
  exists mrs n,
    shr_fexp prec emax m e l = (mrs, e + n) /\ 0 <= n /\
    in_format (shr_m mrs) (e + n) /\
    inbetween (shr_m mrs) (loc_of_shr_record mrs) num (2 ^ n * den).
Proof.
  intros Hden Hm Hin He. unfold shr_fexp, shr. rewrite fexp_eq in *.
  destruct (loc_of_shr_record_of_loc m l) as [Hl Hr].
  destruct (Z.max (Zdigits2 m + e - 53) (-1074) - e) as [ | n | n ] eqn:En; try lia.
  - exists (shr_record_of_loc m l), 0. rewrite Z.add_0_r, Hl, Hr, Z.pow_0_r, Z.mul_1_l.
    repeat split; try lia; try assumption.
    + destruct (Z.eq_dec m 0) as [-> | Hne]; [lia | ].
      pose proof (Zdigits2_pos_bounds m ltac:(lia)) as [_ Hh].
      apply Z.lt_le_trans with (1 := Hh). apply Z.pow_le_mono_r; lia.
    + destruct (Z.eq_dec m 0) as [-> | Hne]; [cbn in En; lia | ].
      pose proof (Zdigits2_pos_bounds m ltac:(lia)) as [Hlo _].
      destruct (Z.eq_dec e (-1074)); [right; assumption | left].
      apply Z.le_trans with (2 := Hlo). apply Z.pow_le_mono_r; lia.
  - exists (SpecFloat.iter_pos shr_1 n (shr_record_of_loc m l)), (Zpos n).
    destruct (iter_pos_shr_1_inbetween n (shr_record_of_loc m l) num den Hden)
      as [H0 H1]; [rewrite Hr; lia | rewrite Hl, Hr; exact Hin | ].
    pose proof (iter_pos_shr_1_m n (shr_record_of_loc m l) ltac:(rewrite Hr; lia)) as Hq.
    rewrite Hr in Hq.
    assert (Hp : 0 < 2 ^ Zpos n) by (apply Z.pow_pos_nonneg; lia).
    repeat split; try lia; try assumption.
    + rewrite Hq. apply Z.div_lt_upper_bound; [lia | ].
      destruct (Z.eq_dec m 0) as [-> | Hne]; [nia | ].
      pose proof (Zdigits2_pos_bounds m ltac:(lia)) as [_ Hh].
      apply Z.lt_le_trans with (1 := Hh).
      rewrite <- Z.pow_add_r by lia. apply Z.pow_le_mono_r; lia.
    + destruct (Z.eq_dec (e + Zpos n) (-1074)); [right; assumption | left].
      assert (Hm0 : 0 < m).
      { destruct (Z.eq_dec m 0) as [-> | Hne]; [cbn in En; lia | lia]. }
      pose proof (Zdigits2_pos_bounds m Hm0) as [Hlo _].
      rewrite Hq. apply Z.div_le_lower_bound; [lia | ].
      apply Z.le_trans with (2 := Hlo).
      rewrite <- Z.pow_add_r by lia. apply Z.pow_le_mono_r; lia.
Qed.

(** [binary_round_aux] rounds to nearest: the mantissa it keeps, at the
    canonical exponent of what it was given, is within half a unit of the
    fraction it was given. *)
Lemma binary_round_aux_correct (s : bool) (m e : Z) (l : location) (num den : Z) :
  0 < den -> 0 <= m -> inbetween m l num den ->
  e <= fexp prec emax (Zdigits2 m + e) ->
  let n := fexp prec emax (Zdigits2 m + e) - e in
  exists m2,
    0 <= m2 <= 2 ^ 53 /\ (2 ^ 52 <= m2 \/ e + n = -1074) /\
    2 * Z.abs (m2 * (2 ^ n * den) - num) <= 2 ^ n * den /\
    binary_round_aux prec emax s m e l = SF_round s m2 (e + n).
Proof.
  intros Hden Hm Hin He. cbv zeta.
  destruct (shr_fexp_correct m e l num den Hden Hm Hin He)
    as (mrs1 & n & E1 & Hn & (Hm1 & He1 & Hf1) & Hin1).
  assert (En : fexp prec emax (Zdigits2 m + e) - e = n).
  { unfold shr_fexp, shr in E1.
    destruct (fexp prec emax (Zdigits2 m + e) - e) as [ | p | p ] eqn:Ed;
      injection E1 as _ E1; lia. }
  rewrite En.
  unfold binary_round_aux. rewrite E1.
  assert (Hp : 0 < 2 ^ n) by (apply Z.pow_pos_nonneg; lia).
  assert (Hd1 : 0 < 2 ^ n * den) by (apply Z.mul_pos_pos; lia).
  destruct (round_nearest_even_correct _ _ _ _ Hd1 Hin1) as [Hr Herr].
  set (m2 := round_nearest_even (shr_m mrs1) (loc_of_shr_record mrs1)) in *.
  change (2 ^ 53) with 9007199254740992 in *.
  change (2 ^ 52) with 4503599627370496 in *.
  exists m2. split; [lia | split; [lia | split; [exact Herr | ]]].
  unfold SF_round.
  destruct (Z.eqb_spec m2 9007199254740992) as [E2 | N2].
  - rewrite E2.
    assert (Es : shr_fexp prec emax 9007199254740992 (e + n) loc_Exact
                 = ({| shr_m := 4503599627370496; shr_r := false; shr_s := false |},
                    e + n + 1)).
    { unfold shr_fexp, shr. rewrite fexp_eq.
      change (Zdigits2 9007199254740992) with 54.
      replace (Z.max (54 + (e + n) - 53) (-1074) - (e + n)) with 1 by lia.
      reflexivity. }
    rewrite Es. reflexivity.
  - assert (Hd : Zdigits2 m2 <= 53)
      by (apply Zdigits2_lt_pow; [change (2 ^ 53) with 9007199254740992 | ]; lia).
    rewrite shr_fexp_id by (rewrite fexp_eq; lia).
    cbn [shr_record_of_loc shr_m].
    unfold SF_of. change (emax - prec) with 971.
    destruct m2 as [ | p | p ]; reflexivity.
Qed.

End FloatFacts.

(** ** Python comparisons and divisions on floats *)

Module PyFacts.
Import FloatFacts.

Lemma compare_float_zero (r : float) :
  compare (VFloat r) (VInt 0) = SFcompare (Prim2SF r) (S754_zero false).
Proof.
  cbn [compare]. unfold compare_float_int.
  destruct (Prim2SF r) as [ s | s | | s m e ]; try reflexivity.
  assert (Hp : 0 < 2 ^ e \/ e < 0).
    { destruct (Z.lt_ge_cases e 0); [right; assumption | left; apply Z.pow_pos_nonneg; lia]. }
  destruct (0 <=? e) eqn:E; [apply Z.leb_le in E | apply Z.leb_gt in E];
    destruct s; cbn [signed_mantissa cond_Zopp SFcompare]; f_equal.
  - apply Z.compare_lt_iff. nia.
  - apply Z.compare_gt_iff. nia.
Qed.

Lemma lt_zero (r : float) : lt (VFloat r) (VInt 0) = (r <? 0)%float.
Proof.
  unfold lt. rewrite compare_float_zero, ltb_spec. reflexivity.
Qed.

Lemma eq_zero (r : float) : eq (VFloat r) (VInt 0) = (r =? 0)%float.
Proof.
  unfold eq. rewrite compare_float_zero, eqb_spec. reflexivity.
Qed.

Lemma truthy_float (r : float) : truthy (VFloat r) = negb (r =? 0)%float.
Proof. unfold truthy, ne. rewrite eq_zero. reflexivity. Qed.

Lemma truediv_float (x y : float) :
  (y =? 0)%float = false -> truediv (VFloat x) (VFloat y) = Ok (VFloat (x / y)).
Proof. intros H. cbn [truediv to_float bind]. rewrite H. reflexivity. Qed.

Lemma truediv_two (g : float) : truediv (VFloat g) (VInt 2) = Ok (VFloat (g / 2)).
Proof. reflexivity. Qed.

(** [1 + r] is never zero unless [r < 0]: the division in
    [calc_from_included] cannot raise. *)
Lemma one_plus_nonzero (r : float) :
  (r <? 0)%float = false -> (1 + r =? 0)%float = false.
Proof.
  rewrite ltb_spec, eqb_zero, add_spec, Prim2SF_one, Prim2SF_zero.
  pose proof (Prim2SF_valid r) as Hv.
  destruct (Prim2SF r) as [ s | s | | s m e ]; try reflexivity.
  destruct s; [discriminate | ]. intros _.
  pose proof (valid_exponent _ _ _ Hv) as He.
  destruct (SFadd_pos_not_zero 4503599627370496 m (-52) e) as [(m' & e' & H) | H];
    try lia; unfold SF64add; rewrite H; reflexivity.
Qed.

End PyFacts.

(** ** The conversion functions: what they return *)

Import FloatFacts PyFacts.

Lemma truthy_opt_false (rounding : option float) :
  truthy_opt (rounding_arg rounding) = false ->
  rounding = None \/ exists r, rounding = Some r /\ truthy (VFloat r) = false.
Proof.
  destruct rounding as [ r | ]; [right; exists r; split; [reflexivity | assumption] | left; reflexivity].
Qed.

(** The result of [calc_from_included] when the rounding step is skipped. *)
Lemma calc_from_included_plain (total rate : float) (rounding : option float) :
  truthy_opt (rounding_arg rounding) = false ->
  let rate' := if (rate <? 0)%float then 0%float else rate in
  let base := (total / (1 + rate'))%float in
  let gst := (total - base)%float in
  calc_from_included (VFloat total) (VFloat rate) (rounding_arg rounding)
  = Ok (VFloat base, VFloat gst, VFloat (gst / 2), VFloat (gst / 2), VFloat total).
Proof.
  intros H. cbv zeta. unfold calc_from_included. rewrite lt_zero.
  assert (Hd : add (VInt 1) (if (rate <? 0)%float then VInt 0 else VFloat rate)
               = Ok (if (rate <? 0)%float then VInt 1 else VFloat (1 + rate))).
  { destruct (rate <? 0)%float; reflexivity. }
  rewrite Hd. cbn [bind].
  assert (Hq : truediv (VFloat total) (if (rate <? 0)%float then VInt 1 else VFloat (1 + rate))
               = Ok (VFloat (total / (1 + (if (rate <? 0)%float then 0 else rate))))).
  { destruct (rate <? 0)%float eqn:E; [reflexivity | ].
    apply truediv_float, one_plus_nonzero, E. }
  rewrite Hq. cbn [bind sub to_float].
  destruct (truthy_opt_false rounding H) as [-> | (r & -> & Hr)]; cbn [rounding_arg option_map].
  - reflexivity.
  - rewrite Hr. reflexivity.
Qed.

(** The result of [calc_from_included] when the rounding step runs. *)
Lemma calc_from_included_rounded (total rate r : float) :
  truthy (VFloat r) = true ->
  let rate' := if (rate <? 0)%float then 0%float else rate in
  let base0 := (total / (1 + rate'))%float in
  let gst0 := (total - base0)%float in
  calc_from_included (VFloat total) (VFloat rate) (Some (VFloat r))
  = (base <- round_to (VFloat base0) (VFloat r) ;;
     gst <- round_to (VFloat gst0) (VFloat r) ;;
     cgst <- truediv gst (VInt 2) ;;
     Ok (base, gst, cgst, cgst, VFloat total)).
Proof.
  intros H. cbv zeta. unfold calc_from_included. rewrite lt_zero.
  assert (Hd : add (VInt 1) (if (rate <? 0)%float then VInt 0 else VFloat rate)
               = Ok (if (rate <? 0)%float then VInt 1 else VFloat (1 + rate))).
  { destruct (rate <? 0)%float; reflexivity. }
  rewrite Hd. cbn [bind].
  assert (Hq : truediv (VFloat total) (if (rate <? 0)%float then VInt 1 else VFloat (1 + rate))
               = Ok (VFloat (total / (1 + (if (rate <? 0)%float then 0 else rate))))).
  { destruct (rate <? 0)%float eqn:E; [reflexivity | ].
    apply truediv_float, one_plus_nonzero, E. }
  rewrite Hq. cbn [bind sub to_float]. rewrite H. unfold round_to.
  destruct (truediv (VFloat (total / (1 + (if (rate <? 0)%float then 0 else rate)))) (VFloat r))
    as [ qb | ]; cbn [bind]; [ | reflexivity].
  destruct (round qb) as [ nb | ]; cbn [bind]; [ | reflexivity].
  destruct (mul nb (VFloat r)) as [ b | ]; cbn [bind]; [ | reflexivity].
  match goal with |- context [truediv ?g (VFloat r)] =>
    destruct (truediv g (VFloat r)) as [ qg | ]; cbn [bind]; [ | reflexivity] end.
  destruct (round qg) as [ ng | ]; cbn [bind]; [ | reflexivity].
  destruct (mul ng (VFloat r)) as [ g | ]; cbn [bind]; [ | reflexivity].
  destruct (truediv g (VInt 2)); reflexivity.
Qed.

(** The result of [calc_from_excluded] when the rounding step is skipped. *)
Lemma calc_from_excluded_plain (base_price rate : float) (rounding : option float) :
  truthy_opt (rounding_arg rounding) = false ->
  let gst := (base_price * rate)%float in
  let total := (base_price + gst)%float in
  calc_from_excluded (VFloat base_price) (VFloat rate) (rounding_arg rounding)
  = Ok (VFloat total, VFloat gst, VFloat (gst / 2), VFloat (gst / 2), VFloat base_price).
Proof.
  intros H. cbv zeta. unfold calc_from_excluded. cbn [mul add to_float bind].
  destruct (truthy_opt_false rounding H) as [-> | (r & -> & Hr)]; cbn [rounding_arg option_map].
  - reflexivity.
  - rewrite Hr. reflexivity.
Qed.

(** The result of [calc_from_excluded] when the rounding step runs. *)
Lemma calc_from_excluded_rounded (base_price rate r : float) :
  truthy (VFloat r) = true ->
  let gst0 := (base_price * rate)%float in
  let total0 := (base_price + gst0)%float in
  calc_from_excluded (VFloat base_price) (VFloat rate) (Some (VFloat r))
  = (gst <- round_to (VFloat gst0) (VFloat r) ;;
     total <- round_to (VFloat total0) (VFloat r) ;;
     cgst <- truediv gst (VInt 2) ;;
     Ok (total, gst, cgst, cgst, VFloat base_price)).
Proof.
  intros H. cbv zeta. unfold calc_from_excluded. cbn [mul add to_float bind].
  rewrite H. unfold round_to.
  destruct (truediv (VFloat (base_price * rate)) (VFloat r)) as [ qg | ]; cbn [bind]; [ | reflexivity].
  destruct (round qg) as [ ng | ]; cbn [bind]; [ | reflexivity].
  destruct (mul ng (VFloat r)) as [ g | ]; cbn [bind]; [ | reflexivity].
  destruct (truediv (VFloat (base_price + base_price * rate)) (VFloat r)) as [ qt | ];
    cbn [bind]; [ | reflexivity].
  destruct (round qt) as [ nt | ]; cbn [bind]; [ | reflexivity].
  destruct (mul nt (VFloat r)) as [ t | ]; cbn [bind]; [ | reflexivity].
  destruct (truediv g (VInt 2)); reflexivity.
Qed.

Lemma calc_from_gst_amount_start (gst_amount rate : float) :
  (if ne (VFloat rate) (VInt 0) then truediv (VFloat gst_amount) (VFloat rate) else Ok (VInt 0))
  = Ok (gst_amount_base gst_amount rate) /\
  add (gst_amount_base gst_amount rate) (VFloat gst_amount)
  = Ok (gst_amount_total gst_amount rate).
Proof.
  unfold ne, gst_amount_base, gst_amount_total. rewrite eq_zero.
  destruct (rate =? 0)%float eqn:E; cbn [negb].
  - split; reflexivity.
  - rewrite truediv_float by exact E. split; reflexivity.
Qed.

(** The result of [calc_from_gst_amount] when the rounding step is skipped. *)
Lemma calc_from_gst_amount_plain (gst_amount rate : float) (rounding : option float) :
  truthy_opt (rounding_arg rounding) = false ->
  calc_from_gst_amount (VFloat gst_amount) (VFloat rate) (rounding_arg rounding)
  = Ok (gst_amount_base gst_amount rate, gst_amount_total gst_amount rate,
        VFloat (gst_amount / 2), VFloat (gst_amount / 2), VFloat gst_amount).
Proof.
  intros H. unfold calc_from_gst_amount.
  destruct (calc_from_gst_amount_start gst_amount rate) as [-> Ht]. cbn [bind].
  rewrite Ht. cbn [bind].
  destruct (truthy_opt_false rounding H) as [-> | (r & -> & Hr)]; cbn [rounding_arg option_map].
  - reflexivity.
  - rewrite Hr. reflexivity.
Qed.

(** The result of [calc_from_gst_amount] when the rounding step runs. *)
Lemma calc_from_gst_amount_rounded (gst_amount rate r : float) :
  truthy (VFloat r) = true ->
  calc_from_gst_amount (VFloat gst_amount) (VFloat rate) (Some (VFloat r))
  = (base <- round_to (gst_amount_base gst_amount rate) (VFloat r) ;;
     total <- round_to (gst_amount_total gst_amount rate) (VFloat r) ;;
     Ok (base, total, VFloat (gst_amount / 2), VFloat (gst_amount / 2), VFloat gst_amount)).
Proof.
  intros H. unfold calc_from_gst_amount.
  destruct (calc_from_gst_amount_start gst_amount rate) as [-> Ht]. cbn [bind].
  rewrite Ht. cbn [bind]. rewrite H. unfold round_to.
  destruct (truediv (gst_amount_base gst_amount rate) (VFloat r)) as [ qb | ];
    cbn [bind]; [ | reflexivity].
  destruct (round qb) as [ nb | ]; cbn [bind]; [ | reflexivity].
  destruct (mul nb (VFloat r)) as [ b | ]; cbn [bind]; [ | reflexivity].
  destruct (truediv (gst_amount_total gst_amount rate) (VFloat r)) as [ qt | ];
    cbn [bind]; [ | reflexivity].
  destruct (round qt) as [ nt | ]; cbn [bind]; [ | reflexivity].
  destruct (mul nt (VFloat r)) as [ t | ]; cbn [bind]; reflexivity.
Qed.

(** ** [round] is round-half-to-even *)

Lemma round_half_even_shift_spec (m k : Z) :
  0 <= k -> nearest_even m (2 ^ k) (round_half_even_shift m k).
Proof.
  intros Hk. unfold round_half_even_shift, nearest_even. cbv zeta.
  assert (Hd : 0 < 2 ^ k) by (apply Z.pow_pos_nonneg; lia).
  pose proof (Z.div_mod m (2 ^ k) ltac:(lia)) as Hdm.
  pose proof (Z.mod_pos_bound m (2 ^ k) Hd) as Hr.
  set (d := 2 ^ k) in *. set (q := m / d) in *. set (r := m mod d) in *.
  clearbody q r. clearbody d.
  destruct (Z.compare_spec (2 * r) d) as [C | C | C].
  - destruct (Z.even q) eqn:Ev.
    + split; [ | intros _; exact Ev]. replace (q * d - m) with (- r) by lia. lia.
    + split.
      * replace ((q + 1) * d - m) with (d - r) by lia. lia.
      * intros _. rewrite Z.even_add, Ev. reflexivity.
  - replace (q * d - m) with (- r) by lia. split; [lia | intros F; exfalso; lia].
  - replace ((q + 1) * d - m) with (d - r) by lia. split; [lia | intros F; exfalso; lia].
Qed.

Lemma nearest_even_opp (num den n : Z) :
  nearest_even num den n -> nearest_even (- num) den (- n).
Proof.
  unfold nearest_even.
  replace (- n * den - - num) with (- (n * den - num)) by lia.
  rewrite Z.abs_opp, Z.even_opp. trivial.
Qed.

Lemma nearest_even_exact (n : Z) : nearest_even n 1 n.
Proof. unfold nearest_even. replace (n * 1 - n) with 0 by lia. cbn. split; lia. Qed.

(** [round(x)] returns an int exactly for the finite floats, and then the
    nearest int, the even one on a tie. *)
Lemma round_float_spec (x : float) :
  match float_fraction x with
  | Some (num, den) =>
      0 < den /\ exists n, round_float x = Ok n /\ nearest_even num den n
  | None => exists e, round_float x = Raise e
  end.
Proof.
  unfold float_fraction, round_float.
  destruct (Prim2SF x) as [ s | s | | s m e ].
  - split; [lia | ]. exists 0. split; [reflexivity | apply nearest_even_exact].
  - eexists; reflexivity.
  - eexists; reflexivity.
  - destruct (0 <=? e) eqn:E.
    + split; [lia | ]. eexists. split; [reflexivity | apply nearest_even_exact].
    + apply Z.leb_gt in E. split; [apply Z.pow_pos_nonneg; lia | ].
      eexists. split; [reflexivity | ].
      destruct s; cbn [signed_mantissa cond_Zopp].
      * change (Z.neg m) with (- Zpos m). apply nearest_even_opp.
        apply round_half_even_shift_spec. lia.
      * apply round_half_even_shift_spec. lia.
Qed.

(** ** Halves, sums and the rounding step *)

Lemma eq_float_refl (g : float) : is_nan g = false -> eq (VFloat g) (VFloat g) = true.
Proof.
  unfold is_nan, eq. cbn [compare]. intros H.
  rewrite SFcompare_refl; [reflexivity | ].
  intros E. rewrite E in H. discriminate.
Qed.

(** The halves of [g], as the functions compute them, add up to [g]. *)
Lemma halves_sum (g : float) :
  is_nan g = false -> halves_exactly g = true ->
  exists sum, add (VFloat (g / 2)) (VFloat (g / 2)) = Ok sum /\ eq sum (VFloat g) = true.
Proof.
  intros Hn Hh. exists (VFloat (g / 2 + g / 2)). split; [reflexivity | ].
  rewrite half_twice by exact Hh. apply eq_float_refl, Hn.
Qed.

Lemma mul_float_r (a : value) (r : float) (v : value) :
  mul a (VFloat r) = Ok v -> exists f, v = VFloat f.
Proof.
  destruct a as [ z | x ]; cbn [mul to_float bind].
  - destruct (float_of_int z) as [ y | ]; cbn [bind]; intros H; inversion H; eauto.
  - intros H; inversion H; eauto.
Qed.

Lemma round_to_float (x : value) (r : float) (v : value) :
  round_to x (VFloat r) = Ok v -> exists f, v = VFloat f.
Proof.
  unfold round_to.
  destruct (truediv x (VFloat r)) as [ q | ]; cbn [bind]; [ | discriminate].
  destruct (round q) as [ n | ]; cbn [bind]; [ | discriminate].
  apply mul_float_r.
Qed.

(** With a non-zero increment the rounding step never divides by zero. *)
Lemma round_to_no_zero_division (x : value) (r : float) :
  truthy (VFloat r) = true -> round_to x (VFloat r) <> Raise ZeroDivisionError.
Proof.
  rewrite truthy_float, negb_true_iff. intros H. unfold round_to.
  assert (Hq : truediv x (VFloat r) = Raise OverflowError \/
               exists f, truediv x (VFloat r) = Ok (VFloat f)).
  { destruct x as [ z | f ]; cbn [truediv to_float bind].
    - unfold float_of_int.
      destruct (binary_normalize prec emax z 0 false); cbn [bind]; rewrite ?H; eauto.
    - rewrite H. eauto. }
  destruct Hq as [-> | (f & ->)]; cbn [bind]; [discriminate | ].
  assert (Hm : forall n, mul (VInt n) (VFloat r) <> Raise ZeroDivisionError).
  { intros n. cbn [mul to_float]. unfold float_of_int.
    destruct (binary_normalize prec emax n 0 false); cbn [bind]; discriminate. }
  cbn [round]. unfold round_float.
  destruct (Prim2SF f) as [ s | s | | s m e ]; cbn [bind]; try discriminate; try apply Hm.
  destruct (0 <=? e); cbn [bind]; apply Hm.
Qed.

(** [0 + g == g] for every float but a NaN. *)
Lemma zero_plus (g : float) :
  is_nan g = false -> eq (VFloat (0 + g)) (VFloat g) = true.
Proof.
  unfold is_nan, eq. cbn [compare]. rewrite add_spec, Prim2SF_zero. unfold SF64add.
  destruct (Prim2SF g) as [ [ | ] | [ | ] | | [ | ] m e ]; cbn [SFadd SFcompare];
    try reflexivity; try discriminate;
    intros _; rewrite Z.compare_refl, Pos.compare_cont_refl; reflexivity.
Qed.

(** ** The ledger *)

Lemma add_history_length (e : entry) (st : session_state) :
  (ledger_length (add_history e st) <= 10)%nat.
Proof.
  unfold ledger_length, add_history. cbn [history]. apply firstn_le_length.
Qed.

Lemma apply_op_length (op : ledger_op) (st : session_state) :
  (ledger_length (apply_op op st) <= 10)%nat.
Proof.
  destruct op as [ e | ]; cbn [apply_op].
  - apply add_history_length.
  - cbn. lia.
Qed.

Lemma run_ops_length (ops : list ledger_op) : forall st,
  (ledger_length st <= 10)%nat -> (ledger_length (run_ops ops st) <= 10)%nat.
Proof.
  unfold run_ops.
  induction ops as [ | op ops IH ]; intros st H; cbn [fold_left].
  - exact H.
  - apply IH, apply_op_length.
Qed.

Lemma on_calculate_excl_state (str_float : float -> string) (now : string) (rate_pct : Z)
    (rounding : option value) (x : value) (st st' : session_state) (ui : list ui_call) :
  on_calculate_excl str_float now rate_pct rounding x st = Ok (st', ui) ->
  exists e, st' = add_history e st.
Proof.
  unfold on_calculate_excl.
  destruct (truediv (VInt rate_pct) (VFloat 100)) as [ rate | ]; cbn [bind]; [ | discriminate].
  destruct (calc_from_excluded x rate rounding) as [ [[[[t g] c] s] b] | ];
    cbn [bind]; [ | discriminate].
  destruct (format_2f t); cbn [bind]; [ | discriminate].
  destruct (format_2f g); cbn [bind]; [ | discriminate].
  destruct (split_line str_float rate_pct c s); cbn [bind]; [ | discriminate].
  intros H. inversion H. eauto.
Qed.

Lemma on_calculate_incl_state (str_float : float -> string) (now : string) (rate_pct : Z)
    (rounding : option value) (x : value) (st st' : session_state) (ui : list ui_call) :
  on_calculate_incl str_float now rate_pct rounding x st = Ok (st', ui) ->
  exists e, st' = add_history e st.
Proof.
  unfold on_calculate_incl.
  destruct (truediv (VInt rate_pct) (VFloat 100)) as [ rate | ]; cbn [bind]; [ | discriminate].
  destruct (calc_from_included x rate rounding) as [ [[[[b g] c] s] t] | ];
    cbn [bind]; [ | discriminate].
  destruct (format_2f b); cbn [bind]; [ | discriminate].
  destruct (format_2f g); cbn [bind]; [ | discriminate].
  destruct (split_line str_float rate_pct c s); cbn [bind]; [ | discriminate].
  intros H. inversion H. eauto.
Qed.

Lemma on_calculate_from_gst_state (str_float : float -> string) (now : string) (rate_pct : Z)
    (rounding : option value) (x : value) (st st' : session_state) (ui : list ui_call) :
  on_calculate_from_gst str_float now rate_pct rounding x st = Ok (st', ui) ->
  st' = st \/ exists e, st' = add_history e st.
Proof.
  unfold on_calculate_from_gst.
  destruct (truediv (VInt rate_pct) (VFloat 100)) as [ rate | ]; cbn [bind]; [ | discriminate].
  destruct (eq rate (VInt 0)).
  - intros H. inversion H. left. reflexivity.
  - destruct (calc_from_gst_amount x rate rounding) as [ [[[[b t] c] s] g] | ];
      cbn [bind]; [ | discriminate].
    destruct (format_2f b); cbn [bind]; [ | discriminate].
    destruct (format_2f t); cbn [bind]; [ | discriminate].
    destruct (split_line str_float rate_pct c s); cbn [bind]; [ | discriminate].
    intros H. inversion H. eauto.
Qed.

Lemma step_length (str_float : float -> string) (st : session_state) (ev : event) :
  (ledger_length st <= 10)%nat -> (ledger_length (step str_float st ev) <= 10)%nat.
Proof.
  intros Hst. destruct ev as [ now p r x | now p r x | now p r x | ]; cbn [step].
  - destruct (on_calculate_excl str_float now p r x st) as [ [st' ui] | ] eqn:E; [ | exact Hst].
    destruct (on_calculate_excl_state _ _ _ _ _ _ _ _ E) as (e & ->). apply add_history_length.
  - destruct (on_calculate_incl str_float now p r x st) as [ [st' ui] | ] eqn:E; [ | exact Hst].
    destruct (on_calculate_incl_state _ _ _ _ _ _ _ _ E) as (e & ->). apply add_history_length.
  - destruct (on_calculate_from_gst str_float now p r x st) as [ [st' ui] | ] eqn:E; [ | exact Hst].
    destruct (on_calculate_from_gst_state _ _ _ _ _ _ _ _ E) as [-> | (e & ->)];
      [exact Hst | apply add_history_length].
  - cbn. lia.
Qed.

Lemma run_events_length (str_float : float -> string) (evs : list event) : forall st,
  (ledger_length st <= 10)%nat -> (ledger_length (run_events str_float evs st) <= 10)%nat.
Proof.
  unfold run_events.
  induction evs as [ | ev evs IH ]; intros st H; cbn [fold_left].
  - exact H.
  - apply IH, step_length, H.
Qed.

(** ** The claims on the conversion functions *)

(** C1. With rounding disabled ([None], or an increment of zero),
    [calc_from_excluded] returns the GST [base * rate], the total
    [base + gst], and the base as it was given, not rounded; this holds for
    every base and rate, so for the non-negative ones. *)
Theorem calc_from_excluded_no_rounding (base_price rate : float) (rounding : option float) :
  truthy_opt (rounding_arg rounding) = false ->
  let gst := (base_price * rate)%float in
  let total := (base_price + gst)%float in
  calc_from_excluded (VFloat base_price) (VFloat rate) (rounding_arg rounding)
  = Ok (VFloat total, VFloat gst, VFloat (gst / 2), VFloat (gst / 2), VFloat base_price).
Proof. apply calc_from_excluded_plain. Qed.

Lemma calc_from_excluded_no_rounding_witness :
  truthy_opt (rounding_arg None) = false /\
  calc_from_excluded (VFloat 100) (VFloat 0.18) (rounding_arg None)
  = Ok (VFloat 118, VFloat 18, VFloat 9, VFloat 9, VFloat 100).
Proof.
  split; [reflexivity | ].
  exact (calc_from_excluded_no_rounding 100 0.18 None eq_refl).
Defined.

(** C6. [calc_from_included] replaces a negative rate by zero; with
    rounding disabled it then returns the base [total / (1 + rate)] and the
    GST [total - base], and the division never raises. *)
Theorem calc_from_included_no_rounding (total_price rate : float) (rounding : option float) :
  truthy_opt (rounding_arg rounding) = false ->
  let rate' := if (rate <? 0)%float then 0%float else rate in
  let base := (total_price / (1 + rate'))%float in
  let gst := (total_price - base)%float in
  lt (VFloat rate) (VInt 0) = (rate <? 0)%float /\
  calc_from_included (VFloat total_price) (VFloat rate) (rounding_arg rounding)
  = Ok (VFloat base, VFloat gst, VFloat (gst / 2), VFloat (gst / 2), VFloat total_price).
Proof.
  intros H. cbv zeta. split; [apply lt_zero | apply calc_from_included_plain, H].
Qed.

Lemma calc_from_included_no_rounding_witness :
  truthy_opt (rounding_arg (Some 0%float)) = false /\
  calc_from_included (VFloat 118) (VFloat (-0.18)) (rounding_arg (Some 0%float))
  = Ok (VFloat 118, VFloat 0, VFloat 0, VFloat 0, VFloat 118).
Proof.
  split; [reflexivity | ].
  exact (proj2 (calc_from_included_no_rounding 118 (-0.18) (Some 0%float) eq_refl)).
Defined.

(** C9. With rounding active, [calc_from_included] rounds the base and the
    GST each on its own and returns the total it was given, neither rounded
    nor recomputed; the rounded base and GST need not add up to it. *)
Theorem calc_from_included_total_not_rerounded :
  (forall total_price rate r : float,
     truthy (VFloat r) = true ->
     let rate' := if (rate <? 0)%float then 0%float else rate in
     let base0 := (total_price / (1 + rate'))%float in
     let gst0 := (total_price - base0)%float in
     calc_from_included (VFloat total_price) (VFloat rate) (Some (VFloat r))
     = (base <- round_to (VFloat base0) (VFloat r) ;;
        gst <- round_to (VFloat gst0) (VFloat r) ;;
        cgst <- truediv gst (VInt 2) ;;
        Ok (base, gst, cgst, cgst, VFloat total_price))) /\
  (calc_from_included (VFloat 100.4) (VFloat 0.18) (Some (VFloat 1))
   = Ok (VFloat 85, VFloat 15, VFloat 7.5, VFloat 7.5, VFloat 100.4) /\
   add (VFloat 85) (VFloat 15) = Ok (VFloat 100) /\
   eq (VFloat 100) (VFloat 100.4) = false).
Proof.
  split; [exact calc_from_included_rounded | ].
  repeat split; reflexivity.
Qed.

Lemma calc_from_included_total_not_rerounded_witness :
  truthy (VFloat 0.5) = true /\
  calc_from_included (VFloat 118) (VFloat 0.18) (Some (VFloat 0.5))
  = Ok (VFloat 100, VFloat 18, VFloat 9, VFloat 9, VFloat 118).
Proof.
  split; [reflexivity | ].
  exact (proj1 calc_from_included_total_not_rerounded 118 0.18 0.5 eq_refl)%float.
Defined.

(** C7. The rounding policy.  A positive increment is a non-zero one, and
    for every non-zero increment [r] each of the three functions replaces
    its two rounded quantities [x] by [round(x / r) * r]; [round] takes a
    finite float to the nearest int, the even one on a tie, and raises on
    the others; without an increment, or with the increment zero, nothing
    is rounded; and [calc_from_excluded(100, 0.18, 0.5)] has the GST [18.0]
    and the total [118.0]. *)
Theorem rounding_policy :
  (forall r : float, lt (VInt 0) (VFloat r) = true -> truthy (VFloat r) = true) /\
  (forall x rate r : float,
     truthy (VFloat r) = true ->
     calc_from_excluded (VFloat x) (VFloat rate) (Some (VFloat r))
     = (gst <- round_to (VFloat (x * rate)) (VFloat r) ;;
        total <- round_to (VFloat (x + x * rate)) (VFloat r) ;;
        cgst <- truediv gst (VInt 2) ;;
        Ok (total, gst, cgst, cgst, VFloat x)) /\
     calc_from_included (VFloat x) (VFloat rate) (Some (VFloat r))
     = (let base0 := (x / (1 + (if (rate <? 0)%float then 0 else rate)))%float in
        base <- round_to (VFloat base0) (VFloat r) ;;
        gst <- round_to (VFloat (x - base0)) (VFloat r) ;;
        cgst <- truediv gst (VInt 2) ;;
        Ok (base, gst, cgst, cgst, VFloat x)) /\
     calc_from_gst_amount (VFloat x) (VFloat rate) (Some (VFloat r))
     = (base <- round_to (gst_amount_base x rate) (VFloat r) ;;
        total <- round_to (gst_amount_total x rate) (VFloat r) ;;
        Ok (base, total, VFloat (x / 2), VFloat (x / 2), VFloat x))) /\
  (forall q : float,
     match float_fraction q with
     | Some (num, den) =>
         (0 < den)%Z /\ exists n, round (VFloat q) = Ok (VInt n) /\ nearest_even num den n
     | None => exists e, round (VFloat q) = Raise e
     end) /\
  (forall (x rate : float) (rounding : option float),
     truthy_opt (rounding_arg rounding) = false ->
     calc_from_excluded (VFloat x) (VFloat rate) (rounding_arg rounding)
     = Ok (VFloat (x + x * rate), VFloat (x * rate),
           VFloat (x * rate / 2), VFloat (x * rate / 2), VFloat x) /\
     calc_from_included (VFloat x) (VFloat rate) (rounding_arg rounding)
     = (let base0 := (x / (1 + (if (rate <? 0)%float then 0 else rate)))%float in
        Ok (VFloat base0, VFloat (x - base0),
            VFloat ((x - base0) / 2), VFloat ((x - base0) / 2), VFloat x)) /\
     calc_from_gst_amount (VFloat x) (VFloat rate) (rounding_arg rounding)
     = Ok (gst_amount_base x rate, gst_amount_total x rate,
           VFloat (x / 2), VFloat (x / 2), VFloat x)) /\
  truthy_opt None = false /\
  truthy_opt (Some (VFloat 0)) = false /\
  truthy_opt (Some (VInt 0)) = false /\
  calc_from_excluded (VFloat 100) (VFloat 0.18) (Some (VFloat 0.5))
  = Ok (VFloat 118, VFloat 18, VFloat 9, VFloat 9, VFloat 100).
Proof.
  split; [ | split; [ | split; [ | split; [ | repeat split; reflexivity ]]]].
  - intros r. rewrite truthy_float, eqb_zero. unfold lt.
    cbn [compare]. pose proof (compare_float_zero r) as Hc. cbn [compare] in Hc.
    rewrite Hc.
    destruct (Prim2SF r) as [ s | s | | s m e ]; cbn; try reflexivity; discriminate.
  - intros x rate r H. split; [ | split].
    + apply calc_from_excluded_rounded, H.
    + apply (calc_from_included_rounded x rate r H).
    + apply calc_from_gst_amount_rounded, H.
  - intros q. pose proof (round_float_spec q) as H. cbn [round].
    destruct (float_fraction q) as [ [num den] | ].
    + destruct H as (Hd & n & Hn & Hne). split; [exact Hd | ].
      exists n. rewrite Hn. split; [reflexivity | exact Hne].
    + destruct H as (e & He). exists e. rewrite He. reflexivity.
  - intros x rate rounding H. split; [ | split].
    + apply calc_from_excluded_plain, H.
    + apply (calc_from_included_plain x rate rounding H).
    + apply calc_from_gst_amount_plain, H.
Qed.

Lemma rounding_policy_witness :
  lt (VInt 0) (VFloat 0.5) = true /\
  truthy (VFloat 0.5) = true /\
  calc_from_gst_amount (VFloat 18.3) (VFloat 0.18) (Some (VFloat 0.5))
  = Ok (VFloat 101.5, VFloat 120, VFloat 9.15, VFloat 9.15, VFloat 18.3) /\
  calc_from_gst_amount (VFloat 18.3) (VFloat 0.18) (rounding_arg None)
  = Ok (VFloat (18.3 / 0.18), VFloat (18.3 / 0.18 + 18.3), VFloat 9.15, VFloat 9.15, VFloat 18.3).
Proof.
  split; [reflexivity | ].
  split; [exact (proj1 rounding_policy 0.5%float eq_refl) | ].
  split.
  - exact (proj2 (proj2 (proj1 (proj2 rounding_policy) 18.3 0.18 0.5 eq_refl)))%float.
  - exact (proj2 (proj2 (proj1 (proj2 (proj2 (proj2 rounding_policy)))
                           18.3 0.18 None eq_refl)))%float.
Defined.

(** C3, as stated, fails: the least subnormal is a valid base, its GST at
    the rate [1.0] is the least subnormal again, and both halves round to
    zero. *)
Lemma cgst_sgst_sum_least_subnormal :
  let tiny := 5e-324%float in
  lt (VFloat tiny) (VInt 0) = false /\ lt (VFloat 1) (VInt 0) = false /\
  exists cr cgst sgst gst,
    convert FromExcluded tiny 1 None = Ok cr /\
    cr_cgst cr = VFloat cgst /\ cr_sgst cr = VFloat sgst /\ cr_gst cr = VFloat gst /\
    cgst = (gst / 2)%float /\ sgst = (gst / 2)%float /\
    add (cr_cgst cr) (cr_sgst cr) = Ok (VFloat 0) /\
    eq (VFloat 0) (cr_gst cr) = false.
Proof.
  cbv zeta. split; [reflexivity | split; [reflexivity | ]].
  eexists. exists 0%float, 0%float, 5e-324%float.
  split; [reflexivity | ]. cbn [cr_cgst cr_sgst cr_gst].
  repeat split; reflexivity.
Qed.

(** C3, amended.  Whenever one of the three operations returns, its CGST and
    SGST are each the returned GST divided by two in binary64; their sum
    [==] the GST when the GST is not a NaN and not an odd multiple of the
    least subnormal [2 ^ -1074].  With rounding disabled the operations
    always return. *)
Theorem cgst_sgst_halves (op : operation) (x rate : float) (rounding : option float) :
  (forall cr, convert op x rate rounding = Ok cr ->
     exists g,
       cr_gst cr = VFloat g /\
       cr_cgst cr = VFloat (g / 2) /\
       cr_sgst cr = VFloat (g / 2) /\
       (is_nan g = false -> halves_exactly g = true ->
        exists sum, add (cr_cgst cr) (cr_sgst cr) = Ok sum /\
                    eq sum (cr_gst cr) = true)) /\
  (truthy_opt (rounding_arg rounding) = false ->
   exists cr, convert op x rate rounding = Ok cr).
Proof.
  assert (Hg : forall g, is_nan g = false -> halves_exactly g = true ->
                 exists sum, add (VFloat (g / 2)) (VFloat (g / 2)) = Ok sum /\
                             eq sum (VFloat g) = true) by exact halves_sum.
  assert (Hplain : truthy_opt (rounding_arg rounding) = false ->
            exists g b t, convert op x rate rounding
              = Ok {| cr_base := b; cr_gst := VFloat g; cr_cgst := VFloat (g / 2);
                      cr_sgst := VFloat (g / 2); cr_total := t |}).
  { intros H. destruct op; cbn [convert].
    - rewrite (calc_from_excluded_plain x rate rounding H). cbn [bind]. eauto.
    - rewrite (calc_from_included_plain x rate rounding H). cbn [bind]. eauto.
    - rewrite (calc_from_gst_amount_plain x rate rounding H). cbn [bind]. eauto. }
  split.
  - intros cr Hcr.
    assert (Hshape : exists g b t,
              cr = {| cr_base := b; cr_gst := VFloat g; cr_cgst := VFloat (g / 2);
                      cr_sgst := VFloat (g / 2); cr_total := t |}).
    { destruct (truthy_opt (rounding_arg rounding)) eqn:Ht.
      - destruct rounding as [ r | ]; [ | discriminate Ht].
        cbn [rounding_arg option_map truthy_opt] in Ht, Hcr.
        destruct op; cbn [convert rounding_arg option_map] in Hcr.
        + rewrite (calc_from_excluded_rounded x rate r Ht) in Hcr.
          destruct (round_to (VFloat (x * rate)) (VFloat r)) as [ g | ] eqn:Eg;
            cbn [bind] in Hcr; [ | discriminate Hcr].
          destruct (round_to_float _ _ _ Eg) as (f & ->).
          destruct (round_to (VFloat (x + x * rate)) (VFloat r)) as [ t | ];
            cbn [bind] in Hcr; [ | discriminate Hcr].
          rewrite truediv_two in Hcr. cbn [bind] in Hcr. inversion Hcr. eauto.
        + rewrite (calc_from_included_rounded x rate r Ht) in Hcr.
          match type of Hcr with context [bind (round_to ?a ?b)] =>
            destruct (round_to a b) as [ bs | ]; cbn [bind] in Hcr; [ | discriminate Hcr] end.
          match type of Hcr with context [bind (round_to ?a ?b)] =>
            destruct (round_to a b) as [ g | ] eqn:Eg; cbn [bind] in Hcr; [ | discriminate Hcr] end.
          destruct (round_to_float _ _ _ Eg) as (f & ->).
          rewrite truediv_two in Hcr. cbn [bind] in Hcr. inversion Hcr. eauto.
        + rewrite (calc_from_gst_amount_rounded x rate r Ht) in Hcr.
          destruct (round_to (gst_amount_base x rate) (VFloat r)) as [ bs | ];
            cbn [bind] in Hcr; [ | discriminate Hcr].
          destruct (round_to (gst_amount_total x rate) (VFloat r)) as [ t | ];
            cbn [bind] in Hcr; [ | discriminate Hcr].
          inversion Hcr. eauto.
      - destruct (Hplain eq_refl) as (g & b & t & E). rewrite E in Hcr.
        inversion Hcr. eauto. }
    destruct Hshape as (g & b & t & ->). cbn [cr_gst cr_cgst cr_sgst].
    exists g. repeat split. apply Hg.
  - intros H. destruct (Hplain H) as (g & b & t & E). eauto.
Qed.

Lemma cgst_sgst_halves_witness :
  convert FromExcluded 100 0.18 (Some 0.5%float)
  = Ok {| cr_base := VFloat 100; cr_gst := VFloat 18; cr_cgst := VFloat 9;
          cr_sgst := VFloat 9; cr_total := VFloat 118 |} /\
  is_nan 18 = false /\ halves_exactly 18 = true /\
  exists sum, add (VFloat 9) (VFloat 9) = Ok sum /\ eq sum (VFloat 18) = true.
Proof.
  split; [reflexivity | split; [reflexivity | split; [reflexivity | ]]].
  destruct (proj1 (cgst_sgst_halves FromExcluded 100 0.18 (Some 0.5%float)) _ eq_refl)
    as (g & Hg & _ & _ & Hs).
  cbn [cr_gst cr_cgst cr_sgst] in Hg, Hs. injection Hg as <-.
  apply Hs; reflexivity.
Defined.

(** C10, as stated, fails for the total, and for "never raises", once
    rounding is active: the total is rounded like any other, and [round]
    raises on a quotient that overflowed. *)
Lemma calc_from_gst_amount_zero_rate_rounded :
  eq (VFloat 0) (VInt 0) = true /\
  calc_from_gst_amount (VFloat 18.3) (VFloat 0) (Some (VFloat 1))
  = Ok (VFloat 0, VFloat 18, VFloat 9.15, VFloat 9.15, VFloat 18.3) /\
  eq (VFloat 18) (VFloat 18.3) = false /\
  calc_from_gst_amount (VFloat 1e308) (VFloat 0) (Some (VFloat 0.5))
  = Raise OverflowError.
Proof. repeat split; reflexivity. Qed.

(** C10, amended.  On [rate == 0] [calc_from_gst_amount] skips the division
    and never raises [ZeroDivisionError].  With rounding disabled it raises
    nothing and returns the base [0] and the total [0 + gst_amount], which
    [==] the GST amount unless that is a NaN.  With rounding active the base
    and the total are [round(0 / r) * r] and
    [round((0 + gst_amount) / r) * r]. *)
Theorem calc_from_gst_amount_zero_rate (gst_amount rate : float) :
  eq (VFloat rate) (VInt 0) = true ->
  (forall rounding : option float,
     truthy_opt (rounding_arg rounding) = false ->
     calc_from_gst_amount (VFloat gst_amount) (VFloat rate) (rounding_arg rounding)
     = Ok (VInt 0, VFloat (0 + gst_amount),
           VFloat (gst_amount / 2), VFloat (gst_amount / 2), VFloat gst_amount)) /\
  (is_nan gst_amount = false ->
   eq (VFloat (0 + gst_amount)) (VFloat gst_amount) = true) /\
  (forall r : float,
     truthy (VFloat r) = true ->
     calc_from_gst_amount (VFloat gst_amount) (VFloat rate) (Some (VFloat r))
     = (base <- round_to (VInt 0) (VFloat r) ;;
        total <- round_to (VFloat (0 + gst_amount)) (VFloat r) ;;
        Ok (base, total, VFloat (gst_amount / 2), VFloat (gst_amount / 2),
            VFloat gst_amount))) /\
  (forall rounding : option float,
     calc_from_gst_amount (VFloat gst_amount) (VFloat rate) (rounding_arg rounding)
     <> Raise ZeroDivisionError).
Proof.
  rewrite eq_zero. intros Hz.
  assert (Hb : gst_amount_base gst_amount rate = VInt 0)
    by (unfold gst_amount_base; rewrite Hz; reflexivity).
  assert (Ht : gst_amount_total gst_amount rate = VFloat (0 + gst_amount))
    by (unfold gst_amount_total; rewrite Hz; reflexivity).
  assert (Hplain : forall rounding : option float,
            truthy_opt (rounding_arg rounding) = false ->
            calc_from_gst_amount (VFloat gst_amount) (VFloat rate) (rounding_arg rounding)
            = Ok (VInt 0, VFloat (0 + gst_amount),
                  VFloat (gst_amount / 2), VFloat (gst_amount / 2), VFloat gst_amount)).
  { intros rounding H. rewrite (calc_from_gst_amount_plain _ _ _ H), Hb, Ht. reflexivity. }
  assert (Hround : forall r : float,
            truthy (VFloat r) = true ->
            calc_from_gst_amount (VFloat gst_amount) (VFloat rate) (Some (VFloat r))
            = (base <- round_to (VInt 0) (VFloat r) ;;
               total <- round_to (VFloat (0 + gst_amount)) (VFloat r) ;;
               Ok (base, total, VFloat (gst_amount / 2), VFloat (gst_amount / 2),
                   VFloat gst_amount))).
  { intros r H. rewrite (calc_from_gst_amount_rounded _ _ _ H), Hb, Ht. reflexivity. }
  split; [exact Hplain | split; [apply zero_plus | split; [exact Hround | ]]].
  intros rounding.
  destruct (truthy_opt (rounding_arg rounding)) eqn:E.
  - destruct rounding as [ r | ]; [ | discriminate E].
    cbn [rounding_arg option_map truthy_opt] in E |- *. rewrite (Hround r E).
    pose proof (round_to_no_zero_division (VInt 0) r E) as H1.
    pose proof (round_to_no_zero_division (VFloat (0 + gst_amount)) r E) as H2.
    destruct (round_to (VInt 0) (VFloat r)) as [ b | e1 ]; cbn [bind];
      [ | intros F; apply H1; congruence].
    destruct (round_to (VFloat (0 + gst_amount)) (VFloat r)) as [ t | e2 ]; cbn [bind];
      [discriminate | intros F; apply H2; congruence].
  - rewrite (Hplain rounding E). discriminate.
Qed.

Lemma calc_from_gst_amount_zero_rate_witness :
  eq (VFloat 0) (VInt 0) = true /\
  truthy_opt (rounding_arg None) = false /\
  calc_from_gst_amount (VFloat 18) (VFloat 0) (rounding_arg None)
  = Ok (VInt 0, VFloat 18, VFloat 9, VFloat 9, VFloat 18).
Proof.
  split; [reflexivity | split; [reflexivity | ]].
  exact (proj1 (calc_from_gst_amount_zero_rate 18 0 eq_refl) None eq_refl).
Defined.

(** ** The claims on the page and on the ledger *)

(** C2, as stated, fails: called with [rate == 0], [calc_from_gst_amount]
    returns a result, with the base [0], and raises nothing. *)
Lemma calc_from_gst_amount_zero_rate_returns :
  eq (VFloat 0) (VInt 0) = true /\
  calc_from_gst_amount (VFloat 18) (VFloat 0) None
  = Ok (VInt 0, VFloat 18, VFloat 9, VFloat 9, VFloat 18) /\
  forall e, calc_from_gst_amount (VFloat 18) (VFloat 0) None <> Raise e.
Proof. repeat split; try reflexivity. intros e. discriminate. Qed.

(** C2, amended.  It is the handler of "Calculate from GST amount" that
    rejects [rate == 0]: it shows the error message, does not call
    [calc_from_gst_amount] for a result, and leaves the history as it was. *)
Theorem on_calculate_from_gst_rejects_zero_rate
    (str_float : float -> string) (now : string) (rate_pct : Z)
    (rounding : option value) (gst_input : value) (st : session_state) (rate : value) :
  truediv (VInt rate_pct) (VFloat 100) = Ok rate ->
  eq rate (VInt 0) = true ->
  on_calculate_from_gst str_float now rate_pct rounding gst_input st
  = Ok (st, [st_error "GST rate must be > 0 for Reverse calculation."]).
Proof.
  intros Hr Hz. unfold on_calculate_from_gst. rewrite Hr. cbn [bind]. rewrite Hz.
  reflexivity.
Qed.

Lemma on_calculate_from_gst_rejects_zero_rate_witness :
  truediv (VInt 0) (VFloat 100) = Ok (VFloat 0) /\
  eq (VFloat 0) (VInt 0) = true /\
  on_calculate_from_gst (fun _ => EmptyString) "2024-01-01 00:00:00" 0 None (VFloat 18)
    new_session
  = Ok (new_session, [st_error "GST rate must be > 0 for Reverse calculation."]).
Proof.
  split; [reflexivity | split; [reflexivity | ]].
  exact (on_calculate_from_gst_rejects_zero_rate (fun _ => EmptyString)
           "2024-01-01 00:00:00" 0 None (VFloat 18) new_session (VFloat 0)
           eq_refl eq_refl).
Defined.

(** C4. After [add_history], and after clearing, the ledger has at most 10
    entries, from whatever state; so it has in every state a session
    reaches, by these actions or by the clicks of the page; and eleven
    calls of [add_history] leave exactly the last ten entries, the most
    recent first. *)
Theorem history_bounded :
  (forall (op : ledger_op) (st : session_state),
     (ledger_length (apply_op op st) <= 10)%nat) /\
  (forall ops : list ledger_op,
     (ledger_length (run_ops ops new_session) <= 10)%nat) /\
  (forall (str_float : float -> string) (evs : list event),
     (ledger_length (run_events str_float evs new_session) <= 10)%nat) /\
  (forall (st : session_state) (e1 e2 e3 e4 e5 e6 e7 e8 e9 e10 e11 : entry),
     let st' :=
       add_history e11 (add_history e10 (add_history e9 (add_history e8
         (add_history e7 (add_history e6 (add_history e5 (add_history e4
           (add_history e3 (add_history e2 (add_history e1 st)))))))))) in
     history st' = Some [e11; e10; e9; e8; e7; e6; e5; e4; e3; e2] /\
     ledger_length st' = 10%nat).
Proof.
  split; [exact apply_op_length | split; [ | split]].
  - intros ops. apply run_ops_length. cbn. lia.
  - intros str_float evs. apply run_events_length. cbn. lia.
  - intros st e1 e2 e3 e4 e5 e6 e7 e8 e9 e10 e11. cbv zeta.
    unfold ledger_length, add_history. cbn [history firstn]. split; reflexivity.
Qed.

(** C8. Clearing leaves a ledger of length 0, also a non-empty one; on a
    ledger of length 0, unset or empty, so also after clearing,
    [history_to_csv] and [history_to_txt] return [None] and raise nothing. *)
Theorem empty_history_exports (DataFrame_to_csv : list entry -> string) :
  (forall st, ledger_length (clear_history st) = 0%nat) /\
  (forall st, ledger_length st = 0%nat ->
     history_to_csv DataFrame_to_csv st = None /\ history_to_txt st = Ok None) /\
  (forall st,
     history_to_csv DataFrame_to_csv (clear_history st) = None /\
     history_to_txt (clear_history st) = Ok None).
Proof.
  split; [reflexivity | split].
  - intros [[ [ | e h ] | ]]; cbn; intros H; try discriminate H; split; reflexivity.
  - intros st. split; reflexivity.
Qed.

(** C5, as stated, fails where the total overflows: the base that comes
    back is an infinity, at an infinite distance from the base. *)
Lemma round_trip_overflow :
  let base := 1.7e308%float in
  let rate := 0.18%float in
  le (VInt 0) (VFloat base) = true /\ le (VInt 0) (VFloat rate) = true /\
  calc_from_excluded (VFloat base) (VFloat rate) None
  = Ok (VFloat infinity, VFloat (base * rate), VFloat (base * rate / 2),
        VFloat (base * rate / 2), VFloat base) /\
  calc_from_included (VFloat infinity) (VFloat rate) None
  = Ok (VFloat infinity, VFloat nan, VFloat nan, VFloat nan, VFloat infinity) /\
  is_finite infinity = false /\
  sub (VFloat infinity) (VFloat base) = Ok (VFloat infinity).
Proof. cbv zeta. repeat split; reflexivity. Qed.

(** ** Scenarios *)

Example from_gst_amount_18 :
  calc_from_gst_amount (VFloat 18) (VFloat 0.18) None
  = Ok (VFloat 100, VFloat 118, VFloat 9, VFloat 9, VFloat 18).
Proof. reflexivity. Qed.

Example from_included_118_rounded_to_1 :
  calc_from_included (VFloat 118) (VFloat 0.18) (Some (VFloat 1))
  = Ok (VFloat 100, VFloat 18, VFloat 9, VFloat 9, VFloat 118).
Proof. reflexivity. Qed.

Example round_ties_to_even :
  round (VFloat 0.5) = Ok (VInt 0) /\ round (VFloat 1.5) = Ok (VInt 2) /\
  round (VFloat 2.5) = Ok (VInt 2) /\ round (VFloat (-1.5)) = Ok (VInt (-2)).
Proof. repeat split; reflexivity. Qed.

Example history_to_txt_line :
  history_to_txt
    {| history := Some [ {| timestamp := "2024-01-01 10:00:00"; mode := "Excl → Incl";
                            rate_pct := 18; base := VFloat 100; gst := VFloat 18;
                            cgst := VFloat 9; sgst := VFloat 9; total := VFloat 118 |} ] |}
  = Ok (Some "2024-01-01 10:00:00 | Excl → Incl | Rate: 18% | Base: ₹100.00 | GST: ₹18.00 | CGST: ₹9.00 | SGST: ₹9.00 | Total: ₹118.00").
Proof. reflexivity. Qed.

(** ** The ledger keeps the last ten entries *)

Local Open Scope list_scope.

Lemma firstn_app_firstn {A : Type} (n : nat) (a l : list A) :
  firstn n (a ++ firstn n l) = firstn n (a ++ l).
Proof.
  rewrite !firstn_app, firstn_firstn. f_equal. f_equal. lia.
Qed.

Lemma ledger_add_history (e : entry) (st : session_state) :
  ledger (add_history e st) = firstn 10 (e :: ledger st).
Proof. reflexivity. Qed.

Lemma run_ops_cons (op : ledger_op) (ops : list ledger_op) (st : session_state) :
  run_ops (op :: ops) st = run_ops ops (apply_op op st).
Proof. reflexivity. Qed.

Lemma run_ops_app (ops1 ops2 : list ledger_op) (st : session_state) :
  run_ops (ops1 ++ ops2) st = run_ops ops2 (run_ops ops1 st).
Proof. unfold run_ops. apply fold_left_app. Qed.

Lemma ledger_record_all (es : list entry) : forall (e : entry) (st : session_state),
  ledger (run_ops (map Record_entry es) (add_history e st))
  = firstn 10 (rev es ++ e :: ledger st).
Proof.
  induction es as [ | e' es IH ]; intros e st.
  - reflexivity.
  - cbn [map rev]. rewrite run_ops_cons. cbn [apply_op].
    rewrite IH, ledger_add_history, <- app_assoc. cbn [app].
    change (rev es ++ e' :: firstn 10 (e :: ledger st))
      with (rev es ++ [e'] ++ firstn 10 (e :: ledger st)).
    change (rev es ++ e' :: e :: ledger st) with (rev es ++ [e'] ++ e :: ledger st).
    rewrite !app_assoc. apply firstn_app_firstn.
Qed.

(** X1. However many entries are recorded, from whatever state, the ledger
    is then the ten most recent of all of them, the newest first: the
    entries just recorded in reverse order, followed by the older ones, cut
    after ten.  After a clearing only the entries recorded since count. *)
Theorem ledger_is_last_ten (e : entry) (es : list entry) (st : session_state) :
  ledger (run_ops (map Record_entry (e :: es)) st)
  = firstn 10 (rev (e :: es) ++ ledger st) /\
  (forall ops : list ledger_op,
     ledger (run_ops (ops ++ Clear :: map Record_entry (e :: es)) st)
     = firstn 10 (rev (e :: es))).
Proof.
  assert (H : forall st', ledger (run_ops (map Record_entry (e :: es)) st')
                          = firstn 10 (rev (e :: es) ++ ledger st')).
  { intros st'. cbn [map rev]. rewrite run_ops_cons. cbn [apply_op].
    rewrite ledger_record_all, <- app_assoc. reflexivity. }
  split; [apply H | ].
  intros ops. rewrite run_ops_app, run_ops_cons, H. cbn [apply_op].
  unfold clear_history, ledger at 1. cbn [history]. rewrite app_nil_r. reflexivity.
Qed.

(** X2. Below ten entries [add_history] loses nothing: the new entry comes
    first and all the old ones follow. *)
Theorem add_history_below_capacity (e : entry) (st : session_state) :
  (ledger_length st < 10)%nat ->
  history (add_history e st) = Some (e :: ledger st) /\
  ledger_length (add_history e st) = S (ledger_length st).
Proof.
  intros H.
  assert (E : ledger_length st = List.length (ledger st))
    by (unfold ledger_length, ledger; destruct (history st); reflexivity).
  assert (F : firstn 10 (e :: ledger st) = e :: ledger st)
    by (apply firstn_all2; cbn [List.length]; lia).
  unfold ledger_length at 1. unfold add_history. cbn [history].
  fold (ledger st). rewrite F. cbn [List.length]. rewrite E. split; reflexivity.
Qed.

Lemma add_history_below_capacity_witness :
  (ledger_length new_session < 10)%nat /\
  forall e, history (add_history e new_session) = Some [e].
Proof.
  split; [cbn; lia | ].
  intros e. exact (proj1 (add_history_below_capacity e new_session ltac:(cbn; lia))).
Defined.

(** X3. On a full ledger [add_history] drops exactly the oldest entry: the
    new entry comes first, and the old ones but the last follow. *)
Theorem add_history_at_capacity (e : entry) (st : session_state) :
  ledger_length st = 10%nat ->
  history (add_history e st) = Some (e :: removelast (ledger st)) /\
  ledger_length (add_history e st) = 10%nat.
Proof.
  intros H.
  assert (E : List.length (ledger st) = 10%nat)
    by (unfold ledger_length in H; unfold ledger; destruct (history st); exact H).
  assert (F : firstn 10 (e :: ledger st) = e :: removelast (ledger st)).
  { rewrite removelast_firstn_len, E. reflexivity. }
  unfold ledger_length at 1. unfold add_history. cbn [history].
  fold (ledger st). rewrite F. split; [reflexivity | ].
  cbn [List.length]. rewrite removelast_firstn_len, E.
  rewrite length_firstn, E. reflexivity.
Qed.

Lemma add_history_at_capacity_witness :
  let e (n : Z) := {| timestamp := "2024-01-01 10:00:00"; mode := "Excl → Incl";
                      rate_pct := n; base := VFloat 100; gst := VFloat 18;
                      cgst := VFloat 9; sgst := VFloat 9; total := VFloat 118 |} in
  let st := {| history := Some (map e [10; 9; 8; 7; 6; 5; 4; 3; 2; 1]%Z) |} in
  ledger_length st = 10%nat /\
  history (add_history (e 11%Z) st) = Some (e 11%Z :: removelast (ledger st)) /\
  ledger_length (add_history (e 11%Z) st) = 10%nat.
Proof.
  cbv zeta. split; [reflexivity | apply add_history_at_capacity; reflexivity].
Defined.

(** ** The exports *)

Lemma append_not_empty (a b : string) : b <> EmptyString -> (a ++ b)%string <> EmptyString.
Proof.
  intros H. destruct a as [ | c a ]; cbn; [exact H | discriminate].
Qed.

Lemma txt_line_float (item : entry) :
  float_entry item = true ->
  exists l, txt_line item = Ok l /\ l <> EmptyString.
Proof.
  unfold float_entry, txt_line. destruct item as [ts md rp b g c s t]. cbn [base gst cgst sgst total timestamp mode rate_pct].
  destruct b, g, c, s, t; cbn [is_float andb]; try discriminate. intros _.
  cbn [format_2f to_float bind]. eexists. split; [reflexivity | ].
  apply append_not_empty. discriminate.
Qed.

Lemma txt_lines_float (h : list entry) :
  forallb float_entry h = true ->
  exists ls, txt_lines h = Ok ls /\ List.length ls = List.length h /\
             (h <> [] -> String.concat newline ls <> EmptyString).
Proof.
  induction h as [ | item h IH ]; cbn [forallb txt_lines].
  - intros _. exists []. split; [reflexivity | split; [reflexivity | ]].
    intros H. contradiction H. reflexivity.
  - intros H. apply andb_true_iff in H. destruct H as [Hi Hh].
    destruct (txt_line_float item Hi) as (l & -> & Hl).
    destruct (IH Hh) as (ls & -> & Hlen & _). cbn [bind].
    exists (l :: ls). split; [reflexivity | split; [cbn [List.length]; congruence | ]].
    intros _. cbn [String.concat]. destruct ls as [ | l' ls ]; [exact Hl | ].
    destruct l as [ | ch l ]; [contradiction Hl; reflexivity | cbn; discriminate].
Qed.




(** ** The rate selector *)

(** X6. Whatever quick-rate buttons are pressed, looking up the default
    rate among the options of the selector raises nothing: the index is
    that of the default rate, which is 18 when no button is pressed and
    otherwise the rate of the last pressed button. *)
Theorem rate_selector_index_returns (pressed : nat -> bool) :
  exists i : nat,
    rate_selector_index pressed = Ok i /\
    nth_error rate_options i = Some (default_rate (selected_quick pressed)) /\
    ((forall k, (k < 4)%nat -> pressed k = false) ->
     default_rate (selected_quick pressed) = 18) /\
    (forall k r, nth_error quick_rates k = Some r -> pressed k = true ->
       (forall j, (k < j < 4)%nat -> pressed j = false) ->
       default_rate (selected_quick pressed) = r).
Proof.
  unfold rate_selector_index, selected_quick. cbn [quick_rates enumerate_from fold_left fst snd].
  destruct (pressed 3%nat) eqn:E3; [ | destruct (pressed 2%nat) eqn:E2;
    [ | destruct (pressed 1%nat) eqn:E1; [ | destruct (pressed 0%nat) eqn:E0]]];
    destruct (pressed 0%nat) eqn:F0; destruct (pressed 1%nat) eqn:F1;
    destruct (pressed 2%nat) eqn:F2; try discriminate;
    (eexists; split; [reflexivity | split; [reflexivity | split]];
     [ intros H;
       try (rewrite (H 3%nat) in E3 by lia; discriminate);
       try (rewrite (H 2%nat) in F2 by lia; discriminate);
       try (rewrite (H 1%nat) in F1 by lia; discriminate);
       try (rewrite (H 0%nat) in F0 by lia; discriminate);
       reflexivity
     | intros k r Hk Hp Hlast;
       destruct k as [ | [ | [ | [ | k ]]]]; cbn in Hk; inversion Hk; subst;
       try reflexivity;
       try (rewrite (Hlast 3%nat) in E3 by lia; discriminate);
       try (rewrite (Hlast 2%nat) in F2 by lia; discriminate);
       try (rewrite (Hlast 1%nat) in F1 by lia; discriminate);
       try congruence;
       destruct k; discriminate ]).
Qed.

(** ** The handlers on the rates of the selector *)

Lemma rate_of_option (rate_pct : Z) :
  In rate_pct rate_options ->
  exists r : float,
    truediv (VInt rate_pct) (VFloat 100) = Ok (VFloat r) /\
    (r =? 0)%float = false /\ (r <? 0)%float = false /\ (0 <? r)%float = true /\
    exists h, truediv (VInt rate_pct) (VInt 2) = Ok (VFloat h).
Proof.
  intros H. cbn [rate_options In] in H.
  destruct H as [<- | [<- | [<- | [<- | []]]]];
    (eexists; split; [reflexivity | repeat split; try reflexivity; eexists; reflexivity]).
Qed.

Lemma split_line_float (str_float : float -> string) (rate_pct : Z) (h c s : float) :
  truediv (VInt rate_pct) (VInt 2) = Ok (VFloat h) ->
  exists l, split_line str_float rate_pct (VFloat c) (VFloat s) = Ok l.
Proof.
  intros H. unfold split_line, str_half, format_2f. rewrite H. cbn [bind to_float].
  eexists. reflexivity.
Qed.

Lemma on_calculate_excl_plain (str_float : float -> string) (now : string) (rate_pct : Z)
    (r h x : float) (st : session_state) :
  truediv (VInt rate_pct) (VFloat 100) = Ok (VFloat r) ->
  truediv (VInt rate_pct) (VInt 2) = Ok (VFloat h) ->
  exists ui,
    on_calculate_excl str_float now rate_pct None (VFloat x) st
    = Ok (add_history
            {| timestamp := now; mode := "Excl → Incl"; rate_pct := rate_pct;
               base := VFloat x; gst := VFloat (x * r); cgst := VFloat (x * r / 2);
               sgst := VFloat (x * r / 2); total := VFloat (x + x * r) |} st, ui) /\
    List.length ui = 3%nat.
Proof.
  intros Hr Hh. unfold on_calculate_excl. rewrite Hr. cbn [bind].
  pose proof (calc_from_excluded_plain x r None eq_refl) as E.
  cbv zeta in E. cbn [rounding_arg option_map] in E. rewrite E. cbn [bind].
  unfold format_2f at 1 2. cbn [to_float bind].
  destruct (split_line_float str_float rate_pct h (x * r / 2) (x * r / 2) Hh) as (l & ->).
  cbn [bind]. eexists. split; reflexivity.
Qed.

Lemma on_calculate_incl_plain (str_float : float -> string) (now : string) (rate_pct : Z)
    (r h x : float) (st : session_state) :
  truediv (VInt rate_pct) (VFloat 100) = Ok (VFloat r) ->
  (r <? 0)%float = false ->
  truediv (VInt rate_pct) (VInt 2) = Ok (VFloat h) ->
  exists ui,
    on_calculate_incl str_float now rate_pct None (VFloat x) st
    = Ok (add_history
            {| timestamp := now; mode := "Incl → Excl"; rate_pct := rate_pct;
               base := VFloat (x / (1 + r)); gst := VFloat (x - x / (1 + r));
               cgst := VFloat ((x - x / (1 + r)) / 2);
               sgst := VFloat ((x - x / (1 + r)) / 2); total := VFloat x |} st, ui) /\
    List.length ui = 3%nat.
Proof.
  intros Hr Hn Hh. unfold on_calculate_incl. rewrite Hr. cbn [bind].
  pose proof (calc_from_included_plain x r None eq_refl) as E. cbv zeta in E.
  rewrite Hn in E. cbn [rounding_arg option_map] in E. rewrite E. cbn [bind].
  unfold format_2f at 1 2. cbn [to_float bind].
  destruct (split_line_float str_float rate_pct h ((x - x / (1 + r)) / 2)
              ((x - x / (1 + r)) / 2) Hh) as (l & ->).
  cbn [bind]. eexists. split; reflexivity.
Qed.

Lemma on_calculate_from_gst_plain (str_float : float -> string) (now : string) (rate_pct : Z)
    (r h x : float) (st : session_state) :
  truediv (VInt rate_pct) (VFloat 100) = Ok (VFloat r) ->
  (r =? 0)%float = false ->
  truediv (VInt rate_pct) (VInt 2) = Ok (VFloat h) ->
  exists ui,
    on_calculate_from_gst str_float now rate_pct None (VFloat x) st
    = Ok (add_history
            {| timestamp := now; mode := "Reverse (GST→Base)"; rate_pct := rate_pct;
               base := VFloat (x / r); gst := VFloat x; cgst := VFloat (x / 2);
               sgst := VFloat (x / 2); total := VFloat (x / r + x) |} st, ui) /\
    List.length ui = 3%nat.
Proof.
  intros Hr Hz Hh. unfold on_calculate_from_gst. rewrite Hr. cbn [bind].
  rewrite eq_zero, Hz.
  pose proof (calc_from_gst_amount_plain x r None eq_refl) as E.
  unfold gst_amount_base, gst_amount_total in E. rewrite Hz in E.
  cbn [rounding_arg option_map] in E. rewrite E. cbn [bind].
  unfold format_2f at 1 2. cbn [to_float bind].
  destruct (split_line_float str_float rate_pct h (x / 2) (x / 2) Hh) as (l & ->).
  cbn [bind]. eexists. split; reflexivity.
Qed.

(** X7. For every rate of the selector and every float typed in, with no
    rounding, each of the three Calculate handlers raises nothing, shows
    three messages and records one entry: the amount typed in and the
    amounts computed from it at the rate [rate_pct / 100.0], under the
    mode of the handler and the time of the click. *)
Theorem calculate_records_entry (str_float : float -> string) (now : string)
    (rate_pct : Z) (x : float) (st : session_state) :
  In rate_pct rate_options ->
  exists r : float,
    truediv (VInt rate_pct) (VFloat 100) = Ok (VFloat r) /\
    (exists ui,
       on_calculate_excl str_float now rate_pct None (VFloat x) st
       = Ok (add_history
               {| timestamp := now; mode := "Excl → Incl"; rate_pct := rate_pct;
                  base := VFloat x; gst := VFloat (x * r); cgst := VFloat (x * r / 2);
                  sgst := VFloat (x * r / 2); total := VFloat (x + x * r) |} st, ui) /\
       List.length ui = 3%nat) /\
    (exists ui,
       on_calculate_incl str_float now rate_pct None (VFloat x) st
       = Ok (add_history
               {| timestamp := now; mode := "Incl → Excl"; rate_pct := rate_pct;
                  base := VFloat (x / (1 + r)); gst := VFloat (x - x / (1 + r));
                  cgst := VFloat ((x - x / (1 + r)) / 2);
                  sgst := VFloat ((x - x / (1 + r)) / 2); total := VFloat x |} st, ui) /\
       List.length ui = 3%nat) /\
    (exists ui,
       on_calculate_from_gst str_float now rate_pct None (VFloat x) st
       = Ok (add_history
               {| timestamp := now; mode := "Reverse (GST→Base)"; rate_pct := rate_pct;
                  base := VFloat (x / r); gst := VFloat x; cgst := VFloat (x / 2);
                  sgst := VFloat (x / 2); total := VFloat (x / r + x) |} st, ui) /\
       List.length ui = 3%nat).
Proof.
  intros H. destruct (rate_of_option rate_pct H) as (r & Hr & Hz & Hn & _ & h & Hh).
  exists r. split; [exact Hr | split; [ | split]].
  - apply (on_calculate_excl_plain str_float now rate_pct r h x st Hr Hh).
  - apply (on_calculate_incl_plain str_float now rate_pct r h x st Hr Hn Hh).
  - apply (on_calculate_from_gst_plain str_float now rate_pct r h x st Hr Hz Hh).
Qed.

Lemma calculate_records_entry_witness :
  In 18 rate_options /\
  exists r : float,
    truediv (VInt 18) (VFloat 100) = Ok (VFloat r) /\
    exists ui,
      on_calculate_excl (fun _ => EmptyString) "2024-01-01 10:00:00" 18 None (VFloat 100)
        new_session
      = Ok (add_history
              {| timestamp := "2024-01-01 10:00:00"; mode := "Excl → Incl"; rate_pct := 18;
                 base := VFloat 100; gst := VFloat (100 * r); cgst := VFloat (100 * r / 2);
                 sgst := VFloat (100 * r / 2); total := VFloat (100 + 100 * r) |}
              new_session, ui) /\
      List.length ui = 3%nat.
Proof.
  assert (H : In 18 rate_options) by (cbn; tauto).
  split; [exact H | ].
  destruct (calculate_records_entry (fun _ => EmptyString) "2024-01-01 10:00:00" 18 100
              new_session H) as (r & Hr & He & _).
  exists r. split; [exact Hr | exact He].
Defined.

(** X8. For every rate of the selector the rate [rate_pct / 100.0] is
    positive, and there is a description to show under the selector; so
    the handler of "Calculate from GST amount" never shows the error on a
    zero rate: when it returns it has recorded an entry, whatever the
    rounding and the amount. *)
Theorem selector_rate_never_rejected (str_float : float -> string) (now : string)
    (pct : Z) (rounding : option value) (gst_input : value)
    (st st' : session_state) (ui : list ui_call) :
  In pct rate_options ->
  on_calculate_from_gst str_float now pct rounding gst_input st = Ok (st', ui) ->
  (exists e, st' = add_history e st /\ mode e = "Reverse (GST→Base)"
             /\ timestamp e = now /\ rate_pct e = pct) /\
  (forall msg, ~ In (st_error msg) ui) /\
  (exists rate, truediv (VInt pct) (VFloat 100) = Ok rate /\ lt (VInt 0) rate = true) /\
  rate_caption pct <> None.
Proof.
  intros H. destruct (rate_of_option pct H) as (r & Hr & Hz & _ & Hp & _).
  assert (Hc : rate_caption pct <> None).
  { cbn [rate_options In] in H.
    destruct H as [<- | [<- | [<- | [<- | []]]]]; discriminate. }
  assert (Hl : lt (VInt 0) (VFloat r) = true).
  { clear - H Hr. cbn [rate_options In] in H.
    destruct H as [<- | [<- | [<- | [<- | []]]]];
      cbn in Hr; inversion Hr; reflexivity. }
  unfold on_calculate_from_gst. rewrite Hr. cbn [bind]. rewrite eq_zero, Hz.
  destruct (calc_from_gst_amount gst_input (VFloat r) rounding) as [ [[[[b t] c] s] g] | ];
    cbn [bind]; [ | discriminate].
  destruct (format_2f b); cbn [bind]; [ | discriminate].
  destruct (format_2f t); cbn [bind]; [ | discriminate].
  destruct (split_line str_float pct c s); cbn [bind]; [ | discriminate].
  intros E. injection E as <- <-. split; [ | split; [ | split; [ | exact Hc]]].
  - eexists. split; [reflexivity | repeat split].
  - intros msg [F | [F | [F | []]]]; discriminate.
  - exists (VFloat r). split; [reflexivity | exact Hl].
Qed.

Lemma selector_rate_never_rejected_witness :
  In 18 rate_options /\
  exists st' ui,
    on_calculate_from_gst (fun _ => EmptyString) "2024-01-01 10:00:00" 18 None (VFloat 18)
      new_session = Ok (st', ui) /\
    forall msg, ~ In (st_error msg) ui.
Proof.
  assert (H : In 18 rate_options) by (cbn; tauto).
  split; [exact H | ].
  eexists. eexists. split; [reflexivity | ].
  exact (proj1 (proj2 (selector_rate_never_rejected (fun _ => EmptyString)
                         "2024-01-01 10:00:00" 18 None (VFloat 18) new_session _ _ H eq_refl))).
Defined.

(** ** The amounts in the ledger are floats *)

Lemma rounding_arg_of (rounding : option value) :
  match rounding with None => true | Some v => is_float v end = true ->
  exists ro, rounding = rounding_arg ro.
Proof.
  destruct rounding as [ [ z | f ] | ]; cbn [is_float]; intros H; try discriminate H.
  - exists (Some f). reflexivity.
  - exists None. reflexivity.
Qed.

Lemma truediv_by_float (a : value) (y : float) (v : value) :
  truediv a (VFloat y) = Ok v -> exists f, v = VFloat f.
Proof.
  destruct a as [ z | x ]; cbn [truediv to_float bind].
  - destruct (float_of_int z) as [ x | ]; cbn [bind]; [ | discriminate].
    destruct (y =? 0)%float; intros H; inversion H; eauto.
  - destruct (y =? 0)%float; intros H; inversion H; eauto.
Qed.

Lemma calc_from_excluded_floats (x r : float) (ro : option float) (t g c s b : value) :
  calc_from_excluded (VFloat x) (VFloat r) (rounding_arg ro) = Ok (t, g, c, s, b) ->
  is_float b && is_float g && is_float c && is_float s && is_float t = true.
Proof.
  destruct (truthy_opt (rounding_arg ro)) eqn:E.
  - destruct ro as [ r' | ]; [ | discriminate E].
    cbn [rounding_arg option_map truthy_opt] in E |- *.
    pose proof (calc_from_excluded_rounded x r r' E) as R. cbv zeta in R. rewrite R.
    destruct (round_to (VFloat (x * r)) (VFloat r')) as [ g' | ] eqn:Eg; cbn [bind];
      [ | discriminate].
    destruct (round_to_float _ _ _ Eg) as (fg & ->).
    destruct (round_to (VFloat (x + x * r)) (VFloat r')) as [ t' | ] eqn:Et; cbn [bind];
      [ | discriminate].
    destruct (round_to_float _ _ _ Et) as (ft & ->).
    rewrite truediv_two. cbn [bind]. intros H. injection H as <- <- <- <- <-. reflexivity.
  - pose proof (calc_from_excluded_plain x r ro E) as R. cbv zeta in R. rewrite R.
    intros H. injection H as <- <- <- <- <-. reflexivity.
Qed.

Lemma calc_from_included_floats (x r : float) (ro : option float) (b g c s t : value) :
  calc_from_included (VFloat x) (VFloat r) (rounding_arg ro) = Ok (b, g, c, s, t) ->
  is_float b && is_float g && is_float c && is_float s && is_float t = true.
Proof.
  destruct (truthy_opt (rounding_arg ro)) eqn:E.
  - destruct ro as [ r' | ]; [ | discriminate E].
    cbn [rounding_arg option_map truthy_opt] in E |- *.
    pose proof (calc_from_included_rounded x r r' E) as R. cbv zeta in R. rewrite R.
    match goal with |- context [round_to ?a (VFloat r')] =>
      destruct (round_to a (VFloat r')) as [ b' | ] eqn:Eb; cbn [bind]; [ | discriminate] end.
    destruct (round_to_float _ _ _ Eb) as (fb & ->).
    match goal with |- context [round_to ?a (VFloat r')] =>
      destruct (round_to a (VFloat r')) as [ g' | ] eqn:Eg; cbn [bind]; [ | discriminate] end.
    destruct (round_to_float _ _ _ Eg) as (fg & ->).
    rewrite truediv_two. cbn [bind]. intros H. injection H as <- <- <- <- <-. reflexivity.
  - pose proof (calc_from_included_plain x r ro E) as R. cbv zeta in R. rewrite R.
    intros H. injection H as <- <- <- <- <-. reflexivity.
Qed.

Lemma calc_from_gst_amount_floats (x r : float) (ro : option float) (b t c s g : value) :
  (r =? 0)%float = false ->
  calc_from_gst_amount (VFloat x) (VFloat r) (rounding_arg ro) = Ok (b, t, c, s, g) ->
  is_float b && is_float g && is_float c && is_float s && is_float t = true.
Proof.
  intros Hz. destruct (truthy_opt (rounding_arg ro)) eqn:E.
  - destruct ro as [ r' | ]; [ | discriminate E].
    cbn [rounding_arg option_map truthy_opt] in E |- *.
    rewrite (calc_from_gst_amount_rounded x r r' E).
    destruct (round_to (gst_amount_base x r) (VFloat r')) as [ b' | ] eqn:Eb; cbn [bind];
      [ | discriminate].
    destruct (round_to_float _ _ _ Eb) as (fb & ->).
    destruct (round_to (gst_amount_total x r) (VFloat r')) as [ t' | ] eqn:Et; cbn [bind];
      [ | discriminate].
    destruct (round_to_float _ _ _ Et) as (ft & ->).
    intros H. injection H as <- <- <- <- <-. reflexivity.
  - rewrite (calc_from_gst_amount_plain x r ro E).
    unfold gst_amount_base, gst_amount_total. rewrite Hz.
    intros H. injection H as <- <- <- <- <-. reflexivity.
Qed.

Lemma forallb_firstn {A : Type} (p : A -> bool) (n : nat) (l : list A) :
  forallb p l = true -> forallb p (firstn n l) = true.
Proof.
  revert n. induction l as [ | a l IH ]; intros [ | n ]; cbn [firstn forallb]; try reflexivity.
  intros H. apply andb_true_iff in H. destruct H as [Ha Hl].
  rewrite Ha. cbn [andb]. apply IH, Hl.
Qed.

Lemma add_history_floats (e : entry) (st : session_state) :
  float_entry e = true -> forallb float_entry (ledger st) = true ->
  forallb float_entry (ledger (add_history e st)) = true.
Proof.
  intros He Hst. rewrite ledger_add_history. apply forallb_firstn.
  cbn [forallb]. rewrite He, Hst. reflexivity.
Qed.

Lemma step_floats (str_float : float -> string) (st : session_state) (ev : event) :
  page_event ev = true -> forallb float_entry (ledger st) = true ->
  forallb float_entry (ledger (step str_float st ev)) = true.
Proof.
  intros Hev Hst.
  destruct ev as [ now p rounding x | now p rounding x | now p rounding x | ];
    cbn [step page_event] in *; [ | | | reflexivity];
    apply andb_true_iff in Hev; destruct Hev as [Hro Hx];
    destruct (rounding_arg_of rounding Hro) as (ro & ->);
    destruct x as [ z | x ]; try discriminate Hx.
  - unfold on_calculate_excl.
    destruct (truediv (VInt p) (VFloat 100)) as [ rate | ] eqn:Er; cbn [bind]; [ | exact Hst].
    destruct (truediv_by_float _ _ _ Er) as (r & ->).
    destruct (calc_from_excluded (VFloat x) (VFloat r) (rounding_arg ro))
      as [ [[[[t g] c] s] b] | ] eqn:Ec; cbn [bind]; [ | exact Hst].
    pose proof (calc_from_excluded_floats _ _ _ _ _ _ _ _ Ec) as Hf.
    destruct (format_2f t); cbn [bind]; [ | exact Hst].
    destruct (format_2f g); cbn [bind]; [ | exact Hst].
    destruct (split_line str_float p c s); cbn [bind]; [ | exact Hst].
    apply add_history_floats; [exact Hf | exact Hst].
  - unfold on_calculate_incl.
    destruct (truediv (VInt p) (VFloat 100)) as [ rate | ] eqn:Er; cbn [bind]; [ | exact Hst].
    destruct (truediv_by_float _ _ _ Er) as (r & ->).
    destruct (calc_from_included (VFloat x) (VFloat r) (rounding_arg ro))
      as [ [[[[b g] c] s] t] | ] eqn:Ec; cbn [bind]; [ | exact Hst].
    pose proof (calc_from_included_floats _ _ _ _ _ _ _ _ Ec) as Hf.
    destruct (format_2f b); cbn [bind]; [ | exact Hst].
    destruct (format_2f g); cbn [bind]; [ | exact Hst].
    destruct (split_line str_float p c s); cbn [bind]; [ | exact Hst].
    apply add_history_floats; [exact Hf | exact Hst].
  - unfold on_calculate_from_gst.
    destruct (truediv (VInt p) (VFloat 100)) as [ rate | ] eqn:Er; cbn [bind]; [ | exact Hst].
    destruct (truediv_by_float _ _ _ Er) as (r & ->).
    rewrite eq_zero. destruct (r =? 0)%float eqn:Ez; [exact Hst | ].
    destruct (calc_from_gst_amount (VFloat x) (VFloat r) (rounding_arg ro))
      as [ [[[[b t] c] s] g] | ] eqn:Ec; cbn [bind]; [ | exact Hst].
    pose proof (calc_from_gst_amount_floats _ _ _ _ _ _ _ _ Ez Ec) as Hf.
    destruct (format_2f b); cbn [bind]; [ | exact Hst].
    destruct (format_2f t); cbn [bind]; [ | exact Hst].
    destruct (split_line str_float p c s); cbn [bind]; [ | exact Hst].
    apply add_history_floats; [exact Hf | exact Hst].
Qed.

Lemma run_events_floats (str_float : float -> string) (evs : list event) : forall st,
  forallb page_event evs = true -> forallb float_entry (ledger st) = true ->
  forallb float_entry (ledger (run_events str_float evs st)) = true.
Proof.
  unfold run_events.
  induction evs as [ | ev evs IH ]; intros st Hev Hst; cbn [fold_left forallb] in *.
  - exact Hst.
  - apply andb_true_iff in Hev. destruct Hev as [H1 H2].
    apply IH; [exact H2 | apply step_floats; assumption].
Qed.

(** X9. In every state the page reaches through clicks on its buttons, with
    floats typed into the number inputs, every amount in the ledger is a
    float, whatever the rates and the increments; so [history_to_txt]
    raises nothing there, and returns a text exactly when something is in
    the ledger. *)
Theorem page_ledger_exports (str_float : float -> string) (evs : list event) :
  forallb page_event evs = true ->
  forallb float_entry (ledger (run_events str_float evs new_session)) = true /\
  exists o : option string,
    history_to_txt (run_events str_float evs new_session) = Ok o /\
    (o = None <-> ledger_length (run_events str_float evs new_session) = 0%nat).
Proof.
  intros H.
  assert (Hf : forallb float_entry (ledger (run_events str_float evs new_session)) = true)
    by (apply run_events_floats; [exact H | reflexivity]).
  split; [exact Hf | ].
  destruct (txt_lines_float _ Hf) as (ls & Hls & _).
  unfold history_to_txt, ledger_length. unfold ledger in Hls.
  destruct (history (run_events str_float evs new_session)) as [ [ | e h ] | ].
  - exists None. split; [reflexivity | tauto].
  - rewrite Hls. cbn [bind]. eexists. split; [reflexivity | ].
    split; intros; discriminate.
  - exists None. split; [reflexivity | tauto].
Qed.

Lemma page_ledger_exports_witness :
  let evs := [ CalculateExcl "2024-01-01 10:00:00" 18 None (VFloat 100);
               CalculateFromGst "2024-01-01 10:01:00" 5 (Some (VFloat 0.5)) (VFloat 18) ] in
  forallb page_event evs = true /\
  forallb float_entry (ledger (run_events (fun _ => EmptyString) evs new_session)) = true.
Proof.
  cbv zeta. split; [reflexivity | ].
  apply page_ledger_exports. reflexivity.
Defined.

(** ** The history panel *)




(** ** What a click does to the ledger *)

(** X11. No click alters or reorders what is in the ledger: "Clear
    History" empties it, and a Calculate click either leaves the session
    state as it was (the handler raised, or showed the error on a zero
    rate) or puts one new entry in front of the old ones, of which the
    first nine are kept in their order. *)
Theorem step_keeps_older_entries (str_float : float -> string) (st : session_state)
    (ev : event) :
  match ev with
  | ClearHistory => history (step str_float st ev) = Some []
  | _ =>
      step str_float st ev = st \/
      exists e, history (step str_float st ev) = Some (e :: firstn 9 (ledger st))
  end.
Proof.
  destruct ev as [ now p r x | now p r x | now p r x | ]; cbn [step].
  - destruct (on_calculate_excl str_float now p r x st) as [ [st' ui] | ] eqn:E;
      [ | left; reflexivity].
    destruct (on_calculate_excl_state _ _ _ _ _ _ _ _ E) as (e & ->).
    right. exists e. reflexivity.
  - destruct (on_calculate_incl str_float now p r x st) as [ [st' ui] | ] eqn:E;
      [ | left; reflexivity].
    destruct (on_calculate_incl_state _ _ _ _ _ _ _ _ E) as (e & ->).
    right. exists e. reflexivity.
  - destruct (on_calculate_from_gst str_float now p r x st) as [ [st' ui] | ] eqn:E;
      [ | left; reflexivity].
    destruct (on_calculate_from_gst_state _ _ _ _ _ _ _ _ E) as [-> | (e & ->)];
      [left; reflexivity | right; exists e; reflexivity].
  - reflexivity.
Qed.

(** ** A rate below zero *)

(** Dividing by [1.0] changes nothing. *)
Lemma SFdiv_one (x : spec_float) :
  valid_binary x = true -> SFdiv prec emax x SF_one = x.
Proof.
  intros Hv. destruct x as [ [ | ] | [ | ] | | s m e ]; try reflexivity.
  pose proof (valid_exponent s m e Hv) as Hr.
  cbn [SpecFloat.valid_binary] in Hv.
  destruct (bounded_digits m e Hv) as [Hd53 Hd].
  unfold SF_one, SFdiv, SFdiv_core_binary. cbn [Zdigits2].
  change (Zpos (digits2_pos 4503599627370496)) with 53.
  rewrite fexp_eq, div_eucl_pair, xorb_false_r.
  destruct (Z.eq_dec e (-1074)) as [-> | Hne].
  - replace (Z.min (Z.max (Zpos (digits2_pos m) + -1074 - (53 + -52) - 53) (-1074))
               (-1074 - -52)) with (-1074) by lia.
    change (-1074 - -52 - -1074) with 52.
    rewrite Z.shiftl_mul_pow2 by lia.
    change (2 ^ 52) with 4503599627370496.
    rewrite Z.div_mul, Z.mod_mul by lia.
    cbn [new_location Z.even new_location_even Z.eqb].
    apply binary_round_aux_exact; [rewrite fexp_eq | ]; lia.
  - rewrite Hd by lia.
    replace (Z.min (Z.max (53 + e - (53 + -52) - 53) (-1074)) (e - -52)) with (e - 1) by lia.
    replace (e - -52 - (e - 1)) with 53 by lia.
    rewrite Z.shiftl_mul_pow2 by lia.
    replace (Zpos m * 2 ^ 53) with (Zpos m~0 * 4503599627370496)
      by (rewrite Pos2Z.inj_xO; lia).
    rewrite Z.div_mul, Z.mod_mul by lia.
    cbn [new_location Z.even new_location_even Z.eqb].
    replace (S754_finite s m e) with (S754_finite s m (e - 1 + 1)) by (f_equal; lia).
    apply binary_round_aux_even; [rewrite fexp_eq, Hd | ]; lia.
Qed.

Lemma div_one (x : float) : (x / 1)%float = x.
Proof.
  apply Prim2SF_inj. rewrite div_spec, Prim2SF_one.
  apply SFdiv_one, Prim2SF_valid.
Qed.

(** A finite float minus itself is [+0.0]. *)
Lemma sub_self (x : float) : is_finite x = true -> (x - x)%float = 0%float.
Proof.
  unfold is_finite. intros H. apply Prim2SF_inj. rewrite sub_spec, Prim2SF_zero.
  unfold SF64sub.
  destruct (Prim2SF x) as [ [ | ] | [ | ] | | s m e ]; try discriminate H; try reflexivity.
  cbn [SFsub]. rewrite Z.sub_diag. reflexivity.
Qed.

(** X12. A rate below zero counts as the int [0], whatever the rounding;
    so for a finite total and no rounding the base is the total itself
    and the GST amount and its halves are [0.0]. *)
Theorem calc_from_included_negative_rate (total_price rate : float) :
  lt (VFloat rate) (VInt 0) = true ->
  (forall rounding : option value,
     calc_from_included (VFloat total_price) (VFloat rate) rounding
     = calc_from_included (VFloat total_price) (VInt 0) rounding) /\
  (is_finite total_price = true ->
   calc_from_included (VFloat total_price) (VFloat rate) None
   = Ok (VFloat total_price, VFloat 0, VFloat 0, VFloat 0, VFloat total_price)).
Proof.
  intros H. split.
  - intros rounding. unfold calc_from_included. rewrite H. reflexivity.
  - intros Hf. rewrite lt_zero in H.
    pose proof (calc_from_included_plain total_price rate None eq_refl) as E.
    cbv zeta in E. rewrite H in E.
    change (1 + 0)%float with 1%float in E.
    rewrite div_one, (sub_self _ Hf) in E. exact E.
Qed.

Lemma calc_from_included_negative_rate_witness :
  lt (VFloat (-0.05)) (VInt 0) = true /\ is_finite 118 = true /\
  calc_from_included (VFloat 118) (VFloat (-0.05)) None
  = Ok (VFloat 118, VFloat 0, VFloat 0, VFloat 0, VFloat 118).
Proof.
  split; [reflexivity | split; [reflexivity | ]].
  exact (proj2 (calc_from_included_negative_rate 118 (-0.05) eq_refl) eq_refl).
Defined.

(** ** The round trip, with its rounding errors *)

Module RoundTrip.
Import Reals Lra.
Import FloatFacts PyFacts RealValue.
Local Open Scope Z_scope.


Lemma p2_pos (e : Z) : (0 < p2 e)%R.
Proof. apply powerRZ_lt. lra. Qed.

Lemma p2_add (a b : Z) : p2 (a + b) = (p2 a * p2 b)%R.
Proof. apply powerRZ_add. lra. Qed.

Lemma p2_IZR (k : Z) : 0 <= k -> IZR (2 ^ k) = p2 k.
Proof.
  intros Hk. unfold p2. rewrite <- (Z2Nat.id k Hk) at 1.
  rewrite <- pow_IZR, pow_powerRZ, Z2Nat.id by exact Hk. reflexivity.
Qed.

Lemma p2_ge_1 (k : Z) : 0 <= k -> (1 <= p2 k)%R.
Proof.
  intros Hk. rewrite <- p2_IZR by exact Hk. apply IZR_le.
  pose proof (Z.pow_pos_nonneg 2 k ltac:(lia) Hk). lia.
Qed.

Lemma p2_le (a b : Z) : a <= b -> (p2 a <= p2 b)%R.
Proof.
  intros H. replace b with (a + (b - a)) by lia. rewrite p2_add.
  pose proof (p2_pos a). pose proof (p2_ge_1 (b - a) ltac:(lia)).
  rewrite <- (Rmult_1_r (p2 a)) at 1. apply Rmult_le_compat_l; lra.
Qed.

Lemma p2_lt (a b : Z) : a < b -> (p2 a < p2 b)%R.
Proof.
  intros H. apply Rlt_le_trans with (p2 (a + 1)); [ | apply p2_le; lia].
  rewrite p2_add. pose proof (p2_pos a). change (p2 1) with (2 * 1)%R. lra.
Qed.

Lemma p2_lt_inv (a b : Z) : (p2 a < p2 b)%R -> a < b.
Proof.
  intros H. destruct (Z.lt_ge_cases a b) as [ | Hge]; [assumption | ].
  pose proof (p2_le b a Hge). lra.
Qed.

Lemma p2_half (e : Z) : (p2 e / 2 = p2 (e - 1))%R.
Proof.
  replace e with ((e - 1) + 1) at 1 by lia. rewrite p2_add.
  change (p2 1) with (2 * 1)%R. field.
Qed.

Lemma Rabs_le_both (x a : R) : (Rabs x <= a)%R -> (- a <= x <= a)%R.
Proof.
  intros H. pose proof (Rle_abs x) as H1. pose proof (Rle_abs (- x)) as H2.
  rewrite Rabs_Ropp in H2. lra.
Qed.

Lemma binary_round_aux_R (s : bool) (m e : Z) (l : location) (num den : Z) (X : R) :
  0 < den -> 0 <= m -> inbetween m l num den ->
  e <= fexp prec emax (Zdigits2 m + e) ->
  X = (IZR num / IZR den * p2 e)%R ->
  let e' := fexp prec emax (Zdigits2 m + e) in
  exists m2,
    0 <= m2 <= 2 ^ 53 /\ (2 ^ 52 <= m2 \/ e' = -1074) /\ -1074 <= e' /\
    (Rabs (IZR m2 * p2 e' - X) <= p2 e' / 2)%R /\
    binary_round_aux prec emax s m e l = SF_round s m2 e'.
Proof.
  intros Hden Hm Hin He HX. cbv zeta.
  destruct (binary_round_aux_correct s m e l num den Hden Hm Hin He)
    as (m2 & Hm2 & Hf & Herr & E).
  set (e' := fexp prec emax (Zdigits2 m + e)) in *.
  set (n := e' - e) in *.
  assert (Hn : 0 <= n) by (unfold n; lia).
  replace (e + n) with e' in * by (unfold n; lia).
  exists m2. split; [exact Hm2 | split; [exact Hf | split; [ | split; [ | exact E]]]].
  { unfold e'. rewrite fexp_eq. lia. }
  assert (HD : (0 < IZR den)%R) by (apply IZR_lt; exact Hden).
  assert (Herr' : (2 * Rabs (IZR m2 * (p2 n * IZR den) - IZR num) <= p2 n * IZR den)%R).
  { rewrite <- p2_IZR by exact Hn.
    rewrite <- !mult_IZR, <- minus_IZR, <- abs_IZR, <- mult_IZR.
    apply IZR_le. exact Herr. }
  replace (IZR m2 * p2 e' - X)%R
    with ((p2 e / IZR den) * (IZR m2 * (p2 n * IZR den) - IZR num))%R.
  2:{ rewrite HX. replace e' with (e + n) by (unfold n; lia). rewrite p2_add.
      field. lra. }
  rewrite Rabs_mult, Rabs_pos_eq.
  2:{ apply Rlt_le, Rdiv_lt_0_compat; [apply p2_pos | exact HD]. }
  replace (p2 e' / 2)%R with ((p2 e / IZR den) * (p2 n * IZR den / 2))%R.
  2:{ replace e' with (e + n) by (unfold n; lia). rewrite p2_add. field. lra. }
  apply Rmult_le_compat_l; [ | lra].
  apply Rlt_le, Rdiv_lt_0_compat; [apply p2_pos | exact HD].
Qed.

(** Half a unit in the last place, against the rounded value. *)
Lemma half_ulp_bound (m2 e' : Z) :
  0 <= m2 -> 2 ^ 52 <= m2 \/ e' = -1074 ->
  (p2 e' / 2 <= IZR m2 * p2 e' * p2 (-53) + p2 (-1075))%R.
Proof.
  intros Hm [H | ->].
  - pose proof (p2_pos e') as He. pose proof (p2_pos (-1075)) as Ht.
    apply IZR_le in H. rewrite p2_IZR in H by lia.
    assert (E : (p2 52 * p2 (-53) = / 2)%R).
    { rewrite <- p2_add. change (p2 (52 + -53)) with (/ (2 * 1))%R. f_equal. lra. }
    assert (Hp : (0 < p2 (-53))%R) by apply p2_pos.
    assert (H1 : (p2 52 * p2 e' * p2 (-53) <= IZR m2 * p2 e' * p2 (-53))%R).
    { apply Rmult_le_compat_r; [lra | ]. apply Rmult_le_compat_r; lra. }
    replace (p2 52 * p2 e' * p2 (-53))%R with (p2 e' * (p2 52 * p2 (-53)))%R in H1 by ring.
    rewrite E in H1. lra.
  - rewrite p2_half. change (-1074 - 1) with (-1075).
    assert (0 <= IZR m2 * p2 (-1074) * p2 (-53))%R; [ | lra].
    apply IZR_le in Hm. pose proof (p2_pos (-1074)). pose proof (p2_pos (-53)).
    apply Rmult_le_pos; [apply Rmult_le_pos | ]; lra.
Qed.

Lemma inbetween_floor (m : Z) (l : location) (num den : Z) :
  0 < den -> inbetween m l num den -> m * den <= num.
Proof.
  intros Hden. destruct l as [ | [ | | ]]; cbn [inbetween]; lia.
Qed.

Lemma SF_round_cases (m2 e' : Z) :
  0 <= m2 <= 2 ^ 53 -> 2 ^ 52 <= m2 \/ e' = -1074 -> -1074 <= e' ->
  (SF_round false m2 e' = S754_infinity false /\ (p2 1024 <= IZR m2 * p2 e')%R) \/
  (nonneg_finite (SF_round false m2 e') /\
   SpecFloat.valid_binary prec emax (SF_round false m2 e') = true /\
   SF2R (SF_round false m2 e') = (IZR m2 * p2 e')%R).
Proof.
  change (2 ^ 53) with 9007199254740992. change (2 ^ 52) with 4503599627370496.
  intros Hm Hf He. unfold SF_round.
  destruct (Z.eqb_spec m2 9007199254740992) as [-> | Hne].
  - cbn [SF_of]. destruct (Z.leb_spec (e' + 1) 971) as [Hle | Hgt].
    + right. split; [exact I | split].
      * cbn [SpecFloat.valid_binary]. unfold SpecFloat.bounded, canonical_mantissa.
        rewrite fexp_eq. change (Zpos (digits2_pos 4503599627370496)) with 53.
        change (emax - prec) with 971.
        apply andb_true_iff. split; [apply Z.eqb_eq | apply Z.leb_le]; lia.
      * cbn [SF2R cond_Zopp]. rewrite p2_add. change (p2 1) with (2 * 1)%R.
        change 9007199254740992 with (2 * 4503599627370496). rewrite mult_IZR. ring.
    + left. split; [reflexivity | ].
      replace (IZR 9007199254740992) with (p2 53) by (rewrite <- p2_IZR by lia; reflexivity).
      rewrite <- p2_add. apply p2_le. lia.
  - destruct m2 as [ | p | p ]; [ | | lia].
    + right. cbn. split; [exact I | split; [reflexivity | ring]].
    + cbn [SF_of]. destruct (Z.leb_spec e' 971) as [Hle | Hgt].
      * right. split; [exact I | split; [ | reflexivity]].
        cbn [SpecFloat.valid_binary]. unfold SpecFloat.bounded, canonical_mantissa.
        rewrite fexp_eq. change (emax - prec) with 971.
        apply andb_true_iff. split; [apply Z.eqb_eq | apply Z.leb_le; lia].
        assert (Hd : Zdigits2 (Zpos p) <= 53)
          by (apply Zdigits2_lt_pow; [change (2 ^ 53) with 9007199254740992 | ]; lia).
        cbn [Zdigits2] in Hd.
        destruct Hf as [Hf | ->]; [ | lia].
        assert (Hd' : Zdigits2 (Zpos p) = 53).
        { apply Zdigits2_unique; [ | lia].
          change (2 ^ (53 - 1)) with 4503599627370496.
          change (2 ^ 53) with 9007199254740992. lia. }
        cbn [Zdigits2] in Hd'. lia.
      * left. split; [reflexivity | ].
        destruct Hf as [Hf | ->]; [ | lia].
        apply IZR_le in Hf. replace (IZR 4503599627370496) with (p2 52) in Hf
          by (rewrite <- p2_IZR by lia; reflexivity).
        apply Rle_trans with (p2 52 * p2 e')%R.
        -- rewrite <- p2_add. apply p2_le. lia.
        -- apply Rmult_le_compat_r; [apply Rlt_le, p2_pos | exact Hf].
Qed.

Lemma binary_round_aux_rounds (m e : Z) (l : location) (num den : Z) (X : R) :
  0 < den -> 0 <= m -> inbetween m l num den ->
  e <= fexp prec emax (Zdigits2 m + e) ->
  X = (IZR num / IZR den * p2 e)%R ->
  rounds_to X (binary_round_aux prec emax false m e l).
Proof.
  intros Hden Hm Hin He HX.
  destruct (binary_round_aux_R false m e l num den X Hden Hm Hin He HX)
    as (m2 & Hm2 & Hf & He' & Herr & E).
  set (e' := fexp prec emax (Zdigits2 m + e)) in *.
  rewrite E.
  pose proof (half_ulp_bound m2 e' (proj1 Hm2) Hf) as Hulp.
  assert (HD : (0 < IZR den)%R) by (apply IZR_lt; exact Hden).
  assert (Hfloor : (IZR m * p2 e <= X)%R).
  { rewrite HX. pose proof (inbetween_floor m l num den Hden Hin) as Hfl.
    apply IZR_le in Hfl. rewrite mult_IZR in Hfl.
    pose proof (p2_pos e) as Hpe.
    apply Rmult_le_compat_r; [lra | ].
    apply Rmult_le_reg_r with (IZR den); [exact HD | ].
    replace (IZR num / IZR den * IZR den)%R with (IZR num) by (field; lra). exact Hfl. }
  destruct (SF_round_cases m2 e' Hm2 Hf He') as [[Einf Hbig] | (Hnn & Hv & Hval)].
  - split; [ | intros Hne; contradiction].
    intros Hsmall _.
    (* the canonical exponent is at most 971 *)
    assert (He971 : e' <= 971).
    { destruct (Z.eq_dec m 0) as [-> | Hm0].
      - unfold e' in *. rewrite fexp_eq in *. cbn [Zdigits2] in *. lia.
      - pose proof (Zdigits2_pos_bounds m ltac:(lia)) as [Hlo _].
        pose proof (Zdigits2_pos m ltac:(lia)) as Hdp.
        apply IZR_le in Hlo. rewrite p2_IZR in Hlo by lia.
        assert (Hlt : (p2 (Zdigits2 m - 1 + e) < p2 1024)%R).
        { rewrite p2_add. pose proof (p2_pos e) as Hpe. pose proof (p2_pos 970).
          apply Rle_lt_trans with (IZR m * p2 e)%R;
            [apply Rmult_le_compat_r; lra | lra]. }
        apply p2_lt_inv in Hlt. unfold e'. rewrite fexp_eq. lia. }
    assert (Hhalf : (p2 e' / 2 <= p2 970)%R).
    { rewrite p2_half. apply p2_le. lia. }
    apply Rabs_le_both in Herr. lra.
  - split; [intros _; intros Ei; rewrite Ei in Hnn; exact Hnn | ].
    intros _. split; [exact Hnn | split; [exact Hv | split]].
    + rewrite Hval. lra.
    + rewrite Hval. intros k Hk HkX.
      pose proof (p2_pos e') as Hpe.
      destruct (Z.le_gt_cases e' k) as [Hle | Hgt].
      * assert (Ek : p2 k = (IZR (2 ^ (k - e')) * p2 e')%R).
        { rewrite p2_IZR, <- p2_add by lia. f_equal. lia. }
        rewrite Ek in *.
        apply Rmult_le_compat_r; [lra | ]. apply IZR_le.
        assert (Hlt : (IZR (2 ^ (k - e') - 1) < IZR m2)%R).
        { rewrite minus_IZR.
          apply Rmult_lt_reg_r with (p2 e'); [exact Hpe | ].
          apply Rabs_le_both in Herr. lra. }
        apply lt_IZR in Hlt. lia.
      * destruct Hf as [Hf | Hf]; [ | lia].
        apply IZR_le in Hf. rewrite p2_IZR in Hf by lia.
        apply Rle_trans with (p2 e'); [apply p2_le; lia | ].
        pose proof (p2_ge_1 52 ltac:(lia)).
        rewrite <- (Rmult_1_l (p2 e')) at 1.
        apply Rmult_le_compat_r; lra.
Qed.

Lemma Zdigits2_ge (m k : Z) : 0 <= k -> 2 ^ k <= m -> k + 1 <= Zdigits2 m.
Proof.
  intros Hk H.
  assert (Hm : 0 < m) by (pose proof (Z.pow_pos_nonneg 2 k ltac:(lia) Hk); lia).
  pose proof (Zdigits2_pos_bounds m Hm) as [_ Hh].
  pose proof (Zdigits2_pos m Hm) as Hd.
  assert (H2 : 2 ^ k < 2 ^ Zdigits2 m) by lia.
  apply Z.pow_lt_mono_r_iff in H2; lia.
Qed.

Lemma Zdigits2_mul_pow2 (m d : Z) :
  0 < m -> 0 <= d -> Zdigits2 (m * 2 ^ d) = Zdigits2 m + d.
Proof.
  intros Hm Hd.
  pose proof (Zdigits2_pos_bounds m Hm) as [Hlo Hhi].
  pose proof (Zdigits2_pos m Hm) as Hp.
  assert (H2 : 0 < 2 ^ d) by (apply Z.pow_pos_nonneg; lia).
  apply Zdigits2_unique; [ | lia]. split.
  - replace (Zdigits2 m + d - 1) with (Zdigits2 m - 1 + d) by lia.
    rewrite Z.pow_add_r by lia. apply Z.mul_le_mono_nonneg_r; lia.
  - rewrite Z.pow_add_r by lia. apply Z.mul_lt_mono_pos_r; lia.
Qed.

Lemma SF2R_nonneg (z : spec_float) : nonneg_finite z -> (0 <= SF2R z)%R.
Proof.
  destruct z as [ sz | | | [ | ] m e ]; cbn [nonneg_finite SF2R cond_Zopp];
    try contradiction; intros _; [lra | ].
  apply Rmult_le_pos; [apply IZR_le; lia | apply Rlt_le, p2_pos].
Qed.

(** A float rounds to itself. *)
Lemma rounds_to_exact (z : spec_float) :
  nonneg_finite z -> SpecFloat.valid_binary prec emax z = true -> rounds_to (SF2R z) z.
Proof.
  intros Hn Hv. split.
  - intros _ E. rewrite E in Hn. exact Hn.
  - intros _. split; [exact Hn | split; [exact Hv | split; [ | tauto]]].
    replace (SF2R z - SF2R z)%R with 0%R by ring. rewrite Rabs_R0.
    pose proof (SF2R_nonneg z Hn). pose proof (p2_pos (-53)). pose proof (p2_pos (-1075)).
    assert (0 <= SF2R z * p2 (-53))%R by (apply Rmult_le_pos; lra). lra.
Qed.

Lemma valid_digits (m : positive) (e : Z) :
  SpecFloat.bounded prec emax m e = true ->
  -1074 <= e <= 971 /\ Zpos (digits2_pos m) <= 53 /\
  (-1074 < e -> Zpos (digits2_pos m) = 53).
Proof.
  unfold SpecFloat.bounded, canonical_mantissa.
  rewrite andb_true_iff, Z.eqb_eq, Z.leb_le, fexp_eq. change (emax - prec) with 971. lia.
Qed.

(** The product of two non-negative finite floats is their exact product,
    rounded. *)
Lemma SFmul_rounds (x y : spec_float) :
  SpecFloat.valid_binary prec emax x = true -> SpecFloat.valid_binary prec emax y = true ->
  nonneg_finite x -> nonneg_finite y ->
  rounds_to (SF2R x * SF2R y) (SFmul prec emax x y).
Proof.
  intros Hvx Hvy Hx Hy.
  destruct x as [ sx | | | [ | ] mx ex ]; try contradiction;
    destruct y as [ sy | | | [ | ] my ey ]; try contradiction;
    cbn [SFmul xorb].
  - replace (SF2R (S754_zero sx) * SF2R (S754_zero sy))%R
      with (SF2R (S754_zero (xorb sx sy))) by (cbn; ring).
    apply rounds_to_exact; [exact I | reflexivity].
  - replace (SF2R (S754_zero sx) * SF2R (S754_finite false my ey))%R
      with (SF2R (S754_zero (xorb sx false))) by (cbn; ring).
    apply rounds_to_exact; [exact I | reflexivity].
  - replace (SF2R (S754_finite false mx ex) * SF2R (S754_zero sy))%R
      with (SF2R (S754_zero sy)) by (cbn; ring).
    apply rounds_to_exact; [exact I | reflexivity].
  - cbn [SpecFloat.valid_binary] in Hvx, Hvy.
    destruct (valid_digits _ _ Hvx) as (Hex & Hdx & Hnx).
    destruct (valid_digits _ _ Hvy) as (Hey & Hdy & Hny).
    apply binary_round_aux_rounds with (num := Zpos (mx * my)) (den := 1).
    + lia.
    + lia.
    + cbn [inbetween]. lia.
    + rewrite fexp_eq.
      destruct (Z.le_gt_cases (ex + ey) (-1074)) as [Hle | Hgt]; [lia | ].
      pose proof (digits2_pos_bounds mx) as [Hlx _].
      pose proof (digits2_pos_bounds my) as [Hly _].
      assert (Hd : 53 <= Zdigits2 (Zpos (mx * my))).
      { destruct (Z.eq_dec ex (-1074)) as [Eex | Nex].
        - assert (Hy53 : Zpos (digits2_pos my) = 53) by (apply Hny; lia).
          rewrite Hy53 in Hly. change (2 ^ (53 - 1)) with (2 ^ 52) in Hly.
          apply (Zdigits2_ge _ 52); [lia | ]. rewrite Pos2Z.inj_mul. nia.
        - assert (Hx53 : Zpos (digits2_pos mx) = 53) by (apply Hnx; lia).
          rewrite Hx53 in Hlx. change (2 ^ (53 - 1)) with (2 ^ 52) in Hlx.
          apply (Zdigits2_ge _ 52); [lia | ]. rewrite Pos2Z.inj_mul. nia. }
      lia.
    + cbn [SF2R cond_Zopp]. rewrite Pos2Z.inj_mul, mult_IZR, p2_add. field.
Qed.

(** The sum of two non-negative finite floats is their exact sum, rounded. *)
Lemma SFadd_rounds (x y : spec_float) :
  SpecFloat.valid_binary prec emax x = true -> SpecFloat.valid_binary prec emax y = true ->
  nonneg_finite x -> nonneg_finite y ->
  rounds_to (SF2R x + SF2R y) (SFadd prec emax x y).
Proof.
  intros Hvx Hvy Hx Hy.
  destruct x as [ sx | | | [ | ] mx ex ]; try contradiction;
    destruct y as [ sy | | | [ | ] my ey ]; try contradiction.
  - replace (SF2R (S754_zero sx) + SF2R (S754_zero sy))%R
      with (SF2R (SFadd prec emax (S754_zero sx) (S754_zero sy)))
      by (destruct sx, sy; cbn; ring).
    apply rounds_to_exact; destruct sx, sy; [exact I .. | reflexivity | reflexivity
                                                 | reflexivity | reflexivity].
  - replace (SF2R (S754_zero sx) + SF2R (S754_finite false my ey))%R
      with (SF2R (S754_finite false my ey)) by (cbn; ring).
    apply rounds_to_exact; [exact I | exact Hvy].
  - replace (SF2R (S754_finite false mx ex) + SF2R (S754_zero sy))%R
      with (SF2R (S754_finite false mx ex)) by (cbn; ring).
    apply rounds_to_exact; [exact I | exact Hvx].
  - cbn [SpecFloat.valid_binary] in Hvx, Hvy.
    destruct (valid_digits _ _ Hvx) as (Hex & _ & _).
    destruct (valid_digits _ _ Hvy) as (Hey & _ & _).
    cbn [SFadd cond_Zopp].
    set (ez := Z.min ex ey).
    destruct (shl_align_spec mx ex ez) as [Hax _].
    destruct (shl_align_spec my ey ez) as [Hay _].
    replace (Z.max 0 (ex - ez)) with (ex - ez) in Hax by (unfold ez; lia).
    replace (Z.max 0 (ey - ez)) with (ey - ez) in Hay by (unfold ez; lia).
    set (a := fst (shl_align mx ex ez)) in *.
    set (b := fst (shl_align my ey ez)) in *.
    change (Zpos a + Zpos b) with (Zpos (a + b)). cbn [binary_normalize].
    unfold binary_round.
    set (f := fexp prec emax (Zpos (digits2_pos (a + b)) + ez)).
    destruct (shl_align_spec (a + b) ez f) as [Hmz Hez].
    destruct (shl_align (a + b) ez f) as [mz ez'] eqn:Esh. cbn [fst snd] in Hmz, Hez.
    set (d := Z.max 0 (ez - f)) in *.
    assert (Hd : 0 <= d) by (unfold d; lia).
    apply binary_round_aux_rounds with (num := Zpos mz) (den := 1).
    + lia.
    + lia.
    + cbn [inbetween]. lia.
    + rewrite Hmz, Zdigits2_mul_pow2 by lia.
      replace (Zdigits2 (Zpos (a + b)) + d + ez') with (Zpos (digits2_pos (a + b)) + ez)
        by (cbn [Zdigits2]; lia).
      fold f. unfold d in Hez. lia.
    + assert (E1 : p2 ex = (p2 (ex - ez) * p2 ez)%R)
        by (rewrite <- p2_add; f_equal; lia).
      assert (E2 : p2 ey = (p2 (ey - ez) * p2 ez)%R)
        by (rewrite <- p2_add; f_equal; lia).
      assert (E3 : p2 ez = (p2 d * p2 ez')%R)
        by (rewrite <- p2_add; f_equal; lia).
      cbn [SF2R cond_Zopp]. rewrite E1, E2, E3.
      rewrite Hmz, mult_IZR, Pos2Z.inj_add, plus_IZR, Hax, Hay.
      rewrite !mult_IZR, !p2_IZR by (unfold ez; lia).
      field.
Qed.

Lemma new_location_inbetween (q r nb : Z) :
  0 < nb -> 0 <= r < nb -> inbetween q (new_location nb r) (q * nb + r) nb.
Proof.
  intros Hnb Hr. unfold new_location.
  destruct (Z.even nb) eqn:Ev.
  - unfold new_location_even. destruct (Z.eqb_spec r 0) as [-> | Hne].
    + cbn [inbetween]. lia.
    + destruct (Z.compare_spec (2 * r) nb); cbn [inbetween]; lia.
  - unfold new_location_odd. destruct (Z.eqb_spec r 0) as [-> | Hne].
    + cbn [inbetween]. lia.
    + assert (Hodd : 2 * r <> nb).
      { intros E. rewrite <- E, Z.even_mul in Ev. discriminate Ev. }
      destruct (Z.compare_spec (2 * r + 1) nb); cbn [inbetween]; lia.
Qed.

(** The quotient of a non-negative finite float by a positive one is their
    exact quotient, rounded. *)
Lemma SFdiv_rounds (x : spec_float) (my : positive) (ey : Z) :
  SpecFloat.valid_binary prec emax x = true ->
  SpecFloat.bounded prec emax my ey = true ->
  nonneg_finite x ->
  rounds_to (SF2R x / SF2R (S754_finite false my ey))
    (SFdiv prec emax x (S754_finite false my ey)).
Proof.
  intros Hvx Hvy Hx.
  assert (HY : (0 < SF2R (S754_finite false my ey))%R).
  { cbn [SF2R cond_Zopp]. apply Rmult_lt_0_compat; [apply IZR_lt; lia | apply p2_pos]. }
  destruct x as [ sx | | | [ | ] mx ex ]; try contradiction.
  - cbn [SFdiv].
    replace (SF2R (S754_zero sx) / SF2R (S754_finite false my ey))%R
      with (SF2R (S754_zero (xorb sx false)))
      by (change (SF2R (S754_zero sx)) with 0%R; unfold Rdiv; cbn [SF2R]; ring).
    apply rounds_to_exact; [exact I | reflexivity].
  - cbn [SpecFloat.valid_binary] in Hvx.
    destruct (valid_digits _ _ Hvx) as (Hex & Hdx & _).
    destruct (valid_digits _ _ Hvy) as (Hey & Hdy & _).
    pose proof (digits2_pos_bounds mx) as [Hlx Hhx].
    pose proof (digits2_pos_bounds my) as [Hly Hhy].
    set (d1 := Zpos (digits2_pos mx)) in *. set (d2 := Zpos (digits2_pos my)) in *.
    assert (Hd1 : 1 <= d1) by (unfold d1; lia).
    assert (Hd2 : 1 <= d2) by (unfold d2; lia).
    cbn [SFdiv xorb]. unfold SFdiv_core_binary. cbn [Zdigits2]. fold d1 d2.
    rewrite fexp_eq.
    set (e' := Z.min (Z.max (d1 + ex - (d2 + ey) - 53) (-1074)) (ex - ey)).
    set (s := ex - ey - e').
    assert (Hs : 0 <= s) by (unfold s, e'; lia).
    assert (Em : match s with
                 | 0 => Zpos mx
                 | Zpos _ => Z.shiftl (Zpos mx) s
                 | Zneg _ => 0
                 end = Zpos mx * 2 ^ s).
    { destruct s as [ | p | p ]; [rewrite Z.pow_0_r; lia | | lia].
      rewrite Z.shiftl_mul_pow2 by lia. reflexivity. }
    rewrite Em, div_eucl_pair.
    set (m' := Zpos mx * 2 ^ s).
    assert (Hp : 0 < 2 ^ s) by (apply Z.pow_pos_nonneg; lia).
    assert (Hm' : 0 < m') by (unfold m'; lia).
    pose proof (Z.div_mod m' (Zpos my) ltac:(lia)) as Hdm.
    pose proof (Z.mod_pos_bound m' (Zpos my) ltac:(lia)) as Hr.
    assert (Hq : 0 <= m' / Zpos my) by (apply Z.div_pos; lia).
    apply binary_round_aux_rounds with (num := m') (den := Zpos my).
    + lia.
    + exact Hq.
    + pose proof (new_location_inbetween (m' / Zpos my) (m' mod Zpos my) (Zpos my)
                    ltac:(lia) Hr) as Hin.
      replace (m' / Zpos my * Zpos my + m' mod Zpos my) with m' in Hin by lia.
      exact Hin.
    + rewrite fexp_eq.
      destruct (Z.le_gt_cases e' (-1074)) as [Hle | Hgt]; [lia | ].
      assert (Ee : e' = d1 + ex - (d2 + ey) - 53) by (unfold e' in *; lia).
      assert (Es : s = 53 + d2 - d1) by (unfold s; lia).
      assert (Hbig : 2 ^ 52 <= m' / Zpos my).
      { apply Z.div_le_lower_bound; [lia | ].
        apply Z.le_trans with (2 ^ d2 * 2 ^ 52); [apply Z.mul_le_mono_nonneg_r; lia | ].
        unfold m'. rewrite Es.
        replace (53 + d2 - d1) with ((d2 + 52) - (d1 - 1)) by lia.
        apply Z.le_trans with (2 ^ (d1 - 1) * 2 ^ (d2 + 52 - (d1 - 1))).
        - rewrite <- !Z.pow_add_r by lia. apply Z.pow_le_mono_r; lia.
        - apply Z.mul_le_mono_nonneg_r; lia. }
      pose proof (Zdigits2_ge _ 52 ltac:(lia) Hbig). lia.
    + cbn [SF2R cond_Zopp]. unfold m'. rewrite mult_IZR, p2_IZR by lia.
      assert (E1 : p2 ex = (p2 s * p2 e' * p2 ey)%R).
      { rewrite <- !p2_add. f_equal. unfold s. lia. }
      rewrite E1. pose proof (p2_pos ey). pose proof (p2_pos e'). pose proof (p2_pos s).
      assert (IZR (Zpos my) <> 0)%R by (apply not_0_IZR; lia).
      field. split; lra.
Qed.

Local Open Scope R_scope.

(** The error of the round trip from the errors of its four operations. *)
Lemma round_trip_algebra (u eta B Rt G T D Q : R) :
  0 < u <= 1 / 64 -> 0 <= eta <= u ->
  0 <= B -> 0 <= Rt -> 0 <= G -> 0 <= T -> 1 <= D -> 0 <= Q ->
  Rabs (G - B * Rt) <= G * u + eta ->
  Rabs (T - (B + G)) <= T * u + eta ->
  Rabs (D - (1 + Rt)) <= D * u + eta ->
  Rabs (Q - T / D) <= Q * u + eta ->
  Rabs (Q - B) <= 8 * u * B + 4 * eta.
Proof.
  intros Hu He HB HR HG HT HD HQ H1 H2 H3 H4.
  apply Rabs_le_both in H1, H2, H3, H4.
  set (rho := / D).
  assert (Hrho : 0 < rho <= 1).
  { unfold rho. split; [apply Rinv_0_lt_compat; lra | ].
    rewrite <- Rinv_1. apply Rinv_le_contravar; lra. }
  assert (HDr : D * rho = 1) by (unfold rho; field; lra).
  unfold Rdiv in H4. fold rho in H4. clearbody rho.
  assert (Her : 0 <= eta * rho <= eta).
  { split; [apply Rmult_le_pos; lra | ].
    rewrite <- (Rmult_1_r eta) at 2. apply Rmult_le_compat_l; lra. }
  assert (Her2 : eta * rho <= rho).
  { rewrite <- (Rmult_1_l rho) at 2. apply Rmult_le_compat_r; lra. }
  assert (HDur : D * u * rho = u)
    by (replace (D * u * rho) with (u * (D * rho)) by ring; rewrite HDr; ring).
  (* R / D <= 1 + u *)
  assert (HRr : Rt * rho <= 1 + u).
  { assert (Rt * rho <= (D * (1 + u) - 1 + eta) * rho)
      by (apply Rmult_le_compat_r; lra).
    lra. }
  assert (HRr0 : 0 <= Rt * rho) by (apply Rmult_le_pos; lra).
  (* G / D *)
  assert (HGr0 : 0 <= G * rho) by (apply Rmult_le_pos; lra).
  assert (HGr : G * rho * (1 - u) <= B * (1 + u) + eta).
  { assert (G * (1 - u) * rho <= (B * Rt + eta) * rho)
      by (apply Rmult_le_compat_r; lra).
    assert (B * (Rt * rho) <= B * (1 + u)) by (apply Rmult_le_compat_l; lra).
    lra. }
  assert (HGr' : G * rho <= 2 * B + 2 * eta).
  { assert (G * rho * (15 / 16) <= G * rho * (1 - u))
      by (apply Rmult_le_compat_l; lra).
    assert (B * u <= B * (1 / 16)) by (apply Rmult_le_compat_l; lra).
    lra. }
  (* T / D *)
  assert (HTr0 : 0 <= T * rho) by (apply Rmult_le_pos; lra).
  assert (HQu : 0 <= Q * u <= Q * (1 / 16))
    by (split; [apply Rmult_le_pos; lra | apply Rmult_le_compat_l; lra]).
  assert (HTr : T * rho <= Q + Q * u + eta) by lra.
  (* the four error terms over D *)
  assert (Ha1 : - (u * (G * rho) + eta) <= (G - B * Rt) * rho <= u * (G * rho) + eta).
  { split.
    - assert (- (G * u + eta) * rho <= (G - B * Rt) * rho)
        by (apply Rmult_le_compat_r; lra). lra.
    - assert ((G - B * Rt) * rho <= (G * u + eta) * rho)
        by (apply Rmult_le_compat_r; lra). lra. }
  assert (Ha2 : - (u * (T * rho) + eta) <= (T - (B + G)) * rho <= u * (T * rho) + eta).
  { split.
    - assert (- (T * u + eta) * rho <= (T - (B + G)) * rho)
        by (apply Rmult_le_compat_r; lra). lra.
    - assert ((T - (B + G)) * rho <= (T * u + eta) * rho)
        by (apply Rmult_le_compat_r; lra). lra. }
  assert (Ha3 : - (u + eta) <= (D - (1 + Rt)) * rho <= u + eta).
  { split.
    - assert (- (D * u + eta) * rho <= (D - (1 + Rt)) * rho)
        by (apply Rmult_le_compat_r; lra). lra.
    - assert ((D - (1 + Rt)) * rho <= (D * u + eta) * rho)
        by (apply Rmult_le_compat_r; lra). lra. }
  assert (Ha3B : - (B * (u + eta)) <= B * ((D - (1 + Rt)) * rho) <= B * (u + eta)).
  { split.
    - replace (- (B * (u + eta))) with (B * - (u + eta)) by ring.
      apply Rmult_le_compat_l; lra.
    - apply Rmult_le_compat_l; lra. }
  assert (HBe : 0 <= B * eta <= B * u)
    by (split; [apply Rmult_le_pos; lra | apply Rmult_le_compat_l; lra]).
  assert (HBu : 0 <= B * u <= B * (1 / 16))
    by (split; [apply Rmult_le_pos; lra | apply Rmult_le_compat_l; lra]).
  (* the decomposition *)
  assert (Edec : Q - B = (Q - T * rho) + (T - (B + G)) * rho + (G - B * Rt) * rho
                         - B * ((D - (1 + Rt)) * rho)).
  { replace B with (B * (D * rho)) at 1 by (rewrite HDr; ring). ring. }
  assert (HuG : 0 <= u * (G * rho) <= u * (2 * B + 2 * eta))
    by (split; [apply Rmult_le_pos; lra | apply Rmult_le_compat_l; lra]).
  assert (HuT : 0 <= u * (T * rho) <= u * (Q + Q * u + eta))
    by (split; [apply Rmult_le_pos; lra | apply Rmult_le_compat_l; lra]).
  assert (Hue : 0 <= u * eta <= eta * (1 / 16)).
  { split; [apply Rmult_le_pos; lra | ].
    rewrite (Rmult_comm u eta). apply Rmult_le_compat_l; lra. }
  assert (HuQu : 0 <= u * (Q * u) <= (Q * u) * (1 / 16)).
  { split; [apply Rmult_le_pos; lra | ].
    rewrite (Rmult_comm u (Q * u)). apply Rmult_le_compat_l; lra. }
  assert (Hmain : Rabs (Q - B) <= 4 * (B * u) + 3 * (Q * u) + 4 * eta - eta / 2).
  { apply Rabs_le. rewrite Edec. split; lra. }
  pose proof (Rabs_pos (Q - B)) as HE0.
  pose proof (Rle_abs (Q - B)) as HE1.
  set (E := Rabs (Q - B)) in *. clearbody E.
  assert (HQE : Q * u <= (B + E) * u) by (apply Rmult_le_compat_r; lra).
  assert (HEu : E * u <= E * (1 / 64)) by (apply Rmult_le_compat_l; lra).
  lra.
Qed.

Local Close Scope R_scope.

Lemma p2_3 : p2 3 = 8%R.
Proof. rewrite <- p2_IZR by lia. reflexivity. Qed.

Lemma p2_2 : p2 2 = 4%R.
Proof. rewrite <- p2_IZR by lia. reflexivity. Qed.

Lemma p2_0 : p2 0 = 1%R.
Proof. reflexivity. Qed.

Lemma p2_m6 : p2 (-6) = (1 / 64)%R.
Proof.
  assert (E : (p2 (-6) * p2 6 = 1)%R) by (rewrite <- p2_add; reflexivity).
  rewrite <- (p2_IZR 6) in E by lia. change (IZR (2 ^ 6)) with 64%R in E. lra.
Qed.

Lemma SF2R_le_max (z : spec_float) :
  SpecFloat.valid_binary prec emax z = true -> nonneg_finite z ->
  (SF2R z <= p2 1024 - p2 971)%R.
Proof.
  assert (Hmax : (0 < p2 1024 - p2 971)%R) by (pose proof (p2_lt 971 1024 ltac:(lia)); lra).
  destruct z as [ sz | | | [ | ] m e ]; cbn [nonneg_finite SF2R cond_Zopp];
    try contradiction; intros Hv _; [lra | ].
  cbn [SpecFloat.valid_binary] in Hv.
  destruct (valid_digits _ _ Hv) as (He & Hd & _).
  pose proof (digits2_pos_bounds m) as [_ Hh].
  assert (Hm : Zpos m <= 2 ^ 53 - 1).
  { assert (2 ^ Zpos (digits2_pos m) <= 2 ^ 53) by (apply Z.pow_le_mono_r; lia). lia. }
  apply IZR_le in Hm. rewrite minus_IZR, p2_IZR in Hm by lia.
  pose proof (p2_pos e) as Hpe. pose proof (p2_le e 971 ltac:(lia)) as Hle.
  replace (p2 1024) with (p2 53 * p2 971)%R by (rewrite <- p2_add; reflexivity).
  apply Rle_trans with ((p2 53 - 1) * p2 e)%R.
  - apply Rmult_le_compat_r; lra.
  - replace (p2 53 * p2 971 - p2 971)%R with ((p2 53 - 1) * p2 971)%R by ring.
    apply Rmult_le_compat_l; [ | exact Hle].
    pose proof (p2_ge_1 53 ltac:(lia)). lra.
Qed.

Lemma SF2R_one : SF2R SF_one = 1%R.
Proof.
  cbn [SF_one SF2R cond_Zopp].
  replace (IZR 4503599627370496) with (p2 52) by (rewrite <- p2_IZR by lia; reflexivity).
  rewrite <- p2_add. reflexivity.
Qed.

(** The round trip on spec floats: excluded to included and back. *)
Lemma round_trip_SF (b r : spec_float) :
  SpecFloat.valid_binary prec emax b = true -> SpecFloat.valid_binary prec emax r = true ->
  nonneg_finite b -> nonneg_finite r ->
  let g := SFmul prec emax b r in
  let t := SFadd prec emax b g in
  let d := SFadd prec emax SF_one r in
  let q := SFdiv prec emax t d in
  t <> S754_infinity false ->
  nonneg_finite q /\
  (Rabs (SF2R q - SF2R b) <= SF2R b * p2 (-50) + p2 (-1073))%R.
Proof.
  intros Hvb Hvr Hb Hr g t d q Hti.
  pose proof (SF2R_nonneg b Hb) as HB0. pose proof (SF2R_nonneg r Hr) as HR0.
  assert (H970 : p2 971 = (2 * p2 970)%R).
  { change 971 with (1 + 970). rewrite p2_add. change (p2 1) with (2 * 1)%R. ring. }
  pose proof (p2_lt 0 970 ltac:(lia)) as H0970. rewrite p2_0 in H0970.
  (* the GST *)
  destruct (SFmul_rounds b r Hvb Hvr Hb Hr) as [_ Hg]. fold g in Hg.
  assert (Hgi : g <> S754_infinity false).
  { intros E. apply Hti. unfold t. rewrite E.
    destruct b as [ sb | | | [ | ] mb eb ]; try contradiction; reflexivity. }
  destruct (Hg Hgi) as (Hgn & Hgv & Hge & _).
  pose proof (SF2R_nonneg g Hgn) as HG0.
  (* the total *)
  destruct (SFadd_rounds b g Hvb Hgv Hb Hgn) as [_ Htr]. fold t in Htr.
  destruct (Htr Hti) as (Ht & Htv & Hte & _).
  pose proof (SF2R_nonneg t Ht) as HT0.
  pose proof (SF2R_le_max t Htv Ht) as HTmax.
  (* the divisor *)
  assert (Hv1 : SpecFloat.valid_binary prec emax SF_one = true) by reflexivity.
  destruct (SFadd_rounds SF_one r Hv1 Hvr I Hr) as [Hdf Hdr]. fold d in Hdf, Hdr.
  rewrite SF2R_one in Hdf, Hdr.
  pose proof (SF2R_le_max r Hvr Hr) as HRmax.
  assert (Hdi : d <> S754_infinity false) by (apply Hdf; lra).
  destruct (Hdr Hdi) as (Hdn & Hdv & Hde & Hdm).
  assert (HD1 : (1 <= SF2R d)%R).
  { rewrite <- p2_0. apply Hdm; [lia | rewrite p2_0; lra]. }
  destruct d as [ sd | | | [ | ] md ed ] eqn:Ed; try contradiction;
    [cbn [SF2R] in HD1; lra | ].
  (* the quotient *)
  cbn [SpecFloat.valid_binary] in Hdv.
  destruct (SFdiv_rounds t md ed Htv Hdv Ht) as [Hqf Hqr]. fold q in Hqf, Hqr.
  set (D := SF2R (S754_finite false md ed)) in *.
  assert (HTD : (SF2R t / D <= SF2R t)%R).
  { apply Rmult_le_reg_r with D; [lra | ].
    replace (SF2R t / D * D)%R with (SF2R t) by (field; lra).
    rewrite <- (Rmult_1_r (SF2R t)) at 1. apply Rmult_le_compat_l; lra. }
  assert (Hqi : q <> S754_infinity false) by (apply Hqf; lra).
  destruct (Hqr Hqi) as (Hqn & _ & Hqe & _).
  split; [exact Hqn | ].
  pose proof (SF2R_nonneg q Hqn) as HQ0.
  assert (Hu : (0 < p2 (-53) <= 1 / 64)%R).
  { split; [apply p2_pos | rewrite <- p2_m6; apply p2_le; lia]. }
  assert (He : (0 <= p2 (-1075) <= p2 (-53))%R).
  { split; [apply Rlt_le, p2_pos | apply p2_le; lia]. }
  pose proof (round_trip_algebra (p2 (-53)) (p2 (-1075)) (SF2R b) (SF2R r) (SF2R g)
                (SF2R t) D (SF2R q) Hu He HB0 HR0 HG0 HT0 HD1 HQ0 Hge Hte Hde Hqe) as Hfin.
  replace (p2 (-50)) with (8 * p2 (-53))%R by (rewrite <- p2_3, <- p2_add; reflexivity).
  replace (p2 (-1073)) with (4 * p2 (-1075))%R by (rewrite <- p2_2, <- p2_add; reflexivity).
  lra.
Qed.

Lemma le_zero_float (x : float) :
  Py.le (VInt 0) (VFloat x) = true ->
  match Prim2SF x with
  | S754_zero _ | S754_finite false _ _ | S754_infinity false => True
  | _ => False
  end.
Proof.
  unfold Py.le. cbn [Py.compare].
  pose proof (compare_float_zero x) as Hc. cbn [Py.compare] in Hc. rewrite Hc.
  destruct (Prim2SF x) as [ s | [ | ] | | [ | ] m e ]; cbn; try discriminate; trivial.
Qed.

(** C5, amended.  For every base >= 0 and rate >= 0 whose total
    [base + base * rate] does not overflow, the round trip without rounding
    returns a finite base within [base * 2 ^ -50 + 2 ^ -1073] of the base
    it started from. *)
Theorem round_trip_within_tolerance (base rate : float) :
  Py.le (VInt 0) (VFloat base) = true ->
  Py.le (VInt 0) (VFloat rate) = true ->
  is_finite (base + base * rate) = true ->
  round_trip_close base rate.
Proof.
  intros Hb Hr Ht. apply le_zero_float in Hb, Hr.
  pose proof (Prim2SF_valid base) as Hvb. pose proof (Prim2SF_valid rate) as Hvr.
  assert (Et : Prim2SF (base + base * rate)
               = SFadd prec emax (Prim2SF base) (SFmul prec emax (Prim2SF base) (Prim2SF rate)))
    by (rewrite add_spec, mul_spec; reflexivity).
  assert (Ed : Prim2SF (1 + rate) = SFadd prec emax SF_one (Prim2SF rate))
    by (rewrite add_spec, Prim2SF_one; reflexivity).
  assert (Eq : Prim2SF ((base + base * rate) / (1 + rate))
               = SFdiv prec emax (Prim2SF (base + base * rate)) (Prim2SF (1 + rate)))
    by (rewrite div_spec; reflexivity).
  assert (Hlt : (rate <? 0)%float = false).
  { rewrite ltb_spec, Prim2SF_zero.
    destruct (Prim2SF rate) as [ s | [ | ] | | [ | ] m e ]; try contradiction; reflexivity. }
  unfold is_finite in Ht. rewrite Et in Ht.
  assert (Hnb : nonneg_finite (Prim2SF base) /\ nonneg_finite (Prim2SF rate)).
  { destruct (Prim2SF base) as [ sb | [ | ] | | [ | ] mb eb ]; try contradiction;
      destruct (Prim2SF rate) as [ sr | [ | ] | | [ | ] mr er ]; try contradiction;
      cbn [nonneg_finite]; try (split; exact I); cbn in Ht; discriminate Ht. }
  destruct Hnb as [Hnb Hnr].
  assert (Hti : SFadd prec emax (Prim2SF base)
                  (SFmul prec emax (Prim2SF base) (Prim2SF rate)) <> S754_infinity false).
  { intros E. rewrite E in Ht. discriminate Ht. }
  destruct (round_trip_SF (Prim2SF base) (Prim2SF rate) Hvb Hvr Hnb Hnr Hti) as [Hq Hbound].
  unfold round_trip_close. cbv zeta.
  split; [apply (calc_from_excluded_plain base rate None); reflexivity | ].
  split.
  { pose proof (calc_from_included_plain (base + base * rate) rate None eq_refl) as H.
    cbv zeta in H. rewrite Hlt in H. exact H. }
  rewrite Et, Ed in Eq. unfold is_finite, float_real. rewrite Eq.
  split; [ | exact Hbound].
  destruct (SFdiv prec emax
              (SFadd prec emax (Prim2SF base)
                 (SFmul prec emax (Prim2SF base) (Prim2SF rate)))
              (SFadd prec emax SF_one (Prim2SF rate)))
    as [ s | | | [ | ] m e ]; try contradiction; reflexivity.
Qed.

Lemma round_trip_within_tolerance_witness :
  Py.le (VInt 0) (VFloat 100) = true /\
  Py.le (VInt 0) (VFloat 0.18) = true /\
  is_finite (100 + 100 * 0.18) = true /\
  round_trip_close 100 0.18.
Proof.
  split; [reflexivity | split; [reflexivity | split; [reflexivity | ]]].
  exact (round_trip_within_tolerance 100 0.18 eq_refl eq_refl eq_refl).
Defined.

End RoundTrip.

(** ** Rounding keeps the order *)

Module Bounds.
Import Reals Lra.
Import FloatFacts PyFacts RealValue RoundTrip Nearest.
Local Open Scope Z_scope.

Lemma bounded_R (mb : positive) (eb : Z) :
  SpecFloat.bounded prec emax mb eb = true ->
  (IZR (Zpos mb) * p2 eb < p2 (Zpos (digits2_pos mb) + eb))%R /\
  (p2 (Zpos (digits2_pos mb) - 1 + eb) <= IZR (Zpos mb) * p2 eb)%R.
Proof.
  intros Hb. pose proof (digits2_pos_bounds mb) as [Hlo Hhi].
  pose proof (p2_pos eb) as Hp.
  split.
  - rewrite p2_add, <- (p2_IZR (Zpos (digits2_pos mb))) by lia.
    apply Rmult_lt_compat_r; [exact Hp | ]. apply IZR_lt. exact Hhi.
  - rewrite p2_add, <- (p2_IZR (Zpos (digits2_pos mb) - 1)) by lia.
    apply Rmult_le_compat_r; [lra | ]. apply IZR_le. exact Hlo.
Qed.

(** A float below the exact value stays below the rounded one. *)
Lemma binary_round_aux_ge (m e : Z) (l : location) (num den : Z) (X : R)
    (mb : positive) (eb : Z) :
  0 < den -> 0 <= m -> inbetween m l num den ->
  e <= fexp prec emax (Zdigits2 m + e) ->
  X = (IZR num / IZR den * p2 e)%R ->
  SpecFloat.bounded prec emax mb eb = true ->
  (IZR (Zpos mb) * p2 eb <= X)%R ->
  let z := binary_round_aux prec emax false m e l in
  z = S754_infinity false \/
  (nonneg_finite z /\ SpecFloat.valid_binary prec emax z = true /\
   (IZR (Zpos mb) * p2 eb <= SF2R z)%R).
Proof.
  intros Hden Hm Hin He HX Hb HB. cbv zeta.
  destruct (binary_round_aux_R false m e l num den X Hden Hm Hin He HX)
    as (m2 & Hm2 & Hf & He' & Herr & E).
  set (e' := fexp prec emax (Zdigits2 m + e)) in *. clearbody e'.
  rewrite E.
  destruct (SF_round_cases m2 e' Hm2 Hf He') as [[Einf _] | (Hnn & Hv & Hval)];
    [left; exact Einf | right].
  split; [exact Hnn | split; [exact Hv | ]]. rewrite Hval.
  destruct (valid_digits _ _ Hb) as (Heb & Hdb & _).
  destruct (bounded_R _ _ Hb) as [Hlt _].
  pose proof (p2_pos e') as Hpe.
  apply Rabs_le_both in Herr.
  destruct (Z.le_gt_cases e' eb) as [Hle | Hgt].
  - assert (Ek : p2 eb = (IZR (2 ^ (eb - e')) * p2 e')%R).
    { rewrite p2_IZR, <- p2_add by lia. f_equal. lia. }
    rewrite Ek in *. rewrite <- Rmult_assoc, <- mult_IZR in *.
    apply Rmult_le_compat_r; [lra | ]. apply IZR_le.
    assert (Hlt2 : (IZR (Zpos mb * 2 ^ (eb - e') - 1) < IZR m2)%R).
    { rewrite minus_IZR. apply Rmult_lt_reg_r with (p2 e'); [exact Hpe | ]. lra. }
    apply lt_IZR in Hlt2. lia.
  - destruct Hf as [Hf | Hf]; [ | lia].
    apply IZR_le in Hf. rewrite p2_IZR in Hf by lia.
    apply Rle_trans with (p2 (Zpos (digits2_pos mb) + eb)); [lra | ].
    apply Rle_trans with (p2 52 * p2 e')%R.
    + rewrite <- p2_add. apply p2_le. lia.
    + apply Rmult_le_compat_r; lra.
Qed.

(** A float above the exact value stays above the rounded one, which
    therefore does not overflow. *)
Lemma binary_round_aux_le (m e : Z) (l : location) (num den : Z) (X : R)
    (mb : positive) (eb : Z) :
  0 < den -> 0 <= m -> inbetween m l num den ->
  e <= fexp prec emax (Zdigits2 m + e) ->
  X = (IZR num / IZR den * p2 e)%R ->
  SpecFloat.bounded prec emax mb eb = true ->
  (X <= IZR (Zpos mb) * p2 eb)%R ->
  let z := binary_round_aux prec emax false m e l in
  nonneg_finite z /\ SpecFloat.valid_binary prec emax z = true /\
  (SF2R z <= IZR (Zpos mb) * p2 eb)%R.
Proof.
  intros Hden Hm Hin He HX Hb HB. cbv zeta.
  destruct (binary_round_aux_R false m e l num den X Hden Hm Hin He HX)
    as (m2 & Hm2 & Hf & He' & Herr & E).
  destruct (valid_digits _ _ Hb) as (Heb & Hdb & _).
  destruct (bounded_R _ _ Hb) as [Hlt _].
  assert (Hcan : fexp prec emax (Zpos (digits2_pos mb) + eb) = eb).
  { unfold SpecFloat.bounded, canonical_mantissa in Hb.
    apply andb_true_iff in Hb. destruct Hb as [Hb _]. apply Z.eqb_eq in Hb. exact Hb. }
  assert (HD : (0 < IZR den)%R) by (apply IZR_lt; exact Hden).
  assert (Hfloor : (IZR m * p2 e <= X)%R).
  { rewrite HX. pose proof (inbetween_floor m l num den Hden Hin) as Hfl.
    apply IZR_le in Hfl. rewrite mult_IZR in Hfl.
    pose proof (p2_pos e) as Hpe.
    apply Rmult_le_compat_r; [lra | ].
    apply Rmult_le_reg_r with (IZR den); [exact HD | ].
    replace (IZR num / IZR den * IZR den)%R with (IZR num) by (field; lra). exact Hfl. }
  assert (Hee : fexp prec emax (Zdigits2 m + e) <= eb).
  { destruct (Z.eq_dec m 0) as [-> | Hm0].
    - rewrite fexp_eq in *. cbn [Zdigits2] in *. lia.
    - pose proof (Zdigits2_pos_bounds m ltac:(lia)) as [Hlo _].
      pose proof (Zdigits2_pos m ltac:(lia)) as Hdp.
      apply IZR_le in Hlo. rewrite p2_IZR in Hlo by lia.
      assert (Hlt2 : (p2 (Zdigits2 m - 1 + e) < p2 (Zpos (digits2_pos mb) + eb))%R).
      { rewrite p2_add. pose proof (p2_pos e) as Hpe.
        apply Rle_lt_trans with (IZR m * p2 e)%R;
          [apply Rmult_le_compat_r; lra | lra]. }
      apply p2_lt_inv in Hlt2. rewrite <- Hcan. rewrite !fexp_eq. lia. }
  set (e' := fexp prec emax (Zdigits2 m + e)) in *. clearbody e'.
  rewrite E.
  pose proof (p2_pos e') as Hpe.
  apply Rabs_le_both in Herr.
  assert (Ek : p2 eb = (IZR (2 ^ (eb - e')) * p2 e')%R).
  { rewrite p2_IZR, <- p2_add by lia. f_equal. lia. }
  assert (Hle : (IZR m2 * p2 e' <= IZR (Zpos mb) * p2 eb)%R).
  { rewrite Ek in *. rewrite <- Rmult_assoc, <- mult_IZR in *.
    apply Rmult_le_compat_r; [lra | ]. apply IZR_le.
    assert (Hlt2 : (IZR m2 < IZR (Zpos mb * 2 ^ (eb - e') + 1))%R).
    { rewrite plus_IZR. apply Rmult_lt_reg_r with (p2 e'); [exact Hpe | ]. lra. }
    apply lt_IZR in Hlt2. lia. }
  pose proof (SF2R_le_max (S754_finite false mb eb) Hb I) as Hmax.
  cbn [SF2R cond_Zopp] in Hmax.
  pose proof (p2_pos 971) as Hp971.
  destruct (SF_round_cases m2 e' Hm2 Hf He') as [[_ Hbig] | (Hnn & Hv & Hval)]; [lra | ].
  split; [exact Hnn | split; [exact Hv | ]]. rewrite Hval. exact Hle.
Qed.

Lemma rounding_of_exact (z : spec_float) :
  nonneg_finite z -> SpecFloat.valid_binary prec emax z = true -> rounding_of (SF2R z) z.
Proof. intros Hn Hv. left. repeat split; assumption. Qed.

Lemma rounding_of_ge (X : R) (z b : spec_float) :
  rounding_of X z ->
  nonneg_finite b -> SpecFloat.valid_binary prec emax b = true ->
  (SF2R b <= X)%R ->
  z = S754_infinity false \/
  (nonneg_finite z /\ SpecFloat.valid_binary prec emax z = true /\ (SF2R b <= SF2R z)%R).
Proof.
  intros [(Hn & Hv & <-) | (m & e & l & num & den & Hden & Hm & Hin & He & HX & ->)] Hb Hvb HB.
  - right. repeat split; assumption.
  - destruct b as [ sb | | | [ | ] mb eb ]; try contradiction.
    + destruct (binary_round_aux_R false m e l num den X Hden Hm Hin He HX)
        as (m2 & Hm2 & Hf & He' & _ & E).
      rewrite E.
      destruct (SF_round_cases m2 _ Hm2 Hf He') as [[Einf _] | (Hnn & Hv & Hval)];
        [left; exact Einf | right].
      split; [exact Hnn | split; [exact Hv | ]]. cbn [SF2R].
      apply SF2R_nonneg, Hnn.
    + apply (binary_round_aux_ge m e l num den X mb eb); assumption.
Qed.

Lemma rounding_of_le (X : R) (z b : spec_float) :
  rounding_of X z ->
  nonneg_finite b -> SpecFloat.valid_binary prec emax b = true ->
  (0 <= X <= SF2R b)%R ->
  nonneg_finite z /\ SpecFloat.valid_binary prec emax z = true /\ (SF2R z <= SF2R b)%R.
Proof.
  intros [(Hn & Hv & <-) | (m & e & l & num & den & Hden & Hm & Hin & He & HX & ->)] Hb Hvb HB.
  - repeat split; try assumption. lra.
  - destruct b as [ sb | | | [ | ] mb eb ]; try contradiction.
    + cbn [SF2R] in HB. assert (X0 : X = 0%R) by lra.
      destruct (binary_round_aux_R false m e l num den X Hden Hm Hin He HX)
        as (m2 & Hm2 & Hf & He' & Herr & E).
      rewrite E.
      assert (E0 : m2 = 0).
      { rewrite X0 in Herr. apply Rabs_le_both in Herr.
        pose proof (p2_pos (fexp prec emax (Zdigits2 m + e))) as Hpe.
        assert (Hlt : (IZR m2 < IZR 1)%R).
        { apply Rmult_lt_reg_r with (p2 (fexp prec emax (Zdigits2 m + e))); [exact Hpe | ].
          lra. }
        apply lt_IZR in Hlt. lia. }
      rewrite E0. cbn. repeat split. lra.
    + apply (binary_round_aux_le m e l num den X mb eb); try assumption. apply HB.
Qed.


Lemma rounding_of_aux (m e : Z) (l : location) (num den : Z) (X : R) :
  0 < den -> 0 <= m -> inbetween m l num den ->
  e <= fexp prec emax (Zdigits2 m + e) ->
  X = (IZR num / IZR den * p2 e)%R ->
  rounding_of X (binary_round_aux prec emax false m e l).
Proof.
  intros Hden Hm Hin He HX. right. exists m, e, l, num, den.
  repeat split; assumption.
Qed.

(** The product, the sum, the difference and the quotient of non-negative
    finite floats come from the exact ones by rounding. *)
Lemma SFmul_rounding (x y : spec_float) :
  SpecFloat.valid_binary prec emax x = true -> SpecFloat.valid_binary prec emax y = true ->
  nonneg_finite x -> nonneg_finite y ->
  rounding_of (SF2R x * SF2R y) (SFmul prec emax x y).
Proof.
  intros Hvx Hvy Hx Hy.
  destruct x as [ sx | | | [ | ] mx ex ]; try contradiction;
    destruct y as [ sy | | | [ | ] my ey ]; try contradiction;
    cbn [SFmul xorb].
  - replace (SF2R (S754_zero sx) * SF2R (S754_zero sy))%R
      with (SF2R (S754_zero (xorb sx sy))) by (cbn; ring).
    apply rounding_of_exact; [exact I | reflexivity].
  - replace (SF2R (S754_zero sx) * SF2R (S754_finite false my ey))%R
      with (SF2R (S754_zero (xorb sx false))) by (cbn; ring).
    apply rounding_of_exact; [exact I | reflexivity].
  - replace (SF2R (S754_finite false mx ex) * SF2R (S754_zero sy))%R
      with (SF2R (S754_zero sy)) by (cbn; ring).
    apply rounding_of_exact; [exact I | reflexivity].
  - cbn [SpecFloat.valid_binary] in Hvx, Hvy.
    destruct (valid_digits _ _ Hvx) as (Hex & Hdx & Hnx).
    destruct (valid_digits _ _ Hvy) as (Hey & Hdy & Hny).
    apply rounding_of_aux with (num := Zpos (mx * my)) (den := 1).
    + lia.
    + lia.
    + cbn [inbetween]. lia.
    + rewrite fexp_eq.
      destruct (Z.le_gt_cases (ex + ey) (-1074)) as [Hle | Hgt]; [lia | ].
      pose proof (digits2_pos_bounds mx) as [Hlx _].
      pose proof (digits2_pos_bounds my) as [Hly _].
      assert (Hd : 53 <= Zdigits2 (Zpos (mx * my))).
      { destruct (Z.eq_dec ex (-1074)) as [Eex | Nex].
        - assert (Hy53 : Zpos (digits2_pos my) = 53) by (apply Hny; lia).
          rewrite Hy53 in Hly. change (2 ^ (53 - 1)) with (2 ^ 52) in Hly.
          apply (Zdigits2_ge _ 52); [lia | ]. rewrite Pos2Z.inj_mul. nia.
        - assert (Hx53 : Zpos (digits2_pos mx) = 53) by (apply Hnx; lia).
          rewrite Hx53 in Hlx. change (2 ^ (53 - 1)) with (2 ^ 52) in Hlx.
          apply (Zdigits2_ge _ 52); [lia | ]. rewrite Pos2Z.inj_mul. nia. }
      lia.
    + cbn [SF2R cond_Zopp]. rewrite Pos2Z.inj_mul, mult_IZR, p2_add. field.
Qed.

Lemma SFadd_rounding (x y : spec_float) :
  SpecFloat.valid_binary prec emax x = true -> SpecFloat.valid_binary prec emax y = true ->
  nonneg_finite x -> nonneg_finite y ->
  rounding_of (SF2R x + SF2R y) (SFadd prec emax x y).
Proof.
  intros Hvx Hvy Hx Hy.
  destruct x as [ sx | | | [ | ] mx ex ]; try contradiction;
    destruct y as [ sy | | | [ | ] my ey ]; try contradiction.
  - replace (SF2R (S754_zero sx) + SF2R (S754_zero sy))%R
      with (SF2R (SFadd prec emax (S754_zero sx) (S754_zero sy)))
      by (destruct sx, sy; cbn; ring).
    apply rounding_of_exact; destruct sx, sy; [exact I .. | reflexivity | reflexivity
                                                 | reflexivity | reflexivity].
  - replace (SF2R (S754_zero sx) + SF2R (S754_finite false my ey))%R
      with (SF2R (S754_finite false my ey)) by (cbn; ring).
    apply rounding_of_exact; [exact I | exact Hvy].
  - replace (SF2R (S754_finite false mx ex) + SF2R (S754_zero sy))%R
      with (SF2R (S754_finite false mx ex)) by (cbn; ring).
    apply rounding_of_exact; [exact I | exact Hvx].
  - cbn [SpecFloat.valid_binary] in Hvx, Hvy.
    destruct (valid_digits _ _ Hvx) as (Hex & _ & _).
    destruct (valid_digits _ _ Hvy) as (Hey & _ & _).
    cbn [SFadd cond_Zopp].
    set (ez := Z.min ex ey).
    destruct (shl_align_spec mx ex ez) as [Hax _].
    destruct (shl_align_spec my ey ez) as [Hay _].
    replace (Z.max 0 (ex - ez)) with (ex - ez) in Hax by (unfold ez; lia).
    replace (Z.max 0 (ey - ez)) with (ey - ez) in Hay by (unfold ez; lia).
    set (a := fst (shl_align mx ex ez)) in *.
    set (b := fst (shl_align my ey ez)) in *.
    change (Zpos a + Zpos b) with (Zpos (a + b)). cbn [binary_normalize].
    unfold binary_round.
    set (f := fexp prec emax (Zpos (digits2_pos (a + b)) + ez)).
    destruct (shl_align_spec (a + b) ez f) as [Hmz Hez].
    destruct (shl_align (a + b) ez f) as [mz ez'] eqn:Esh. cbn [fst snd] in Hmz, Hez.
    set (d := Z.max 0 (ez - f)) in *.
    assert (Hd : 0 <= d) by (unfold d; lia).
    apply rounding_of_aux with (num := Zpos mz) (den := 1).
    + lia.
    + lia.
    + cbn [inbetween]. lia.
    + rewrite Hmz, Zdigits2_mul_pow2 by lia.
      replace (Zdigits2 (Zpos (a + b)) + d + ez') with (Zpos (digits2_pos (a + b)) + ez)
        by (cbn [Zdigits2]; lia).
      fold f. unfold d in Hez. lia.
    + assert (E1 : p2 ex = (p2 (ex - ez) * p2 ez)%R)
        by (rewrite <- p2_add; f_equal; lia).
      assert (E2 : p2 ey = (p2 (ey - ez) * p2 ez)%R)
        by (rewrite <- p2_add; f_equal; lia).
      assert (E3 : p2 ez = (p2 d * p2 ez')%R)
        by (rewrite <- p2_add; f_equal; lia).
      cbn [SF2R cond_Zopp]. rewrite E1, E2, E3.
      rewrite Hmz, mult_IZR, Pos2Z.inj_add, plus_IZR, Hax, Hay.
      rewrite !mult_IZR, !p2_IZR by (unfold ez; lia).
      field.
Qed.

Lemma SFdiv_rounding (x : spec_float) (my : positive) (ey : Z) :
  SpecFloat.valid_binary prec emax x = true ->
  SpecFloat.bounded prec emax my ey = true ->
  nonneg_finite x ->
  rounding_of (SF2R x / SF2R (S754_finite false my ey))
    (SFdiv prec emax x (S754_finite false my ey)).
Proof.
  intros Hvx Hvy Hx.
  assert (HY : (0 < SF2R (S754_finite false my ey))%R).
  { cbn [SF2R cond_Zopp]. apply Rmult_lt_0_compat; [apply IZR_lt; lia | apply p2_pos]. }
  destruct x as [ sx | | | [ | ] mx ex ]; try contradiction.
  - cbn [SFdiv].
    replace (SF2R (S754_zero sx) / SF2R (S754_finite false my ey))%R
      with (SF2R (S754_zero (xorb sx false)))
      by (change (SF2R (S754_zero sx)) with 0%R; unfold Rdiv; cbn [SF2R]; ring).
    apply rounding_of_exact; [exact I | reflexivity].
  - cbn [SpecFloat.valid_binary] in Hvx.
    destruct (valid_digits _ _ Hvx) as (Hex & Hdx & _).
    destruct (valid_digits _ _ Hvy) as (Hey & Hdy & _).
    pose proof (digits2_pos_bounds mx) as [Hlx Hhx].
    pose proof (digits2_pos_bounds my) as [Hly Hhy].
    set (d1 := Zpos (digits2_pos mx)) in *. set (d2 := Zpos (digits2_pos my)) in *.
    assert (Hd1 : 1 <= d1) by (unfold d1; lia).
    assert (Hd2 : 1 <= d2) by (unfold d2; lia).
    cbn [SFdiv xorb]. unfold SFdiv_core_binary. cbn [Zdigits2]. fold d1 d2.
    rewrite fexp_eq.
    set (e' := Z.min (Z.max (d1 + ex - (d2 + ey) - 53) (-1074)) (ex - ey)).
    set (s := ex - ey - e').
    assert (Hs : 0 <= s) by (unfold s, e'; lia).
    assert (Em : match s with
                 | 0 => Zpos mx
                 | Zpos _ => Z.shiftl (Zpos mx) s
                 | Zneg _ => 0
                 end = Zpos mx * 2 ^ s).
    { destruct s as [ | p | p ]; [rewrite Z.pow_0_r; lia | | lia].
      rewrite Z.shiftl_mul_pow2 by lia. reflexivity. }
    rewrite Em, div_eucl_pair.
    set (m' := Zpos mx * 2 ^ s).
    assert (Hp : 0 < 2 ^ s) by (apply Z.pow_pos_nonneg; lia).
    assert (Hm' : 0 < m') by (unfold m'; lia).
    pose proof (Z.div_mod m' (Zpos my) ltac:(lia)) as Hdm.
    pose proof (Z.mod_pos_bound m' (Zpos my) ltac:(lia)) as Hr.
    assert (Hq : 0 <= m' / Zpos my) by (apply Z.div_pos; lia).
    apply rounding_of_aux with (num := m') (den := Zpos my).
    + lia.
    + exact Hq.
    + pose proof (new_location_inbetween (m' / Zpos my) (m' mod Zpos my) (Zpos my)
                    ltac:(lia) Hr) as Hin.
      replace (m' / Zpos my * Zpos my + m' mod Zpos my) with m' in Hin by lia.
      exact Hin.
    + rewrite fexp_eq.
      destruct (Z.le_gt_cases e' (-1074)) as [Hle | Hgt]; [lia | ].
      assert (Ee : e' = d1 + ex - (d2 + ey) - 53) by (unfold e' in *; lia).
      assert (Es : s = 53 + d2 - d1) by (unfold s; lia).
      assert (Hbig : 2 ^ 52 <= m' / Zpos my).
      { apply Z.div_le_lower_bound; [lia | ].
        apply Z.le_trans with (2 ^ d2 * 2 ^ 52); [apply Z.mul_le_mono_nonneg_r; lia | ].
        unfold m'. rewrite Es.
        replace (53 + d2 - d1) with ((d2 + 52) - (d1 - 1)) by lia.
        apply Z.le_trans with (2 ^ (d1 - 1) * 2 ^ (d2 + 52 - (d1 - 1))).
        - rewrite <- !Z.pow_add_r by lia. apply Z.pow_le_mono_r; lia.
        - apply Z.mul_le_mono_nonneg_r; lia. }
      pose proof (Zdigits2_ge _ 52 ltac:(lia) Hbig). lia.
    + cbn [SF2R cond_Zopp]. unfold m'. rewrite mult_IZR, p2_IZR by lia.
      assert (E1 : p2 ex = (p2 s * p2 e' * p2 ey)%R).
      { rewrite <- !p2_add. f_equal. unfold s. lia. }
      rewrite E1. pose proof (p2_pos ey). pose proof (p2_pos e'). pose proof (p2_pos s).
      assert (IZR (Zpos my) <> 0)%R by (apply not_0_IZR; lia).
      field. split; lra.
Qed.

Lemma SFsub_rounding (x y : spec_float) :
  SpecFloat.valid_binary prec emax x = true -> SpecFloat.valid_binary prec emax y = true ->
  nonneg_finite x -> nonneg_finite y ->
  (SF2R y <= SF2R x)%R ->
  rounding_of (SF2R x - SF2R y) (SFsub prec emax x y).
Proof.
  intros Hvx Hvy Hx Hy Hle.
  destruct x as [ sx | | | [ | ] mx ex ]; try contradiction;
    destruct y as [ sy | | | [ | ] my ey ]; try contradiction.
  - replace (SF2R (S754_zero sx) - SF2R (S754_zero sy))%R
      with (SF2R (SFsub prec emax (S754_zero sx) (S754_zero sy)))
      by (destruct sx, sy; cbn; ring).
    apply rounding_of_exact; destruct sx, sy; [exact I .. | reflexivity | reflexivity
                                                  | reflexivity | reflexivity].
  - exfalso. cbn [SF2R cond_Zopp] in Hle.
    assert (0 < IZR (Zpos my) * p2 ey)%R
      by (apply Rmult_lt_0_compat; [apply IZR_lt; lia | apply p2_pos]).
    lra.
  - replace (SF2R (S754_finite false mx ex) - SF2R (S754_zero sy))%R
      with (SF2R (S754_finite false mx ex)) by (cbn; ring).
    apply rounding_of_exact; [exact I | exact Hvx].
  - cbn [SpecFloat.valid_binary] in Hvx, Hvy.
    destruct (valid_digits _ _ Hvx) as (Hex & _ & _).
    destruct (valid_digits _ _ Hvy) as (Hey & _ & _).
    cbn [SFsub cond_Zopp].
    set (ez := Z.min ex ey).
    destruct (shl_align_spec mx ex ez) as [Hax _].
    destruct (shl_align_spec my ey ez) as [Hay _].
    replace (Z.max 0 (ex - ez)) with (ex - ez) in Hax by (unfold ez; lia).
    replace (Z.max 0 (ey - ez)) with (ey - ez) in Hay by (unfold ez; lia).
    set (a := fst (shl_align mx ex ez)) in *.
    set (b := fst (shl_align my ey ez)) in *.
    assert (E1 : p2 ex = (p2 (ex - ez) * p2 ez)%R)
      by (rewrite <- p2_add; f_equal; lia).
    assert (E2 : p2 ey = (p2 (ey - ez) * p2 ez)%R)
      by (rewrite <- p2_add; f_equal; lia).
    assert (EX : SF2R (S754_finite false mx ex) = (IZR (Zpos a) * p2 ez)%R).
    { cbn [SF2R cond_Zopp]. rewrite E1, Hax, mult_IZR, p2_IZR by (unfold ez; lia). ring. }
    assert (EY : SF2R (S754_finite false my ey) = (IZR (Zpos b) * p2 ez)%R).
    { cbn [SF2R cond_Zopp]. rewrite E2, Hay, mult_IZR, p2_IZR by (unfold ez; lia). ring. }
    rewrite EX, EY in *.
    assert (Hab : Zpos b <= Zpos a).
    { apply le_IZR. apply Rmult_le_reg_r with (p2 ez); [apply p2_pos | exact Hle]. }
    destruct (Zpos a - Zpos b) as [ | p | p ] eqn:Ep; [ | | lia].
    + cbn [binary_normalize].
      replace (IZR (Zpos a) * p2 ez - IZR (Zpos b) * p2 ez)%R
        with (SF2R (S754_zero false)).
      * apply rounding_of_exact; [exact I | reflexivity].
      * cbn [SF2R]. replace (Zpos a) with (Zpos b) by lia. ring.
    + cbn [binary_normalize]. unfold binary_round.
      set (f := fexp prec emax (Zpos (digits2_pos p) + ez)).
      destruct (shl_align_spec p ez f) as [Hmz Hez].
      destruct (shl_align p ez f) as [mz ez'] eqn:Esh. cbn [fst snd] in Hmz, Hez.
      set (d := Z.max 0 (ez - f)) in *.
      assert (Hd : 0 <= d) by (unfold d; lia).
      apply rounding_of_aux with (num := Zpos mz) (den := 1).
      * lia.
      * lia.
      * cbn [inbetween]. lia.
      * rewrite Hmz, Zdigits2_mul_pow2 by lia.
        replace (Zdigits2 (Zpos p) + d + ez') with (Zpos (digits2_pos p) + ez)
          by (cbn [Zdigits2]; lia).
        fold f. unfold d in Hez. lia.
      * assert (E3 : p2 ez = (p2 d * p2 ez')%R)
          by (rewrite <- p2_add; f_equal; lia).
        rewrite E3, Hmz, mult_IZR, <- Ep, minus_IZR, p2_IZR by lia.
        field.
Qed.

Lemma rounding_of_nonneg (X : R) (z : spec_float) :
  rounding_of X z -> (0 <= X)%R ->
  z = S754_infinity false \/
  (nonneg_finite z /\ SpecFloat.valid_binary prec emax z = true).
Proof.
  intros H HX.
  destruct (rounding_of_ge X z (S754_zero false) H I eq_refl HX) as [E | (Hn & Hv & _)];
    [left; exact E | right; split; assumption].
Qed.

(** The comparison of two non-negative finite floats is that of the
    reals they stand for. *)
Lemma SFcompare_le (x y : spec_float) :
  nonneg_finite x -> SpecFloat.valid_binary prec emax x = true ->
  nonneg_finite y -> SpecFloat.valid_binary prec emax y = true ->
  (SF2R x <= SF2R y)%R ->
  SFcompare x y = Some Lt \/ SFcompare x y = Some Eq.
Proof.
  intros Hx Hvx Hy Hvy Hle.
  destruct x as [ sx | | | [ | ] mx ex ]; try contradiction;
    destruct y as [ sy | | | [ | ] my ey ]; try contradiction; cbn [SFcompare].
  - right. reflexivity.
  - left. reflexivity.
  - exfalso. cbn [SF2R cond_Zopp] in Hle.
    assert (0 < IZR (Zpos mx) * p2 ex)%R
      by (apply Rmult_lt_0_compat; [apply IZR_lt; lia | apply p2_pos]).
    lra.
  - cbn [SpecFloat.valid_binary] in Hvx, Hvy.
    destruct (valid_digits _ _ Hvx) as (Hex & Hdx & Hnx).
    destruct (valid_digits _ _ Hvy) as (Hey & Hdy & Hny).
    destruct (bounded_R _ _ Hvx) as [_ Hlx].
    destruct (bounded_R _ _ Hvy) as [Hhy _].
    cbn [SF2R cond_Zopp] in Hle.
    destruct (Z.compare_spec ex ey) as [E | Hlt | Hgt].
    + subst ey.
      assert (Hm : Zpos mx <= Zpos my).
      { apply le_IZR. apply Rmult_le_reg_r with (p2 ex); [apply p2_pos | exact Hle]. }
      change (Pos.compare_cont Eq mx my) with (mx ?= my)%positive.
      destruct (Pos.compare_spec mx my); [right | left | lia]; reflexivity.
    + left. reflexivity.
    + exfalso.
      assert (Hd : Zpos (digits2_pos mx) = 53) by (apply Hnx; lia).
      rewrite Hd in Hlx.
      assert (Hp : (p2 (Zpos (digits2_pos my) + ey) <= p2 (53 - 1 + ex))%R)
        by (apply p2_le; lia).
      lra.
Qed.

Lemma SFcompare_nonneg_le (x y : spec_float) :
  nonneg_finite x -> SpecFloat.valid_binary prec emax x = true ->
  y = S754_infinity false \/
  (nonneg_finite y /\ SpecFloat.valid_binary prec emax y = true /\ (SF2R x <= SF2R y)%R) ->
  SFcompare x y = Some Lt \/ SFcompare x y = Some Eq.
Proof.
  intros Hx Hvx [-> | (Hy & Hvy & Hle)].
  - left. destruct x as [ sx | | | [ | ] mx ex ]; try contradiction; reflexivity.
  - apply SFcompare_le; assumption.
Qed.

(** ** The amounts are not below zero, and in the order of their parts *)

Lemma float_le_spec (x y : float) :
  SFcompare (Prim2SF x) (Prim2SF y) = Some Lt \/ SFcompare (Prim2SF x) (Prim2SF y) = Some Eq ->
  float_le x y = true.
Proof.
  unfold float_le, Py.le. cbn [Py.compare]. intros [-> | ->]; reflexivity.
Qed.

Lemma le_zero_nonneg (x : float) :
  nonneg (Prim2SF x) -> Py.le (VInt 0) (VFloat x) = true.
Proof.
  unfold Py.le. cbn [Py.compare].
  pose proof (compare_float_zero x) as Hc. cbn [Py.compare] in Hc. rewrite Hc.
  destruct (Prim2SF x) as [ s | [ | ] | | [ | ] m e ]; cbn; try contradiction; reflexivity.
Qed.

Lemma finite_nonneg_spec (x : float) :
  finite_nonneg x = true <-> nonneg_finite (Prim2SF x).
Proof.
  unfold finite_nonneg, is_finite. split.
  - intros H. apply andb_true_iff in H. destruct H as [Hf Hl].
    apply le_zero_float in Hl.
    destruct (Prim2SF x) as [ s | [ | ] | | [ | ] m e ]; try contradiction;
      try discriminate Hf; exact I.
  - intros H. apply andb_true_iff. split.
    + destruct (Prim2SF x) as [ s | [ | ] | | [ | ] m e ]; try contradiction; reflexivity.
    + apply le_zero_nonneg.
      destruct (Prim2SF x) as [ s | [ | ] | | [ | ] m e ]; try contradiction; exact I.
Qed.

Lemma nonneg_of (z : spec_float) :
  z = S754_infinity false \/
  (nonneg_finite z /\ SpecFloat.valid_binary prec emax z = true) ->
  nonneg z.
Proof.
  intros [-> | [H _]]; [exact I | ].
  destruct z as [ s | [ | ] | | [ | ] m e ]; try contradiction; exact I.
Qed.

(** Halving keeps a float that is not below zero so. *)
Lemma SFdiv_two_nonneg (z : spec_float) :
  SpecFloat.valid_binary prec emax z = true -> nonneg z ->
  nonneg (SFdiv prec emax z SF_two).
Proof.
  intros Hv Hz.
  destruct z as [ s | [ | ] | | [ | ] m e ]; try contradiction; try exact I.
  apply nonneg_of.
  apply (rounding_of_nonneg (SF2R (S754_finite false m e) / SF2R SF_two)).
  - apply SFdiv_rounding; [exact Hv | reflexivity | exact I].
  - apply Rmult_le_pos; [apply SF2R_nonneg; exact I | ].
    apply Rlt_le, Rinv_0_lt_compat. cbn [SF_two SF2R cond_Zopp].
    apply Rmult_lt_0_compat; [apply IZR_lt; lia | apply p2_pos].
Qed.


Lemma SF2R_pos (m : positive) (e : Z) : (0 < SF2R (S754_finite false m e))%R.
Proof.
  cbn [SF2R cond_Zopp]. apply Rmult_lt_0_compat; [apply IZR_lt; lia | apply p2_pos].
Qed.

Lemma nonneg_finite_not_lt (x : float) :
  nonneg_finite (Prim2SF x) -> (x <? 0)%float = false.
Proof.
  rewrite ltb_spec, Prim2SF_zero.
  destruct (Prim2SF x) as [ s | [ | ] | | [ | ] m e ]; try contradiction; reflexivity.
Qed.

(** What [calc_from_excluded] computes without rounding, on spec floats. *)
Lemma excluded_order (b r : spec_float) :
  SpecFloat.valid_binary prec emax b = true -> SpecFloat.valid_binary prec emax r = true ->
  nonneg_finite b -> nonneg_finite r ->
  let g := SFmul prec emax b r in
  let t := SFadd prec emax b g in
  SpecFloat.valid_binary prec emax g = true /\ nonneg g /\
  (SFcompare b t = Some Lt \/ SFcompare b t = Some Eq) /\
  (SFcompare g t = Some Lt \/ SFcompare g t = Some Eq).
Proof.
  intros Hvb Hvr Hb Hr g t.
  pose proof (SF2R_nonneg b Hb) as HB0. pose proof (SF2R_nonneg r Hr) as HR0.
  pose proof (SFmul_rounding b r Hvb Hvr Hb Hr) as Hg. fold g in Hg.
  assert (HX : (0 <= SF2R b * SF2R r)%R) by (apply Rmult_le_pos; assumption).
  destruct (rounding_of_nonneg _ _ Hg HX) as [Eg | [Hgn Hgv]].
  - unfold t. rewrite Eg.
    destruct b as [ sb | | | [ | ] mb eb ]; try contradiction;
      (split; [reflexivity | split; [exact I | split; [left | right]; reflexivity]]).
  - pose proof (SF2R_nonneg g Hgn) as HG0.
    pose proof (SFadd_rounding b g Hvb Hgv Hb Hgn) as Ht. fold t in Ht.
    split; [exact Hgv | split; [apply nonneg_of; right; split; assumption | split]].
    + apply SFcompare_nonneg_le; [exact Hb | exact Hvb | ].
      apply (rounding_of_ge _ _ b Ht Hb Hvb). lra.
    + apply SFcompare_nonneg_le; [exact Hgn | exact Hgv | ].
      apply (rounding_of_ge _ _ g Ht Hgn Hgv). lra.
Qed.

(** X13. For a base and a rate that are finite and not below zero,
    [calc_from_excluded] without rounding returns a GST amount and halves
    that are not below zero, and a total that is not below the base and
    not below the GST amount (it may be the infinity, on an overflow). *)
Theorem calc_from_excluded_nonneg (base_price rate : float) :
  finite_nonneg base_price = true -> finite_nonneg rate = true ->
  let gst := (base_price * rate)%float in
  let total := (base_price + gst)%float in
  calc_from_excluded (VFloat base_price) (VFloat rate) None
  = Ok (VFloat total, VFloat gst, VFloat (gst / 2), VFloat (gst / 2), VFloat base_price) /\
  Py.le (VInt 0) (VFloat gst) = true /\
  Py.le (VInt 0) (VFloat (gst / 2)) = true /\
  float_le base_price total = true /\
  float_le gst total = true.
Proof.
  intros Hb Hr. cbv zeta.
  apply finite_nonneg_spec in Hb, Hr.
  pose proof (Prim2SF_valid base_price) as Hvb. pose proof (Prim2SF_valid rate) as Hvr.
  destruct (excluded_order _ _ Hvb Hvr Hb Hr) as (Hgv & Hg & Hbt & Hgt).
  assert (Eg : Prim2SF (base_price * rate)
               = SFmul prec emax (Prim2SF base_price) (Prim2SF rate))
    by (rewrite mul_spec; reflexivity).
  assert (Et : Prim2SF (base_price + base_price * rate)
               = SFadd prec emax (Prim2SF base_price)
                   (SFmul prec emax (Prim2SF base_price) (Prim2SF rate)))
    by (rewrite add_spec, mul_spec; reflexivity).
  split; [apply (calc_from_excluded_plain base_price rate None); reflexivity | ].
  split; [apply le_zero_nonneg; rewrite Eg; exact Hg | ].
  split.
  { apply le_zero_nonneg. rewrite div_spec, Prim2SF_two, Eg.
    apply SFdiv_two_nonneg; assumption. }
  split; apply float_le_spec; rewrite ?Eg, Et; assumption.
Qed.

Lemma calc_from_excluded_nonneg_witness :
  finite_nonneg 100 = true /\ finite_nonneg 0.18 = true /\
  float_le 100 (100 + 100 * 0.18) = true.
Proof.
  split; [reflexivity | split; [reflexivity | ]].
  exact (proj1 (proj2 (proj2 (proj2 (calc_from_excluded_nonneg 100 0.18 eq_refl eq_refl))))).
Defined.

(** What [calc_from_included] computes without rounding, on spec floats. *)
Lemma included_order (t r : spec_float) :
  SpecFloat.valid_binary prec emax t = true -> SpecFloat.valid_binary prec emax r = true ->
  nonneg_finite t -> nonneg_finite r ->
  let d := SFadd prec emax SF_one r in
  let q := SFdiv prec emax t d in
  let g := SFsub prec emax t q in
  nonneg_finite q /\ SpecFloat.valid_binary prec emax q = true /\
  (SF2R q <= SF2R t)%R /\
  nonneg_finite g /\ SpecFloat.valid_binary prec emax g = true /\
  (SF2R g <= SF2R t)%R.
Proof.
  intros Hvt Hvr Ht Hr d q g.
  pose proof (SF2R_nonneg t Ht) as HT0. pose proof (SF2R_nonneg r Hr) as HR0.
  pose proof (p2_lt 0 970 ltac:(lia)) as H0970. rewrite p2_0 in H0970.
  assert (H970 : p2 971 = (2 * p2 970)%R).
  { change 971 with (1 + 970). rewrite p2_add. change (p2 1) with (2 * 1)%R. ring. }
  (* the divisor is a finite float, and at least 1 *)
  assert (Hv1 : SpecFloat.valid_binary prec emax SF_one = true) by reflexivity.
  destruct (SFadd_rounds SF_one r Hv1 Hvr I Hr) as [Hdf _]. fold d in Hdf.
  rewrite SF2R_one in Hdf.
  pose proof (SF2R_le_max r Hvr Hr) as HRmax.
  assert (Hdi : d <> S754_infinity false) by (apply Hdf; lra).
  pose proof (SFadd_rounding SF_one r Hv1 Hvr I Hr) as Hd. fold d in Hd.
  rewrite SF2R_one in Hd.
  destruct (rounding_of_ge _ _ SF_one Hd I Hv1) as [Ed | (Hdn & Hdv & HD1)];
    [rewrite SF2R_one; lra | contradiction | ].
  rewrite SF2R_one in HD1.
  destruct d as [ sd | | | [ | ] md ed ] eqn:Ed; try contradiction;
    [cbn [SF2R] in HD1; lra | ].
  cbn [SpecFloat.valid_binary] in Hdv.
  (* the base *)
  pose proof (SFdiv_rounding t md ed Hvt Hdv Ht) as Hq. fold q in Hq.
  set (D := SF2R (S754_finite false md ed)) in *.
  assert (HTD : (0 <= SF2R t / D <= SF2R t)%R).
  { split.
    - apply Rmult_le_pos; [exact HT0 | apply Rlt_le, Rinv_0_lt_compat; lra].
    - apply Rmult_le_reg_r with D; [lra | ].
      replace (SF2R t / D * D)%R with (SF2R t) by (field; lra).
      rewrite <- (Rmult_1_r (SF2R t)) at 1. apply Rmult_le_compat_l; lra. }
  destruct (rounding_of_le _ _ t Hq Ht Hvt HTD) as (Hqn & Hqv & HQT).
  pose proof (SF2R_nonneg q Hqn) as HQ0.
  split; [exact Hqn | split; [exact Hqv | split; [exact HQT | ]]].
  (* the GST amount *)
  pose proof (SFsub_rounding t q Hvt Hqv Ht Hqn HQT) as Hg. fold g in Hg.
  destruct (rounding_of_le _ _ t Hg Ht Hvt ltac:(lra)) as (Hgn & Hgv & HGT).
  split; [exact Hgn | split; [exact Hgv | exact HGT]].
Qed.

(** X14. For a total and a rate that are finite and not below zero,
    [calc_from_included] without rounding returns a base and a GST amount
    that are finite, not below zero and not above the total. *)
Theorem calc_from_included_nonneg (total_price rate : float) :
  finite_nonneg total_price = true -> finite_nonneg rate = true ->
  let base := (total_price / (1 + rate))%float in
  let gst := (total_price - base)%float in
  calc_from_included (VFloat total_price) (VFloat rate) None
  = Ok (VFloat base, VFloat gst, VFloat (gst / 2), VFloat (gst / 2), VFloat total_price) /\
  finite_nonneg base = true /\ float_le base total_price = true /\
  finite_nonneg gst = true /\ float_le gst total_price = true /\
  Py.le (VInt 0) (VFloat (gst / 2)) = true.
Proof.
  intros Ht Hr. cbv zeta.
  apply finite_nonneg_spec in Ht, Hr.
  pose proof (Prim2SF_valid total_price) as Hvt. pose proof (Prim2SF_valid rate) as Hvr.
  destruct (included_order _ _ Hvt Hvr Ht Hr) as (Hq & Hqv & HQT & Hg & Hgv & HGT).
  pose proof (SFcompare_le _ _ Hq Hqv Ht Hvt HQT) as Hqt.
  pose proof (SFcompare_le _ _ Hg Hgv Ht Hvt HGT) as Hgt.
  assert (Eq : Prim2SF (total_price / (1 + rate))
               = SFdiv prec emax (Prim2SF total_price)
                   (SFadd prec emax SF_one (Prim2SF rate)))
    by (rewrite div_spec, add_spec, Prim2SF_one; reflexivity).
  assert (Eg : Prim2SF (total_price - total_price / (1 + rate))
               = SFsub prec emax (Prim2SF total_price)
                   (SFdiv prec emax (Prim2SF total_price)
                      (SFadd prec emax SF_one (Prim2SF rate))))
    by (rewrite sub_spec, Eq; reflexivity).
  split.
  { pose proof (calc_from_included_plain total_price rate None eq_refl) as H.
    cbv zeta in H. rewrite (nonneg_finite_not_lt rate Hr) in H. exact H. }
  split; [apply finite_nonneg_spec; rewrite Eq; exact Hq | ].
  split; [apply float_le_spec; rewrite Eq; exact Hqt | ].
  split; [apply finite_nonneg_spec; rewrite Eg; exact Hg | ].
  split; [apply float_le_spec; rewrite Eg; exact Hgt | ].
  apply le_zero_nonneg. rewrite div_spec, Prim2SF_two, Eg.
  apply SFdiv_two_nonneg; [exact Hgv | ].
  apply nonneg_of. right. split; assumption.
Qed.

Lemma calc_from_included_nonneg_witness :
  finite_nonneg 118 = true /\ finite_nonneg 0.18 = true /\
  float_le (118 / (1 + 0.18)) 118 = true.
Proof.
  split; [reflexivity | split; [reflexivity | ]].
  exact (proj1 (proj2 (proj2 (calc_from_included_nonneg 118 0.18 eq_refl eq_refl)))).
Defined.

Lemma lt_zero_positive (x : float) :
  Py.lt (VInt 0) (VFloat x) = true -> is_finite x = true ->
  exists m e, Prim2SF x = S754_finite false m e.
Proof.
  unfold Py.lt, is_finite. cbn [Py.compare].
  pose proof (compare_float_zero x) as Hc. cbn [Py.compare] in Hc. rewrite Hc.
  destruct (Prim2SF x) as [ s | [ | ] | | [ | ] m e ]; cbn; try discriminate.
  intros _ _. eauto.
Qed.

(** X15. For a GST amount that is finite and not below zero and a rate
    that is finite and above zero, [calc_from_gst_amount] without rounding
    divides (the guard on a zero rate is not taken) and returns a base
    that is not below zero and a total that is not below the base and not
    below the GST amount. *)
Theorem calc_from_gst_amount_nonneg (gst_amount rate : float) :
  finite_nonneg gst_amount = true ->
  Py.lt (VInt 0) (VFloat rate) = true -> is_finite rate = true ->
  let base := (gst_amount / rate)%float in
  let total := (base + gst_amount)%float in
  calc_from_gst_amount (VFloat gst_amount) (VFloat rate) None
  = Ok (VFloat base, VFloat total, VFloat (gst_amount / 2), VFloat (gst_amount / 2),
        VFloat gst_amount) /\
  Py.le (VInt 0) (VFloat base) = true /\
  float_le base total = true /\
  float_le gst_amount total = true.
Proof.
  intros Hg Hr Hrf. cbv zeta.
  apply finite_nonneg_spec in Hg.
  destruct (lt_zero_positive rate Hr Hrf) as (mr & er & Er).
  pose proof (Prim2SF_valid gst_amount) as Hvg. pose proof (Prim2SF_valid rate) as Hvr.
  rewrite Er in Hvr. cbn [SpecFloat.valid_binary] in Hvr.
  assert (Hz : (rate =? 0)%float = false).
  { rewrite eqb_zero, Er. reflexivity. }
  assert (Eq : Prim2SF (gst_amount / rate)
               = SFdiv prec emax (Prim2SF gst_amount) (S754_finite false mr er))
    by (rewrite div_spec, Er; reflexivity).
  assert (Et : Prim2SF (gst_amount / rate + gst_amount)
               = SFadd prec emax
                   (SFdiv prec emax (Prim2SF gst_amount) (S754_finite false mr er))
                   (Prim2SF gst_amount))
    by (rewrite add_spec, Eq; reflexivity).
  split.
  { pose proof (calc_from_gst_amount_plain gst_amount rate None eq_refl) as H.
    unfold gst_amount_base, gst_amount_total in H. rewrite Hz in H. exact H. }
  pose proof (SF2R_nonneg _ Hg) as HG0.
  pose proof (SF2R_pos mr er) as HR0.
  pose proof (SFdiv_rounding _ mr er Hvg Hvr Hg) as Hq.
  assert (HX : (0 <= SF2R (Prim2SF gst_amount) / SF2R (S754_finite false mr er))%R).
  { apply Rmult_le_pos; [exact HG0 | apply Rlt_le, Rinv_0_lt_compat; exact HR0]. }
  destruct (rounding_of_nonneg _ _ Hq HX) as [Ei | [Hqn Hqv]].
  - rewrite Ei in Eq, Et.
    split; [apply le_zero_nonneg; rewrite Eq; exact I | ].
    split; apply float_le_spec; rewrite ?Eq, Et;
      destruct (Prim2SF gst_amount) as [ s | [ | ] | | [ | ] m e ]; try contradiction;
      cbn; auto.
  - pose proof (SF2R_nonneg _ Hqn) as HQ0.
    pose proof (SFadd_rounding _ _ Hqv Hvg Hqn Hg) as Ht.
    split; [apply le_zero_nonneg; rewrite Eq; apply nonneg_of; right; split; assumption | ].
    split; apply float_le_spec; rewrite ?Eq, Et.
    + apply SFcompare_nonneg_le; [exact Hqn | exact Hqv | ].
      apply (rounding_of_ge _ _ _ Ht Hqn Hqv). lra.
    + apply SFcompare_nonneg_le; [exact Hg | exact Hvg | ].
      apply (rounding_of_ge _ _ _ Ht Hg Hvg). lra.
Qed.

Lemma calc_from_gst_amount_nonneg_witness :
  finite_nonneg 18 = true /\ Py.lt (VInt 0) (VFloat 0.18) = true /\
  is_finite 0.18 = true /\
  float_le 18 (18 / 0.18 + 18) = true.
Proof.
  split; [reflexivity | split; [reflexivity | split; [reflexivity | ]]].
  exact (proj2 (proj2 (proj2 (calc_from_gst_amount_nonneg 18 0.18 eq_refl eq_refl eq_refl)))).
Defined.

(** ** The exceptions of the rounding step *)

Lemma binary_round_aux_sign (s s' : bool) (m e : Z) (l : location) :
  binary_round_aux prec emax false m e l <> S754_infinity false ->
  binary_round_aux prec emax s m e l <> S754_infinity s'.
Proof.
  unfold binary_round_aux.
  destruct (shr_fexp prec emax m e l) as [mrs1 e1].
  destruct (shr_fexp prec emax _ e1 loc_Exact) as [mrs2 e2].
  destruct (shr_m mrs2); [discriminate | | discriminate].
  destruct (e2 <=? emax - prec); [discriminate | ].
  intros H. contradiction H. reflexivity.
Qed.

(** [float(n)] returns for an int no larger than the largest float. *)
Lemma float_of_int_returns (n : Z) :
  Z.abs n <= 2 ^ 1024 - 2 ^ 971 -> exists f, float_of_int n = Ok f.
Proof.
  intros Hn. unfold float_of_int.
  assert (H : forall (s : bool) (p : positive),
            Zpos p <= 2 ^ 1024 - 2 ^ 971 ->
            forall s', binary_round prec emax s p 0 <> S754_infinity s').
  { intros s p Hp s'. unfold binary_round.
    set (f := fexp prec emax (Zpos (digits2_pos p) + 0)).
    destruct (shl_align_spec p 0 f) as [Hmz Hez].
    destruct (shl_align p 0 f) as [mz ez] eqn:Esh. cbn [fst snd] in Hmz, Hez.
    set (d := Z.max 0 (0 - f)) in *.
    assert (Hd : 0 <= d) by (unfold d; lia).
    apply binary_round_aux_sign.
    assert (Hr : rounds_to (IZR (Zpos p))
                   (binary_round_aux prec emax false (Zpos mz) ez loc_Exact)).
    { apply binary_round_aux_rounds with (num := Zpos mz) (den := 1).
      - lia.
      - lia.
      - cbn [inbetween]. lia.
      - rewrite Hmz, Zdigits2_mul_pow2 by lia.
        replace (Zdigits2 (Zpos p) + d + ez) with (Zpos (digits2_pos p) + 0)
          by (cbn [Zdigits2]; lia).
        fold f. unfold d in Hez. lia.
      - assert (E3 : (p2 d * p2 ez = 1)%R) by (rewrite <- p2_add; replace (d + ez) with 0 by lia; reflexivity).
        rewrite Hmz, mult_IZR, p2_IZR by lia.
        replace (IZR (Zpos p) * p2 d / 1 * p2 ez)%R with (IZR (Zpos p) * (p2 d * p2 ez))%R
          by (field).
        rewrite E3. ring. }
    apply (proj1 Hr).
    apply IZR_le in Hp. rewrite minus_IZR, !p2_IZR in Hp by lia.
    pose proof (p2_lt 970 971 ltac:(lia)). lra. }
  destruct n as [ | p | p ]; cbn [binary_normalize].
  - eexists. reflexivity.
  - specialize (H false p ltac:(lia)).
    destruct (binary_round prec emax false p 0) as [ s0 | s0 | | s0 m0 e0 ];
      try (eexists; reflexivity).
    contradiction (H s0). reflexivity.
  - specialize (H true p ltac:(lia)).
    destruct (binary_round prec emax true p 0) as [ s0 | s0 | | s0 m0 e0 ];
      try (eexists; reflexivity).
    contradiction (H s0). reflexivity.
Qed.

(** The int nearest to a finite float is no larger than the largest
    float. *)
Lemma round_float_bound (x : float) (n : Z) :
  round_float x = Ok n -> Z.abs n <= 2 ^ 1024 - 2 ^ 971.
Proof.
  assert (Hbig : 0 < 2 ^ 1024 - 2 ^ 971).
  { assert (2 ^ 971 < 2 ^ 1024) by (apply Z.pow_lt_mono_r; lia). lia. }
  unfold round_float. pose proof (Prim2SF_valid x) as Hv.
  destruct (Prim2SF x) as [ s | s | | s m e ]; try discriminate.
  - intros H. injection H as <-. cbn. lia.
  - cbn [SpecFloat.valid_binary] in Hv.
    destruct (valid_digits _ _ Hv) as (He & Hd & _).
    pose proof (digits2_pos_bounds m) as [_ Hh].
    assert (Hm : Zpos m <= 2 ^ 53 - 1).
    { assert (2 ^ Zpos (digits2_pos m) <= 2 ^ 53) by (apply Z.pow_le_mono_r; lia). lia. }
    assert (E1024 : 2 ^ 1024 - 2 ^ 971 = (2 ^ 53 - 1) * 2 ^ 971).
    { change 1024 with (53 + 971). rewrite Z.pow_add_r by lia. ring. }
    assert (H971 : 1 <= 2 ^ 971) by (apply (Z.pow_le_mono_r 2 0 971); lia).
    destruct (0 <=? e) eqn:E; [apply Z.leb_le in E | apply Z.leb_gt in E];
      intros H; injection H as <-.
    + assert (Hp : 0 < 2 ^ e <= 2 ^ 971)
        by (split; [apply Z.pow_pos_nonneg; lia | apply Z.pow_le_mono_r; lia]).
      replace (Z.abs (signed_mantissa s m * 2 ^ e)) with (Zpos m * 2 ^ e)
        by (destruct s; cbn [signed_mantissa cond_Zopp]; lia).
      rewrite E1024. apply Z.mul_le_mono_nonneg; lia.
    + destruct (round_half_even_shift_spec (Zpos m) (- e) ltac:(lia)) as [Hn _].
      assert (Hp : 2 <= 2 ^ (- e)) by (apply (Z.pow_le_mono_r 2 1 (- e)); lia).
      set (D := 2 ^ (- e)) in *. clearbody D.
      set (k := round_half_even_shift (Zpos m) (- e)) in *. clearbody k.
      assert (Hk : 0 <= k <= Zpos m) by nia.
      replace (Z.abs (cond_Zopp s k)) with k by (destruct s; cbn [cond_Zopp]; lia).
      rewrite E1024.
      apply Z.le_trans with ((2 ^ 53 - 1) * 1); [lia | ].
      apply Z.mul_le_mono_nonneg_l; lia.
Qed.

(** The rounding step [round(x / r) * r] on a float [x], with a non-zero
    increment: it returns exactly when the quotient is finite. *)
Lemma round_to_finite (x r : float) :
  (r =? 0)%float = false ->
  (is_finite (x / r) = true ->
   exists n f, round_float (x / r) = Ok n /\ float_of_int n = Ok f /\
               round_to (VFloat x) (VFloat r) = Ok (VFloat (f * r))) /\
  (is_finite (x / r) = false ->
   round_to (VFloat x) (VFloat r)
   = Raise (if is_nan (x / r) then ValueError else OverflowError)).
Proof.
  intros Hz. unfold round_to. rewrite (truediv_float x r Hz). cbn [bind round].
  unfold is_finite, is_nan. split.
  - intros Hf.
    destruct (round_float (x / r)) as [ n | e ] eqn:En.
    + destruct (float_of_int_returns n (round_float_bound _ _ En)) as (f & Ef).
      exists n, f. split; [reflexivity | split; [exact Ef | ]].
      cbn [bind mul to_float]. rewrite Ef. reflexivity.
    + exfalso. unfold round_float in En.
      destruct (Prim2SF (x / r)) as [ s | s | | s m e' ]; try discriminate.
      destruct (0 <=? e'); discriminate.
  - intros Hf. unfold round_float.
    destruct (Prim2SF (x / r)) as [ s | s | | s m e' ]; try discriminate; reflexivity.
Qed.

(** X16. With a non-zero increment [calc_from_excluded] returns exactly
    when the quotients of the GST amount and of the total by the increment
    are finite; otherwise it raises what [round] raises on the first
    quotient that is not: [ValueError] on a NaN, [OverflowError] on an
    infinity.  Converting the rounded ints back to floats never fails. *)
Theorem calc_from_excluded_rounding_errors (base_price rate r : float) :
  truthy (VFloat r) = true ->
  let gst := (base_price * rate)%float in
  let total := (base_price + gst)%float in
  let error (q : float) := if is_nan q then ValueError else OverflowError in
  match is_finite (gst / r), is_finite (total / r) with
  | true, true =>
      exists (ng nt : Z) (fg ft : float),
        round_float (gst / r) = Ok ng /\ float_of_int ng = Ok fg /\
        round_float (total / r) = Ok nt /\ float_of_int nt = Ok ft /\
        calc_from_excluded (VFloat base_price) (VFloat rate) (Some (VFloat r))
        = Ok (VFloat (ft * r), VFloat (fg * r), VFloat (fg * r / 2), VFloat (fg * r / 2),
              VFloat base_price)
  | true, false =>
      calc_from_excluded (VFloat base_price) (VFloat rate) (Some (VFloat r))
      = Raise (error (total / r)%float)
  | false, _ =>
      calc_from_excluded (VFloat base_price) (VFloat rate) (Some (VFloat r))
      = Raise (error (gst / r)%float)
  end.
Proof.
  intros Hr. cbv zeta.
  pose proof (calc_from_excluded_rounded base_price rate r Hr) as E. cbv zeta in E.
  rewrite E. clear E.
  rewrite truthy_float, Bool.negb_true_iff in Hr.
  destruct (round_to_finite (base_price * rate) r Hr) as [Hg1 Hg2].
  destruct (round_to_finite (base_price + base_price * rate) r Hr) as [Ht1 Ht2].
  destruct (is_finite (base_price * rate / r)).
  - destruct (Hg1 eq_refl) as (ng & fg & Eng & Efg & ->). cbn [bind].
    destruct (is_finite ((base_price + base_price * rate) / r)).
    + destruct (Ht1 eq_refl) as (nt & ft & Ent & Eft & ->). cbn [bind].
      exists ng, nt, fg, ft. repeat split; assumption.
    + rewrite (Ht2 eq_refl). reflexivity.
  - rewrite (Hg2 eq_refl). reflexivity.
Qed.

Lemma calc_from_excluded_rounding_errors_witness :
  truthy (VFloat 1) = true /\
  calc_from_excluded (VFloat 1.7e308) (VFloat 0.18) (Some (VFloat 1))
  = Raise OverflowError.
Proof.
  split; [reflexivity | ].
  exact (calc_from_excluded_rounding_errors 1.7e308 0.18 1 eq_refl).
Defined.

(** ** The page does not fail on amounts up to [1e300] *)

Lemma pow2_float (k : Z) :
  -1022 <= k <= 1023 ->
  SpecFloat.bounded prec emax 4503599627370496 (k - 52) = true /\
  SF2R (S754_finite false 4503599627370496 (k - 52)) = p2 k.
Proof.
  intros Hk. split.
  - unfold SpecFloat.bounded, canonical_mantissa. rewrite fexp_eq.
    change (Zpos (digits2_pos 4503599627370496)) with 53.
    change (emax - prec) with 971.
    apply andb_true_iff. split; [apply Z.eqb_eq | apply Z.leb_le]; lia.
  - cbn [SF2R cond_Zopp].
    replace (IZR 4503599627370496) with (p2 52) by (rewrite <- p2_IZR by lia; reflexivity).
    rewrite <- p2_add. f_equal. lia.
Qed.

Lemma rounding_bounded (X : R) (z : spec_float) (k : Z) :
  rounding_of X z -> (0 <= X <= p2 k)%R -> -1022 <= k <= 1023 -> bounded_by z k.
Proof.
  intros Hz HX Hk. destruct (pow2_float k Hk) as [Hb Hv].
  destruct (rounding_of_le X z (S754_finite false 4503599627370496 (k - 52)) Hz I Hb)
    as (Hn & Hvz & Hle); [rewrite Hv; exact HX | ].
  rewrite Hv in Hle. split; [exact Hn | split; [exact Hvz | exact Hle]].
Qed.

Lemma SF2R_range (m : positive) (e lo hi : Z) :
  e <= lo -> e <= hi -> 2 ^ (lo - e) <= Zpos m <= 2 ^ (hi - e) ->
  (p2 lo <= SF2R (S754_finite false m e) <= p2 hi)%R.
Proof.
  intros Hlo Hhi [H1 H2]. cbn [SF2R cond_Zopp].
  pose proof (p2_pos e) as Hp.
  apply IZR_le in H1, H2. rewrite p2_IZR in H1, H2 by lia.
  replace (p2 lo) with (p2 (lo - e) * p2 e)%R by (rewrite <- p2_add; f_equal; lia).
  replace (p2 hi) with (p2 (hi - e) * p2 e)%R by (rewrite <- p2_add; f_equal; lia).
  split; apply Rmult_le_compat_r; lra.
Qed.

(** The comparison of two non-negative finite floats, read back on the
    reals. *)
Lemma SFcompare_le_inv (x y : spec_float) :
  nonneg_finite x -> SpecFloat.valid_binary prec emax x = true ->
  nonneg_finite y -> SpecFloat.valid_binary prec emax y = true ->
  SFcompare x y = Some Lt \/ SFcompare x y = Some Eq ->
  (SF2R x <= SF2R y)%R.
Proof.
  intros Hx Hvx Hy Hvy Hc.
  destruct x as [ sx | | | [ | ] mx ex ]; try contradiction;
    destruct y as [ sy | | | [ | ] my ey ]; try contradiction; cbn [SFcompare] in Hc.
  - cbn [SF2R]. lra.
  - apply Rlt_le. apply (SF2R_pos my ey).
  - destruct Hc as [Hc | Hc]; discriminate Hc.
  - cbn [SpecFloat.valid_binary] in Hvx, Hvy.
    destruct (valid_digits _ _ Hvx) as (Hex & Hdx & Hnx).
    destruct (valid_digits _ _ Hvy) as (Hey & Hdy & Hny).
    destruct (bounded_R _ _ Hvx) as [Hhx _].
    destruct (bounded_R _ _ Hvy) as [_ Hly].
    cbn [SF2R cond_Zopp].
    destruct (Z.compare_spec ex ey) as [E | Hlt | Hgt].
    + subst ey. change (Pos.compare_cont Eq mx my) with (mx ?= my)%positive in Hc.
      apply Rmult_le_compat_r; [apply Rlt_le, p2_pos | ]. apply IZR_le.
      destruct (Pos.compare_spec mx my); [subst; lia | lia | ].
      destruct Hc as [Hc | Hc]; discriminate Hc.
    + assert (Hd : Zpos (digits2_pos my) = 53) by (apply Hny; lia).
      rewrite Hd in Hly.
      assert (Hp : (p2 (Zpos (digits2_pos mx) + ex) <= p2 (53 - 1 + ey))%R)
        by (apply p2_le; lia).
      lra.
    + destruct Hc as [Hc | Hc]; discriminate Hc.
Qed.

Lemma float_le_bound (x : float) :
  finite_nonneg x = true -> float_le x 1e300 = true -> bounded_by (Prim2SF x) 1000.
Proof.
  intros Hx Hle. apply finite_nonneg_spec in Hx.
  pose proof (Prim2SF_valid x) as Hv.
  split; [exact Hx | split; [exact Hv | ]].
  assert (E : Prim2SF 1e300 = S754_finite false 6724873095247260 944) by reflexivity.
  assert (Hc : SFcompare (Prim2SF x) (Prim2SF 1e300) = Some Lt \/
               SFcompare (Prim2SF x) (Prim2SF 1e300) = Some Eq).
  { unfold float_le, Py.le in Hle. cbn [Py.compare] in Hle.
    destruct (SFcompare (Prim2SF x) (Prim2SF 1e300)) as [ [ | | ] | ];
      try discriminate Hle; [right | left]; reflexivity. }
  rewrite E in Hc.
  apply Rle_trans with (SF2R (S754_finite false 6724873095247260 944)).
  - apply SFcompare_le_inv; [exact Hx | exact Hv | exact I | reflexivity | exact Hc].
  - apply (SF2R_range 6724873095247260 944 996 1000); [lia | lia | ].
    split; apply Z.leb_le; reflexivity.
Qed.

Lemma SFmul_bounded (x y : spec_float) (a b : Z) :
  bounded_by x a -> bounded_by y b -> -1022 <= a + b <= 1023 ->
  bounded_by (SFmul prec emax x y) (a + b).
Proof.
  intros (Hx & Hvx & HX) (Hy & Hvy & HY) Hk.
  pose proof (SF2R_nonneg x Hx). pose proof (SF2R_nonneg y Hy).
  apply (rounding_bounded (SF2R x * SF2R y)); [apply SFmul_rounding; assumption | | exact Hk].
  split; [apply Rmult_le_pos; assumption | ].
  rewrite p2_add. apply Rmult_le_compat; assumption.
Qed.

Lemma SFadd_bounded (x y : spec_float) (a : Z) :
  bounded_by x a -> bounded_by y a -> -1022 <= a + 1 <= 1023 ->
  bounded_by (SFadd prec emax x y) (a + 1).
Proof.
  intros (Hx & Hvx & HX) (Hy & Hvy & HY) Hk.
  pose proof (SF2R_nonneg x Hx). pose proof (SF2R_nonneg y Hy).
  apply (rounding_bounded (SF2R x + SF2R y)); [apply SFadd_rounding; assumption | | exact Hk].
  rewrite p2_add. change (p2 1) with (2 * 1)%R. lra.
Qed.

Lemma SFdiv_bounded (x : spec_float) (my : positive) (ey : Z) (a c : Z) :
  bounded_by x a -> SpecFloat.bounded prec emax my ey = true ->
  (p2 (- c) <= SF2R (S754_finite false my ey))%R ->
  -1022 <= a + c <= 1023 ->
  bounded_by (SFdiv prec emax x (S754_finite false my ey)) (a + c).
Proof.
  intros (Hx & Hvx & HX) Hvy HY Hk.
  pose proof (SF2R_nonneg x Hx) as HX0. pose proof (p2_pos (- c)) as Hc.
  set (Y := SF2R (S754_finite false my ey)) in *.
  apply (rounding_bounded (SF2R x / Y)); [apply SFdiv_rounding; assumption | | exact Hk].
  assert (HiY : (0 < / Y)%R) by (apply Rinv_0_lt_compat; lra).
  split; [apply Rmult_le_pos; lra | ].
  apply Rmult_le_reg_r with Y; [lra | ].
  replace (SF2R x / Y * Y)%R with (SF2R x) by (field; lra).
  apply Rle_trans with (p2 a); [exact HX | ].
  replace (p2 a) with (p2 (a + c) * p2 (- c))%R by (rewrite <- p2_add; f_equal; lia).
  apply Rmult_le_compat_l; [apply Rlt_le, p2_pos | exact HY].
Qed.

Lemma bounded_by_le (z : spec_float) (a b : Z) : a <= b -> bounded_by z a -> bounded_by z b.
Proof.
  intros Hab (Hz & Hv & HZ). split; [exact Hz | split; [exact Hv | ]].
  apply Rle_trans with (p2 a); [exact HZ | apply p2_le, Hab].
Qed.

Lemma SF_one_bounded : bounded_by SF_one 0.
Proof. split; [exact I | split; [reflexivity | rewrite SF2R_one, p2_0; lra]]. Qed.

(** The quotient of a bounded amount by an increment of the page. *)
Lemma quotient_finite (z : float) (inc : float) (mi : positive) (ei : Z) (k : Z) :
  bounded_by (Prim2SF z) k -> -1022 <= k + 1 <= 1023 ->
  Prim2SF inc = S754_finite false mi ei ->
  (p2 (- (1)) <= SF2R (S754_finite false mi ei))%R ->
  is_finite (z / inc) = true.
Proof.
  intros Hz Hk Ei Hi. unfold is_finite. rewrite div_spec, Ei.
  pose proof (Prim2SF_valid inc) as Hv. rewrite Ei in Hv. cbn [SpecFloat.valid_binary] in Hv.
  destruct (SFdiv_bounded _ mi ei k 1 Hz Hv Hi Hk) as (Hn & _ & _).
  unfold SF64div.
  destruct (SFdiv prec emax (Prim2SF z) (S754_finite false mi ei)) as [ s | s | | [ | ] m e ];
    try contradiction; reflexivity.
Qed.

Lemma round_to_returns (z inc : float) :
  (inc =? 0)%float = false -> is_finite (z / inc) = true ->
  exists f, round_to (VFloat z) (VFloat inc) = Ok (VFloat f).
Proof.
  intros Hz Hf. destruct (round_to_finite z inc Hz) as [H _].
  destruct (H Hf) as (n & f & _ & _ & E). eauto.
Qed.

(** The increments of the rounding selector. *)
Lemma increment_of_choice (choice : string) (r : value) :
  In (choice, Some r) rounding_map ->
  exists (inc : float) (mi : positive) (ei : Z),
    r = VFloat inc /\ (inc =? 0)%float = false /\
    Prim2SF inc = S754_finite false mi ei /\
    (p2 (- (1)) <= SF2R (S754_finite false mi ei))%R.
Proof.
  intros H. cbn [rounding_map In] in H.
  destruct H as [H | [H | [H | []]]]; inversion H; subst.
  - exists 1%float, 4503599627370496%positive, (-52).
    split; [reflexivity | split; [reflexivity | split; [reflexivity | ]]].
    apply (SF2R_range _ (-52) (-1) 0); [lia | lia | ].
    split; apply Z.leb_le; reflexivity.
  - exists 0.5%float, 4503599627370496%positive, (-53).
    split; [reflexivity | split; [reflexivity | split; [reflexivity | ]]].
    apply (SF2R_range _ (-53) (-1) (-1)); [lia | lia | ].
    split; apply Z.leb_le; reflexivity.
Qed.

(** The rates of the rate selector lie between [1/32] and [1]. *)
Lemma rate_of_option_bounds (pct : Z) :
  In pct rate_options ->
  exists (r h : float) (m : positive) (e : Z),
    truediv (VInt pct) (VFloat 100) = Ok (VFloat r) /\
    truediv (VInt pct) (VInt 2) = Ok (VFloat h) /\
    Prim2SF r = S754_finite false m e /\
    (p2 (- (5)) <= SF2R (S754_finite false m e) <= p2 0)%R.
Proof.
  intros H. cbn [rate_options In] in H.
  destruct H as [<- | [<- | [<- | [<- | []]]]];
    (do 4 eexists; split; [reflexivity | split; [reflexivity | split; [reflexivity | ]]];
     match goal with
     | |- (_ <= SF2R (S754_finite false ?m ?e) <= _)%R =>
         apply (SF2R_range m e (-5) 0);
         [apply Z.leb_le; vm_compute; reflexivity
         | apply Z.leb_le; vm_compute; reflexivity
         | split; apply Z.leb_le; vm_compute; reflexivity]
     end).
Qed.

Lemma is_finite_of (z : float) (k : Z) : bounded_by (Prim2SF z) k -> is_finite z = true.
Proof.
  intros (Hn & _ & _). unfold is_finite.
  destruct (Prim2SF z) as [ s | s | | [ | ] m e ]; try contradiction; reflexivity.
Qed.

(** Excluded: the GST amount and the total of a bounded base. *)
Lemma excluded_bounded (x r : float) :
  bounded_by (Prim2SF x) 1000 -> bounded_by (Prim2SF r) 0 ->
  bounded_by (Prim2SF (x * r)) 1000 /\ bounded_by (Prim2SF (x + x * r)) 1001.
Proof.
  intros Hx Hr.
  assert (Hg : bounded_by (Prim2SF (x * r)) 1000).
  { rewrite mul_spec. apply (SFmul_bounded _ _ 1000 0 Hx Hr). lia. }
  split; [exact Hg | ].
  rewrite add_spec. apply (SFadd_bounded _ _ 1000 Hx Hg). lia.
Qed.

(** Included: the base and the GST amount of a bounded total. *)
Lemma included_bounded (x r : float) :
  bounded_by (Prim2SF x) 1000 -> nonneg_finite (Prim2SF r) ->
  bounded_by (Prim2SF (x / (1 + r))) 1000 /\
  bounded_by (Prim2SF (x - x / (1 + r))) 1000.
Proof.
  intros (Hx & Hvx & HX) Hr.
  pose proof (Prim2SF_valid r) as Hvr.
  destruct (included_order _ _ Hvx Hvr Hx Hr) as (Hq & Hqv & HQT & Hg & Hgv & HGT).
  assert (Eq : Prim2SF (x / (1 + r))
               = SFdiv prec emax (Prim2SF x) (SFadd prec emax SF_one (Prim2SF r)))
    by (rewrite div_spec, add_spec, Prim2SF_one; reflexivity).
  assert (Eg : Prim2SF (x - x / (1 + r))
               = SFsub prec emax (Prim2SF x)
                   (SFdiv prec emax (Prim2SF x) (SFadd prec emax SF_one (Prim2SF r))))
    by (rewrite sub_spec, Eq; reflexivity).
  rewrite Eq, Eg.
  split; (split; [assumption | split; [assumption | lra]]).
Qed.

(** From the GST amount: the base and the total of a bounded amount. *)
Lemma gst_amount_bounded (x r : float) (m : positive) (e : Z) :
  bounded_by (Prim2SF x) 1000 ->
  Prim2SF r = S754_finite false m e ->
  (p2 (- (5)) <= SF2R (S754_finite false m e))%R ->
  bounded_by (Prim2SF (x / r)) 1005 /\ bounded_by (Prim2SF (x / r + x)) 1006.
Proof.
  intros Hx Er Hr.
  pose proof (Prim2SF_valid r) as Hvr. rewrite Er in Hvr. cbn [SpecFloat.valid_binary] in Hvr.
  assert (Hq : bounded_by (Prim2SF (x / r)) 1005).
  { rewrite div_spec, Er. apply (SFdiv_bounded _ m e 1000 5 Hx Hvr Hr). lia. }
  split; [exact Hq | ].
  rewrite add_spec.
  apply (SFadd_bounded _ _ 1005 Hq (bounded_by_le _ 1000 1005 ltac:(lia) Hx)). lia.
Qed.

Lemma rounded_pair (a b : float) (ka kb : Z) (choice : string) (v : value) :
  In (choice, Some v) rounding_map ->
  bounded_by (Prim2SF a) ka -> bounded_by (Prim2SF b) kb ->
  -1022 <= ka + 1 <= 1023 -> -1022 <= kb + 1 <= 1023 ->
  exists inc fa fb : float,
    v = VFloat inc /\ truthy (VFloat inc) = true /\
    round_to (VFloat a) (VFloat inc) = Ok (VFloat fa) /\
    round_to (VFloat b) (VFloat inc) = Ok (VFloat fb).
Proof.
  intros Hin Ha Hb Hka Hkb.
  destruct (increment_of_choice choice v Hin) as (inc & mi & ei & -> & Hz & Ei & Hi).
  destruct (round_to_returns a inc Hz (quotient_finite a inc mi ei ka Ha Hka Ei Hi)) as (fa & Efa).
  destruct (round_to_returns b inc Hz (quotient_finite b inc mi ei kb Hb Hkb Ei Hi)) as (fb & Efb).
  exists inc, fa, fb. split; [reflexivity | split; [ | split; assumption]].
  rewrite truthy_float, Hz. reflexivity.
Qed.

Lemma calc_from_excluded_returns (x r : float) (m : positive) (e : Z)
    (choice : string) (rounding : option value) :
  In (choice, rounding) rounding_map ->
  bounded_by (Prim2SF x) 1000 ->
  Prim2SF r = S754_finite false m e ->
  (SF2R (S754_finite false m e) <= p2 0)%R ->
  exists t g c : float,
    calc_from_excluded (VFloat x) (VFloat r) rounding
    = Ok (VFloat t, VFloat g, VFloat c, VFloat c, VFloat x).
Proof.
  intros Hin Hx Er Hr.
  assert (Hrb : bounded_by (Prim2SF r) 0).
  { pose proof (Prim2SF_valid r) as Hvr. rewrite Er in *.
    split; [exact I | split; [exact Hvr | exact Hr]]. }
  destruct (excluded_bounded x r Hx Hrb) as [Hg Ht].
  destruct rounding as [ v | ].
  - destruct (rounded_pair _ _ 1000 1001 choice v Hin Hg Ht ltac:(lia) ltac:(lia))
      as (inc & fg & ft & -> & Hi & Eg & Et).
    pose proof (calc_from_excluded_rounded x r inc Hi) as E. cbv zeta in E.
    rewrite E, Eg, Et. cbn [bind]. rewrite truediv_two. cbn [bind]. eauto.
  - pose proof (calc_from_excluded_plain x r None eq_refl) as E. cbv zeta in E.
    cbn [rounding_arg option_map] in E. rewrite E. eauto.
Qed.

Lemma calc_from_included_returns (x r : float) (m : positive) (e : Z)
    (choice : string) (rounding : option value) :
  In (choice, rounding) rounding_map ->
  bounded_by (Prim2SF x) 1000 ->
  Prim2SF r = S754_finite false m e ->
  exists b g c : float,
    calc_from_included (VFloat x) (VFloat r) rounding
    = Ok (VFloat b, VFloat g, VFloat c, VFloat c, VFloat x).
Proof.
  intros Hin Hx Er.
  destruct (included_bounded x r Hx ltac:(rewrite Er; exact I)) as [Hb Hg].
  assert (Hlt : (r <? 0)%float = false)
    by (apply nonneg_finite_not_lt; rewrite Er; exact I).
  destruct rounding as [ v | ].
  - destruct (rounded_pair _ _ 1000 1000 choice v Hin Hb Hg ltac:(lia) ltac:(lia))
      as (inc & fb & fg & -> & Hi & Eb & Eg).
    pose proof (calc_from_included_rounded x r inc Hi) as E. cbv zeta in E.
    rewrite Hlt in E. rewrite E, Eb, Eg. cbn [bind]. rewrite truediv_two. cbn [bind]. eauto.
  - pose proof (calc_from_included_plain x r None eq_refl) as E. cbv zeta in E.
    rewrite Hlt in E. cbn [rounding_arg option_map] in E. rewrite E. eauto.
Qed.

Lemma calc_from_gst_amount_returns (x r : float) (m : positive) (e : Z)
    (choice : string) (rounding : option value) :
  In (choice, rounding) rounding_map ->
  bounded_by (Prim2SF x) 1000 ->
  Prim2SF r = S754_finite false m e ->
  (p2 (- (5)) <= SF2R (S754_finite false m e))%R ->
  (r =? 0)%float = false /\
  exists b t c : float,
    calc_from_gst_amount (VFloat x) (VFloat r) rounding
    = Ok (VFloat b, VFloat t, VFloat c, VFloat c, VFloat x).
Proof.
  intros Hin Hx Er Hr.
  destruct (gst_amount_bounded x r m e Hx Er Hr) as [Hb Ht].
  assert (Hz : (r =? 0)%float = false) by (rewrite eqb_zero, Er; reflexivity).
  split; [exact Hz | ].
  destruct rounding as [ v | ].
  - destruct (rounded_pair _ _ 1005 1006 choice v Hin Hb Ht ltac:(lia) ltac:(lia))
      as (inc & fb & ft & -> & Hi & Eb & Et).
    pose proof (calc_from_gst_amount_rounded x r inc Hi) as E.
    unfold gst_amount_base, gst_amount_total in E. rewrite Hz in E.
    rewrite E, Eb, Et. cbn [bind]. eauto.
  - pose proof (calc_from_gst_amount_plain x r None eq_refl) as E.
    unfold gst_amount_base, gst_amount_total in E. rewrite Hz in E.
    cbn [rounding_arg option_map] in E. rewrite E. eauto.
Qed.

(** X17. For every rate of the rate selector, every choice of the rounding
    selector and every amount from [0] to [1e300] typed in, each of the
    three Calculate handlers raises nothing and records one entry, which
    holds the amount typed in: no division by zero, no overflow in
    [round], no failing conversion. *)
Theorem page_calculations_return (str_float : float -> string) (now : string)
    (pct : Z) (rounding_choice : string) (rounding : option value) (x : float)
    (st : session_state) :
  In pct rate_options ->
  In (rounding_choice, rounding) rounding_map ->
  finite_nonneg x = true -> float_le x 1e300 = true ->
  (exists e ui,
     on_calculate_excl str_float now pct rounding (VFloat x) st = Ok (add_history e st, ui) /\
     base e = VFloat x /\ float_entry e = true) /\
  (exists e ui,
     on_calculate_incl str_float now pct rounding (VFloat x) st = Ok (add_history e st, ui) /\
     total e = VFloat x /\ float_entry e = true) /\
  (exists e ui,
     on_calculate_from_gst str_float now pct rounding (VFloat x) st
     = Ok (add_history e st, ui) /\
     gst e = VFloat x /\ float_entry e = true).
Proof.
  intros Hp Hin Hx Hle.
  pose proof (float_le_bound x Hx Hle) as Hb.
  destruct (rate_of_option_bounds pct Hp) as (r & h & m & e & Hr & Hh & Er & Hlo & Hhi).
  split; [ | split].
  - destruct (calc_from_excluded_returns x r m e _ _ Hin Hb Er Hhi) as (t & g & c & E).
    unfold on_calculate_excl. rewrite Hr. cbn [bind]. rewrite E. cbn [bind].
    unfold format_2f at 1 2. cbn [to_float bind].
    destruct (split_line_float str_float pct h c c Hh) as (l & ->). cbn [bind].
    do 2 eexists. split; [reflexivity | split; reflexivity].
  - destruct (calc_from_included_returns x r m e _ _ Hin Hb Er) as (b & g & c & E).
    unfold on_calculate_incl. rewrite Hr. cbn [bind]. rewrite E. cbn [bind].
    unfold format_2f at 1 2. cbn [to_float bind].
    destruct (split_line_float str_float pct h c c Hh) as (l & ->). cbn [bind].
    do 2 eexists. split; [reflexivity | split; reflexivity].
  - destruct (calc_from_gst_amount_returns x r m e _ _ Hin Hb Er Hlo) as (Hz & b & t & c & E).
    unfold on_calculate_from_gst. rewrite Hr. cbn [bind]. rewrite eq_zero, Hz, E. cbn [bind].
    unfold format_2f at 1 2. cbn [to_float bind].
    destruct (split_line_float str_float pct h c c Hh) as (l & ->). cbn [bind].
    do 2 eexists. split; [reflexivity | split; reflexivity].
Qed.

Lemma page_calculations_return_witness :
  In 18 rate_options /\ In ("Round to ₹0.50"%string, Some (VFloat 0.5)) rounding_map /\
  finite_nonneg 100 = true /\ float_le 100 1e300 = true /\
  exists e ui,
    on_calculate_excl (fun _ => EmptyString) "2024-01-01 10:00:00" 18 (Some (VFloat 0.5))
      (VFloat 100) new_session = Ok (add_history e new_session, ui) /\
    base e = VFloat 100 /\ float_entry e = true.
Proof.
  assert (H1 : In 18 rate_options) by (cbn; tauto).
  assert (H2 : In ("Round to ₹0.50"%string, Some (VFloat 0.5)) rounding_map) by (cbn; tauto).
  split; [exact H1 | split; [exact H2 | split; [reflexivity | split; [reflexivity | ]]]].
  exact (proj1 (page_calculations_return (fun _ => EmptyString) "2024-01-01 10:00:00" 18
                  "Round to ₹0.50" (Some (VFloat 0.5)) 100 new_session H1 H2 eq_refl eq_refl)).
Defined.

(** ** Rounding to an increment of the page is exact *)

(** A value with at most 53 bits at an exponent of the format is not
    changed by the rounding. *)
Lemma rounding_of_exact_value (X : R) (z : spec_float) (K c : Z) :
  rounding_of X z ->
  X = (IZR K * p2 c)%R -> 0 <= K < 2 ^ 53 -> -1074 <= c <= 971 ->
  nonneg_finite z /\ SpecFloat.valid_binary prec emax z = true /\ SF2R z = X.
Proof.
  intros [(Hn & Hv & E) | (m & e & l & num & den & Hden & Hm & Hin & He & HX & ->)] EX HK Hc.
  - repeat split; assumption.
  - destruct (binary_round_aux_R false m e l num den X Hden Hm Hin He HX)
      as (m2 & Hm2 & Hf & He' & Herr & E).
    assert (HD : (0 < IZR den)%R) by (apply IZR_lt; exact Hden).
    assert (Hfloor : (IZR m * p2 e <= X)%R).
    { rewrite HX. pose proof (inbetween_floor m l num den Hden Hin) as Hfl.
      apply IZR_le in Hfl. rewrite mult_IZR in Hfl.
      pose proof (p2_pos e) as Hpe.
      apply Rmult_le_compat_r; [lra | ].
      apply Rmult_le_reg_r with (IZR den); [exact HD | ].
      replace (IZR num / IZR den * IZR den)%R with (IZR num) by (field; lra). exact Hfl. }
    assert (HXlt : (X < p2 (53 + c))%R).
    { rewrite EX, p2_add. apply Rmult_lt_compat_r; [apply p2_pos | ].
      rewrite <- p2_IZR by lia. apply IZR_lt. lia. }
    assert (Hee : fexp prec emax (Zdigits2 m + e) <= c).
    { destruct (Z.eq_dec m 0) as [-> | Hm0].
      - rewrite fexp_eq in *. cbn [Zdigits2] in *. lia.
      - pose proof (Zdigits2_pos_bounds m ltac:(lia)) as [Hlo _].
        pose proof (Zdigits2_pos m ltac:(lia)) as Hdp.
        apply IZR_le in Hlo. rewrite p2_IZR in Hlo by lia.
        assert (Hlt2 : (p2 (Zdigits2 m - 1 + e) < p2 (53 + c))%R).
        { rewrite p2_add. pose proof (p2_pos e) as Hpe.
          apply Rle_lt_trans with (IZR m * p2 e)%R;
            [apply Rmult_le_compat_r; lra | lra]. }
        apply p2_lt_inv in Hlt2. rewrite fexp_eq. lia. }
    set (e' := fexp prec emax (Zdigits2 m + e)) in *. clearbody e'.
    rewrite E.
    pose proof (p2_pos e') as Hpe.
    apply Rabs_le_both in Herr.
    assert (Ek : p2 c = (IZR (2 ^ (c - e')) * p2 e')%R).
    { rewrite p2_IZR, <- p2_add by lia. f_equal. lia. }
    assert (Em : m2 = K * 2 ^ (c - e')).
    { rewrite EX, Ek, <- Rmult_assoc, <- mult_IZR in Herr.
      assert (H1 : (IZR (K * 2 ^ (c - e') - 1) < IZR m2)%R).
      { rewrite minus_IZR. apply Rmult_lt_reg_r with (p2 e'); [exact Hpe | ]. lra. }
      assert (H2 : (IZR m2 < IZR (K * 2 ^ (c - e') + 1))%R).
      { rewrite plus_IZR. apply Rmult_lt_reg_r with (p2 e'); [exact Hpe | ]. lra. }
      apply lt_IZR in H1, H2. lia. }
    assert (Eval : (IZR m2 * p2 e' = X)%R).
    { rewrite Em, EX, Ek, mult_IZR. ring. }
    destruct (SF_round_cases m2 e' Hm2 Hf He') as [[_ Hbig] | (Hnn & Hv & Hval)].
    + exfalso. rewrite Eval in Hbig.
      pose proof (p2_le (53 + c) 1024 ltac:(lia)). lra.
    + split; [exact Hnn | split; [exact Hv | ]]. rewrite Hval. exact Eval.
Qed.

(** A float up to [2 ^ k] as a mantissa at an exponent. *)
Lemma SF2R_decompose (z : spec_float) (k : Z) :
  bounded_by z k -> k <= 1023 ->
  exists K c, SF2R z = (IZR K * p2 c)%R /\ 0 <= K < 2 ^ 53 /\ -1074 <= c <= 971 /\
              (c <= k - 52 \/ c = -1074).
Proof.
  intros (Hn & Hv & HZ) Hk.
  destruct z as [ s | | | [ | ] m e ]; try contradiction.
  - exists 0, (-1074). cbn [SF2R]. split; [ring | lia].
  - cbn [SpecFloat.valid_binary] in Hv.
    destruct (valid_digits _ _ Hv) as (He & Hd & Hnorm).
    destruct (bounded_R _ _ Hv) as [_ Hlo].
    pose proof (digits2_pos_bounds m) as [_ Hh].
    exists (Zpos m), e. split; [reflexivity | ].
    assert (Hm : Zpos m < 2 ^ 53).
    { apply Z.lt_le_trans with (1 := Hh). apply Z.pow_le_mono_r; lia. }
    split; [lia | split; [lia | ]].
    destruct (Z.eq_dec e (-1074)) as [-> | Hne]; [right; reflexivity | left].
    rewrite Hnorm in Hlo by lia. cbn [SF2R cond_Zopp] in HZ.
    assert (Hlt : (p2 (53 - 1 + e) < p2 (k + 1))%R).
    { apply Rle_lt_trans with (p2 k); [lra | apply p2_lt; lia]. }
    apply p2_lt_inv in Hlt. lia.
Qed.

(** [float(n)] is [n] itself for an int of at most 53 bits, shifted. *)
Lemma float_of_int_exact (n K c : Z) :
  n = K * 2 ^ c -> 0 <= K < 2 ^ 53 -> 0 <= c <= 971 ->
  exists f, float_of_int n = Ok f /\ nonneg_finite (Prim2SF f) /\ float_real f = IZR n.
Proof.
  intros En HK Hc.
  assert (Hp : 0 < 2 ^ c) by (apply Z.pow_pos_nonneg; lia).
  assert (Hn : 0 <= n) by (rewrite En; apply Z.mul_nonneg_nonneg; lia).
  assert (Hr : rounding_of (IZR n) (binary_normalize prec emax n 0 false)).
  { destruct n as [ | p | p ]; [ | | lia].
    - apply (rounding_of_exact (S754_zero false)); [exact I | reflexivity].
    - cbn [binary_normalize]. unfold binary_round.
      set (f := fexp prec emax (Zpos (digits2_pos p) + 0)).
      destruct (shl_align_spec p 0 f) as [Hmz Hez].
      destruct (shl_align p 0 f) as [mz ez] eqn:Esh. cbn [fst snd] in Hmz, Hez.
      set (d := Z.max 0 (0 - f)) in *.
      assert (Hd : 0 <= d) by (unfold d; lia).
      apply rounding_of_aux with (num := Zpos mz) (den := 1).
      + lia.
      + lia.
      + cbn [inbetween]. lia.
      + rewrite Hmz, Zdigits2_mul_pow2 by lia.
        replace (Zdigits2 (Zpos p) + d + ez) with (Zpos (digits2_pos p) + 0)
          by (cbn [Zdigits2]; lia).
        fold f. unfold d in Hez. lia.
      + assert (E3 : (p2 d * p2 ez = 1)%R)
          by (rewrite <- p2_add; replace (d + ez) with 0 by lia; reflexivity).
        rewrite Hmz, mult_IZR, p2_IZR by lia.
        replace (IZR (Zpos p) * p2 d / 1 * p2 ez)%R with (IZR (Zpos p) * (p2 d * p2 ez))%R
          by field.
        rewrite E3. ring. }
  assert (EX : IZR n = (IZR K * p2 c)%R).
  { rewrite En, mult_IZR, p2_IZR by lia. reflexivity. }
  destruct (rounding_of_exact_value _ _ K c Hr EX HK ltac:(lia)) as (Hnn & Hv & Hval).
  unfold float_of_int. unfold float_real.
  destruct (binary_normalize prec emax n 0 false) as [ s | s | | s m e ] eqn:Ez;
    try contradiction;
    (eexists; split; [reflexivity | ]; rewrite Prim2SF_SF2Prim by exact Hv;
     split; [exact Hnn | exact Hval]).
Qed.

(** [round] on a float that is not below zero and finite: the nearest
    int, which has at most 53 bits, shifted. *)
Lemma round_float_decompose (q : float) :
  nonneg_finite (Prim2SF q) ->
  exists n K c, round_float q = Ok n /\ n = K * 2 ^ c /\ 0 <= K < 2 ^ 53 /\ 0 <= c <= 971 /\
    (Rabs (IZR n - float_real q) <= 1 / 2)%R /\
    ((Rabs (IZR n - float_real q) = 1 / 2)%R -> Z.even n = true).
Proof.
  intros Hq. unfold round_float, float_real.
  pose proof (Prim2SF_valid q) as Hv.
  destruct (Prim2SF q) as [ s | | | [ | ] m e ]; try contradiction.
  - exists 0, 0, 0. cbn [SF2R]. split; [reflexivity | split; [reflexivity | ]].
    split; [lia | split; [lia | ]].
    replace (0 - 0)%R with 0%R by ring. rewrite Rabs_R0. split; [lra | intros F; lra].
  - cbn [SpecFloat.valid_binary] in Hv.
    destruct (valid_digits _ _ Hv) as (He & Hd & _).
    pose proof (digits2_pos_bounds m) as [_ Hh].
    assert (Hm : Zpos m < 2 ^ 53).
    { apply Z.lt_le_trans with (1 := Hh). apply Z.pow_le_mono_r; lia. }
    cbn [SF2R cond_Zopp signed_mantissa].
    destruct (0 <=? e) eqn:E; [apply Z.leb_le in E | apply Z.leb_gt in E].
    + exists (Zpos m * 2 ^ e), (Zpos m), e.
      split; [reflexivity | split; [reflexivity | split; [lia | split; [lia | ]]]].
      rewrite mult_IZR, p2_IZR by lia.
      replace (IZR (Zpos m) * p2 e - IZR (Zpos m) * p2 e)%R with 0%R by ring.
      rewrite Rabs_R0. split; [lra | intros F; lra].
    + destruct (round_half_even_shift_spec (Zpos m) (- e) ltac:(lia)) as [Hn Hev].
      assert (Hp : 2 <= 2 ^ (- e)) by (apply (Z.pow_le_mono_r 2 1 (- e)); lia).
      assert (ED : p2 e = (/ IZR (2 ^ (- e)))%R).
      { rewrite p2_IZR by lia.
        assert (E1 : (p2 e * p2 (- e) = 1)%R)
          by (rewrite <- p2_add; replace (e + - e) with 0 by lia; reflexivity).
        pose proof (p2_pos (- e)) as Hpos.
        apply Rmult_eq_reg_r with (p2 (- e)); [ | lra].
        rewrite E1. field. lra. }
      set (D := 2 ^ (- e)) in *. clearbody D.
      set (k := round_half_even_shift (Zpos m) (- e)) in *. clearbody k.
      assert (Hk : 0 <= k <= Zpos m) by nia.
      assert (HD : (0 < IZR D)%R) by (apply IZR_lt; lia).
      assert (Eabs : (Rabs (IZR k - IZR (Zpos m) * p2 e)
                      = IZR (Z.abs (k * D - Zpos m)) / IZR D)%R).
      { rewrite ED, abs_IZR, minus_IZR, mult_IZR.
        replace (IZR k - IZR (Zpos m) * / IZR D)%R
          with ((IZR k * IZR D - IZR (Zpos m)) * / IZR D)%R by (field; lra).
        rewrite Rabs_mult, (Rabs_pos_eq (/ IZR D)); [reflexivity | ].
        apply Rlt_le, Rinv_0_lt_compat, HD. }
      exists k, k, 0. cbn [cond_Zopp].
      split; [reflexivity | split; [rewrite Z.pow_0_r; lia | split; [lia | split; [lia | ]]]].
      rewrite Eabs. split.
      * apply Rmult_le_reg_r with (IZR D); [exact HD | ].
        replace (IZR (Z.abs (k * D - Zpos m)) / IZR D * IZR D)%R
          with (IZR (Z.abs (k * D - Zpos m))) by (field; lra).
        apply Rmult_le_reg_l with 2%R; [lra | ].
        replace (2 * (1 / 2 * IZR D))%R with (IZR D) by field.
        rewrite <- mult_IZR. apply IZR_le. exact Hn.
      * intros F. apply Hev.
        assert (F2 : (IZR (2 * Z.abs (k * D - Zpos m)) = IZR D)%R).
        { rewrite mult_IZR.
          replace (IZR (Z.abs (k * D - Zpos m)))
            with (IZR (Z.abs (k * D - Zpos m)) / IZR D * IZR D)%R by (field; lra).
          rewrite F. field. }
        apply eq_IZR in F2. exact F2.
Qed.

Lemma increment_exponent (choice : string) (v : value) :
  In (choice, Some v) rounding_map ->
  exists (inc : float) (j : Z),
    v = VFloat inc /\ 0 <= j <= 1 /\
    Prim2SF inc = S754_finite false 4503599627370496 (- j - 52).
Proof.
  intros H. cbn [rounding_map In] in H.
  destruct H as [H | [H | [H | []]]]; inversion H; subst.
  - exists 1%float, 0. split; [reflexivity | split; [lia | reflexivity]].
  - exists 0.5%float, 1. split; [reflexivity | split; [lia | reflexivity]].
Qed.

(** The rounding step with an increment [2 ^ -j] on an amount that is not
    below zero: the result is a multiple of the increment, a nearest one
    to the amount, and the even one on a tie. *)
Lemma round_to_increment (x inc : float) (j k : Z) :
  0 <= j <= 1 ->
  Prim2SF inc = S754_finite false 4503599627370496 (- j - 52) ->
  bounded_by (Prim2SF x) k -> 0 <= k <= 1010 ->
  exists f : float,
    round_to (VFloat x) (VFloat inc) = Ok (VFloat f) /\
    nonneg_finite (Prim2SF f) /\ nearest_multiple inc x f.
Proof.
  intros Hj Ei Hx Hk.
  destruct (pow2_float (- j) ltac:(lia)) as [Hvi EI].
  assert (Hz : (inc =? 0)%float = false) by (rewrite eqb_zero, Ei; reflexivity).
  assert (EIf : float_real inc = p2 (- j)) by (unfold float_real; rewrite Ei; exact EI).
  pose proof (p2_pos (- j)) as HI.
  assert (EIj : (p2 (- j) * p2 j = 1)%R)
    by (rewrite <- p2_add; replace (- j + j) with 0 by lia; reflexivity).
  (* the quotient is exact *)
  destruct Hx as (Hxn & Hxv & HX).
  destruct (SF2R_decompose _ k (conj Hxn (conj Hxv HX)) ltac:(lia)) as (K & c & EX & HK & Hc & Hck).
  pose proof (SFdiv_rounding (Prim2SF x) 4503599627370496 (- j - 52) Hxv Hvi Hxn) as Hq.
  rewrite EI in Hq.
  assert (EQ : (SF2R (Prim2SF x) / p2 (- j) = IZR K * p2 (c + j))%R).
  { rewrite EX, p2_add. apply Rmult_eq_reg_r with (p2 (- j)); [ | lra].
    replace (IZR K * p2 c / p2 (- j) * p2 (- j))%R with (IZR K * p2 c)%R by (field; lra).
    replace (IZR K * (p2 c * p2 j) * p2 (- j))%R
      with (IZR K * p2 c * (p2 (- j) * p2 j))%R by ring.
    rewrite EIj. ring. }
  destruct (rounding_of_exact_value _ _ K (c + j) Hq EQ HK ltac:(lia)) as (Hqn & Hqv & Hqval).
  assert (Eq : Prim2SF (x / inc)
               = SFdiv prec emax (Prim2SF x) (S754_finite false 4503599627370496 (- j - 52)))
    by (rewrite div_spec, Ei; reflexivity).
  rewrite <- Eq in Hqn, Hqv, Hqval.
  (* the nearest int and its float *)
  destruct (round_float_decompose (x / inc) Hqn)
    as (n & K' & c' & En & EK' & HK' & Hc' & Hnear & Heven).
  unfold float_real in Hnear, Heven. rewrite Hqval in Hnear, Heven.
  destruct (float_of_int_exact n K' c' EK' HK' Hc') as (f0 & Ef0 & Hf0n & Hf0).
  unfold float_real in Hf0.
  (* the product is exact *)
  pose proof (SFmul_rounding (Prim2SF f0) (S754_finite false 4503599627370496 (- j - 52))
                (Prim2SF_valid f0) Hvi Hf0n I) as Hm.
  rewrite EI, Hf0 in Hm.
  assert (EM : (IZR n * p2 (- j) = IZR K' * p2 (c' - j))%R).
  { rewrite EK', mult_IZR, p2_IZR by lia.
    replace (c' - j) with (c' + - j) by lia. rewrite p2_add. ring. }
  destruct (rounding_of_exact_value _ _ K' (c' - j) Hm EM HK' ltac:(lia))
    as (Hrn & Hrv & Hrval).
  assert (Er : Prim2SF (f0 * inc)
               = SFmul prec emax (Prim2SF f0)
                   (S754_finite false 4503599627370496 (- j - 52)))
    by (rewrite mul_spec, Ei; reflexivity).
  rewrite <- Er in Hrn, Hrv, Hrval.
  exists (f0 * inc)%float.
  split.
  { unfold round_to. rewrite (truediv_float x inc Hz). cbn [bind round].
    rewrite En. cbn [bind mul to_float]. rewrite Ef0. reflexivity. }
  split; [exact Hrn | ].
  split.
  { unfold is_finite.
    destruct (Prim2SF (f0 * inc)) as [ s0 | s0 | | [ | ] m0 e0 ]; try contradiction;
      reflexivity. }
  exists n. unfold float_real at 1. rewrite Hrval, EIf.
  split; [reflexivity | ].
  unfold float_real. rewrite Hrval.
  assert (Eabs : (Rabs (IZR n * p2 (- j) - SF2R (Prim2SF x))
                  = p2 (- j) * Rabs (IZR n - SF2R (Prim2SF x) / p2 (- j)))%R).
  { replace (IZR n * p2 (- j) - SF2R (Prim2SF x))%R
      with (p2 (- j) * (IZR n - SF2R (Prim2SF x) / p2 (- j)))%R by (field; lra).
    rewrite Rabs_mult, (Rabs_pos_eq (p2 (- j))); [reflexivity | lra]. }
  rewrite Eabs. split.
  - replace (p2 (- j) / 2)%R with (p2 (- j) * (1 / 2))%R by field.
    apply Rmult_le_compat_l; [lra | exact Hnear].
  - intros F. apply Heven.
    apply Rmult_eq_reg_l with (p2 (- j)); [ | lra]. rewrite F. field.
Qed.

Lemma float_le_one (r : float) :
  finite_nonneg r = true -> float_le r 1 = true -> bounded_by (Prim2SF r) 0.
Proof.
  intros Hr Hle. apply finite_nonneg_spec in Hr.
  pose proof (Prim2SF_valid r) as Hv.
  split; [exact Hr | split; [exact Hv | ]].
  assert (Hc : SFcompare (Prim2SF r) (Prim2SF 1) = Some Lt \/
               SFcompare (Prim2SF r) (Prim2SF 1) = Some Eq).
  { unfold float_le, Py.le in Hle. cbn [Py.compare] in Hle.
    destruct (SFcompare (Prim2SF r) (Prim2SF 1)) as [ [ | | ] | ];
      try discriminate Hle; [right | left]; reflexivity. }
  rewrite Prim2SF_one in Hc. rewrite p2_0, <- SF2R_one.
  apply SFcompare_le_inv; [exact Hr | exact Hv | exact I | reflexivity | exact Hc].
Qed.

Lemma float_le_low (r : float) :
  is_finite r = true -> float_le 0.03125 r = true ->
  exists m e, Prim2SF r = S754_finite false m e /\
              (p2 (- (5)) <= SF2R (S754_finite false m e))%R.
Proof.
  intros Hf Hle. pose proof (Prim2SF_valid r) as Hv.
  assert (E : Prim2SF 0.03125 = S754_finite false 4503599627370496 (- (5) - 52))
    by reflexivity.
  destruct (pow2_float (- (5)) ltac:(lia)) as [Hvl EL].
  unfold float_le, Py.le in Hle. cbn [Py.compare] in Hle. rewrite E in Hle.
  unfold is_finite in Hf.
  destruct (Prim2SF r) as [ s | s | | [ | ] m e ]; try discriminate Hf;
    try (cbn in Hle; discriminate Hle).
  exists m, e. split; [reflexivity | ].
  rewrite <- EL.
  apply SFcompare_le_inv; [exact I | exact Hvl | exact I | exact Hv | ].
  destruct (SFcompare (S754_finite false 4503599627370496 (- (5) - 52))
              (S754_finite false m e)) as [ [ | | ] | ];
    try discriminate Hle; [right | left]; reflexivity.
Qed.

(** X18. With an increment of the rounding selector ([1.0] or [0.5]), for
    a base from [0] to [1e300] and a rate from [0] to [1],
    [calc_from_excluded] returns a GST amount and a total that are exact
    multiples of the increment, each a nearest one to the amount it
    rounds (within half an increment), and the even multiple on a tie;
    the halves are those of the rounded GST amount. *)
Theorem calc_from_excluded_rounds_to_increment (base_price rate inc : float)
    (choice : string) :
  In (choice, Some (VFloat inc)) rounding_map ->
  finite_nonneg base_price = true -> float_le base_price 1e300 = true ->
  finite_nonneg rate = true -> float_le rate 1 = true ->
  exists g t : float,
    calc_from_excluded (VFloat base_price) (VFloat rate) (Some (VFloat inc))
    = Ok (VFloat t, VFloat g, VFloat (g / 2), VFloat (g / 2), VFloat base_price) /\
    nearest_multiple inc (base_price * rate) g /\
    nearest_multiple inc (base_price + base_price * rate) t.
Proof.
  intros Hin Hb Hble Hr Hrle.
  destruct (increment_exponent choice _ Hin) as (inc' & j & Ev & Hj & Ei).
  injection Ev as <-.
  destruct (excluded_bounded base_price rate (float_le_bound _ Hb Hble)
              (float_le_one _ Hr Hrle)) as [Hg Ht].
  destruct (round_to_increment _ inc j 1000 Hj Ei Hg ltac:(lia)) as (g & Eg & _ & Hg1).
  destruct (round_to_increment _ inc j 1001 Hj Ei Ht ltac:(lia)) as (t & Et & _ & Ht1).
  assert (Hi : truthy (VFloat inc) = true).
  { rewrite truthy_float, eqb_zero, Ei. reflexivity. }
  exists g, t. split; [ | split; assumption].
  pose proof (calc_from_excluded_rounded base_price rate inc Hi) as E. cbv zeta in E.
  rewrite E, Eg, Et. cbn [bind]. rewrite truediv_two. reflexivity.
Qed.

Lemma calc_from_excluded_rounds_to_increment_witness :
  In ("Round to ₹0.50"%string, Some (VFloat 0.5)) rounding_map /\
  finite_nonneg 100 = true /\ float_le 100 1e300 = true /\
  finite_nonneg 0.18 = true /\ float_le 0.18 1 = true /\
  exists g t : float,
    calc_from_excluded (VFloat 100) (VFloat 0.18) (Some (VFloat 0.5))
    = Ok (VFloat t, VFloat g, VFloat (g / 2), VFloat (g / 2), VFloat 100) /\
    nearest_multiple 0.5 (100 * 0.18) g /\
    nearest_multiple 0.5 (100 + 100 * 0.18) t.
Proof.
  assert (H : In ("Round to ₹0.50"%string, Some (VFloat 0.5)) rounding_map) by (cbn; tauto).
  split; [exact H | ].
  split; [reflexivity | split; [reflexivity | split; [reflexivity | split; [reflexivity | ]]]].
  exact (calc_from_excluded_rounds_to_increment 100 0.18 0.5 "Round to ₹0.50" H
           eq_refl eq_refl eq_refl eq_refl).
Defined.

(** X19. With an increment of the rounding selector, for a total from [0]
    to [1e300] and a finite rate not below zero, [calc_from_included]
    returns a base and a GST amount that are exact multiples of the
    increment, each a nearest one to the amount it rounds, and the even
    multiple on a tie; the total is returned as given. *)
Theorem calc_from_included_rounds_to_increment (total_price rate inc : float)
    (choice : string) :
  In (choice, Some (VFloat inc)) rounding_map ->
  finite_nonneg total_price = true -> float_le total_price 1e300 = true ->
  finite_nonneg rate = true ->
  let base0 := (total_price / (1 + rate))%float in
  exists b g : float,
    calc_from_included (VFloat total_price) (VFloat rate) (Some (VFloat inc))
    = Ok (VFloat b, VFloat g, VFloat (g / 2), VFloat (g / 2), VFloat total_price) /\
    nearest_multiple inc base0 b /\
    nearest_multiple inc (total_price - base0) g.
Proof.
  intros Hin Ht Htle Hr. cbv zeta.
  destruct (increment_exponent choice _ Hin) as (inc' & j & Ev & Hj & Ei).
  injection Ev as <-.
  apply finite_nonneg_spec in Hr.
  destruct (included_bounded total_price rate (float_le_bound _ Ht Htle) Hr) as [Hb Hg].
  destruct (round_to_increment _ inc j 1000 Hj Ei Hb ltac:(lia)) as (b & Eb & _ & Hb1).
  destruct (round_to_increment _ inc j 1000 Hj Ei Hg ltac:(lia)) as (g & Eg & _ & Hg1).
  assert (Hi : truthy (VFloat inc) = true).
  { rewrite truthy_float, eqb_zero, Ei. reflexivity. }
  exists b, g. split; [ | split; assumption].
  pose proof (calc_from_included_rounded total_price rate inc Hi) as E. cbv zeta in E.
  rewrite (nonneg_finite_not_lt rate Hr) in E.
  rewrite E, Eb, Eg. cbn [bind]. rewrite truediv_two. reflexivity.
Qed.

Lemma calc_from_included_rounds_to_increment_witness :
  In ("Round to ₹1"%string, Some (VFloat 1)) rounding_map /\
  finite_nonneg 100.4 = true /\ float_le 100.4 1e300 = true /\
  finite_nonneg 0.18 = true /\
  exists b g : float,
    calc_from_included (VFloat 100.4) (VFloat 0.18) (Some (VFloat 1))
    = Ok (VFloat b, VFloat g, VFloat (g / 2), VFloat (g / 2), VFloat 100.4) /\
    nearest_multiple 1 (100.4 / (1 + 0.18)) b /\
    nearest_multiple 1 (100.4 - 100.4 / (1 + 0.18)) g.
Proof.
  assert (H : In ("Round to ₹1"%string, Some (VFloat 1)) rounding_map) by (cbn; tauto).
  split; [exact H | ].
  split; [reflexivity | split; [reflexivity | split; [reflexivity | ]]].
  exact (calc_from_included_rounds_to_increment 100.4 0.18 1 "Round to ₹1" H
           eq_refl eq_refl eq_refl).
Defined.

(** X20. With an increment of the rounding selector, for a GST amount
    from [0] to [1e300] and a finite rate of at least [1/32],
    [calc_from_gst_amount] returns a base and a total that are exact
    multiples of the increment, each a nearest one to the amount it
    rounds, and the even multiple on a tie; the halves are those of the
    GST amount as given, which is not rounded. *)
Theorem calc_from_gst_amount_rounds_to_increment (gst_amount rate inc : float)
    (choice : string) :
  In (choice, Some (VFloat inc)) rounding_map ->
  finite_nonneg gst_amount = true -> float_le gst_amount 1e300 = true ->
  is_finite rate = true -> float_le 0.03125 rate = true ->
  let base0 := (gst_amount / rate)%float in
  exists b t : float,
    calc_from_gst_amount (VFloat gst_amount) (VFloat rate) (Some (VFloat inc))
    = Ok (VFloat b, VFloat t, VFloat (gst_amount / 2), VFloat (gst_amount / 2),
          VFloat gst_amount) /\
    nearest_multiple inc base0 b /\
    nearest_multiple inc (base0 + gst_amount) t.
Proof.
  intros Hin Hg Hgle Hrf Hrle. cbv zeta.
  destruct (increment_exponent choice _ Hin) as (inc' & j & Ev & Hj & Ei).
  injection Ev as <-.
  destruct (float_le_low rate Hrf Hrle) as (m & e & Er & Hlo).
  destruct (gst_amount_bounded gst_amount rate m e (float_le_bound _ Hg Hgle) Er Hlo)
    as [Hb Ht].
  destruct (round_to_increment _ inc j 1005 Hj Ei Hb ltac:(lia)) as (b & Eb & _ & Hb1).
  destruct (round_to_increment _ inc j 1006 Hj Ei Ht ltac:(lia)) as (t & Et & _ & Ht1).
  assert (Hi : truthy (VFloat inc) = true).
  { rewrite truthy_float, eqb_zero, Ei. reflexivity. }
  assert (Hz : (rate =? 0)%float = false) by (rewrite eqb_zero, Er; reflexivity).
  exists b, t. split; [ | split; assumption].
  pose proof (calc_from_gst_amount_rounded gst_amount rate inc Hi) as E.
  unfold gst_amount_base, gst_amount_total in E. rewrite Hz in E.
  rewrite E, Eb, Et. reflexivity.
Qed.

Lemma calc_from_gst_amount_rounds_to_increment_witness :
  In ("Round to ₹1"%string, Some (VFloat 1)) rounding_map /\
  finite_nonneg 18.3 = true /\ float_le 18.3 1e300 = true /\
  is_finite 0.18 = true /\ float_le 0.03125 0.18 = true /\
  exists b t : float,
    calc_from_gst_amount (VFloat 18.3) (VFloat 0.18) (Some (VFloat 1))
    = Ok (VFloat b, VFloat t, VFloat (18.3 / 2), VFloat (18.3 / 2), VFloat 18.3) /\
    nearest_multiple 1 (18.3 / 0.18) b /\
    nearest_multiple 1 (18.3 / 0.18 + 18.3) t.
Proof.
  assert (H : In ("Round to ₹1"%string, Some (VFloat 1)) rounding_map) by (cbn; tauto).
  split; [exact H | ].
  split; [reflexivity | split; [reflexivity | split; [reflexivity | split; [reflexivity | ]]]].
  exact (calc_from_gst_amount_rounds_to_increment 18.3 0.18 1 "Round to ₹1" H
           eq_refl eq_refl eq_refl eq_refl).
Defined.

(** ** From the GST amount to the base and back *)

Local Open Scope R_scope.

(** The error of the way back from the errors of the two operations. *)
Lemma reverse_algebra (u eta G Rt Q P : R) :
  0 < u <= 1 / 64 -> 0 <= eta ->
  0 <= G -> 0 < Rt <= 1 -> 0 <= Q -> 0 <= P ->
  Rabs (Q - G / Rt) <= Q * u + eta ->
  Rabs (P - Q * Rt) <= P * u + eta ->
  Rabs (P - G) <= 4 * u * G + 4 * eta.
Proof.
  intros Hu He HG HR HQ HP H1 H2.
  apply Rabs_le_both in H1, H2.
  set (A := Q * Rt) in *.
  assert (HA0 : 0 <= A) by (apply Rmult_le_pos; lra).
  assert (HeR : 0 <= eta * Rt <= eta).
  { split; [apply Rmult_le_pos; lra | ].
    rewrite <- (Rmult_1_r eta) at 2. apply Rmult_le_compat_l; lra. }
  assert (H1' : - (A * u + eta * Rt) <= A - G <= A * u + eta * Rt).
  { assert (E : (Q - G / Rt) * Rt = A - G) by (unfold A; field; lra).
    rewrite <- E. split.
    - replace (- (A * u + eta * Rt)) with (- (Q * u + eta) * Rt) by (unfold A; ring).
      apply Rmult_le_compat_r; lra.
    - replace (A * u + eta * Rt) with ((Q * u + eta) * Rt) by (unfold A; ring).
      apply Rmult_le_compat_r; lra. }
  clearbody A.
  assert (HPu : 0 <= P * u <= P * (1 / 64))
    by (split; [apply Rmult_le_pos; lra | apply Rmult_le_compat_l; lra]).
  assert (HPuu : 0 <= P * u * u <= P * u * (1 / 64))
    by (split; [apply Rmult_le_pos; lra | apply Rmult_le_compat_l; lra]).
  assert (Heu : 0 <= eta * u <= eta * (1 / 64))
    by (split; [apply Rmult_le_pos; lra | apply Rmult_le_compat_l; lra]).
  assert (HAu : A * u <= (P + P * u + eta) * u) by (apply Rmult_le_compat_r; lra).
  assert (HAu0 : 0 <= A * u) by (apply Rmult_le_pos; lra).
  assert (Hmain : Rabs (P - G) <= P * u * (2 + 1 / 64) + eta * (2 + 1 / 64)).
  { apply Rabs_le. split; lra. }
  pose proof (Rabs_pos (P - G)) as HE0.
  pose proof (Rle_abs (P - G)) as HE1.
  set (E := Rabs (P - G)) in *. clearbody E.
  assert (HPE : P * u <= (G + E) * u) by (apply Rmult_le_compat_r; lra).
  assert (HEu : E * u <= E * (1 / 64)) by (apply Rmult_le_compat_l; lra).
  assert (HGu : 0 <= G * u) by (apply Rmult_le_pos; lra).
  lra.
Qed.

Local Close Scope R_scope.

(** The way back on spec floats: the quotient by the rate, times the
    rate. *)
Lemma reverse_SF (g : spec_float) (mr : positive) (er : Z) :
  SpecFloat.valid_binary prec emax g = true -> nonneg_finite g ->
  SpecFloat.bounded prec emax mr er = true ->
  (SF2R (S754_finite false mr er) <= 1)%R ->
  let r := S754_finite false mr er in
  let q := SFdiv prec emax g r in
  let p := SFmul prec emax q r in
  q <> S754_infinity false ->
  nonneg_finite q /\ nonneg_finite p /\
  (Rabs (SF2R p - SF2R g) <= SF2R g * p2 (-51) + p2 (-1073))%R.
Proof.
  intros Hvg Hg Hvr Hr1 r q p Hqi.
  pose proof (SF2R_nonneg g Hg) as HG0.
  pose proof (SF2R_pos mr er) as HR0. fold r in HR0, Hr1.
  pose proof (p2_lt 970 971 ltac:(lia)) as H970.
  destruct (SFdiv_rounds g mr er Hvg Hvr Hg) as [_ Hq]. fold r q in Hq.
  destruct (Hq Hqi) as (Hqn & Hqv & Hqe & _).
  pose proof (SF2R_nonneg q Hqn) as HQ0.
  pose proof (SF2R_le_max q Hqv Hqn) as HQmax.
  destruct (SFmul_rounds q r Hqv Hvr Hqn I) as [Hpf Hpr]. fold p in Hpf, Hpr.
  assert (HQR : (SF2R q * SF2R r <= SF2R q)%R).
  { rewrite <- (Rmult_1_r (SF2R q)) at 2. apply Rmult_le_compat_l; lra. }
  assert (Hpi : p <> S754_infinity false) by (apply Hpf; lra).
  destruct (Hpr Hpi) as (Hpn & _ & Hpe & _).
  pose proof (SF2R_nonneg p Hpn) as HP0.
  split; [exact Hqn | split; [exact Hpn | ]].
  assert (Hu : (0 < p2 (-53) <= 1 / 64)%R).
  { split; [apply p2_pos | rewrite <- p2_m6; apply p2_le; lia]. }
  assert (He : (0 <= p2 (-1075))%R) by apply Rlt_le, p2_pos.
  pose proof (reverse_algebra (p2 (-53)) (p2 (-1075)) (SF2R g) (SF2R r) (SF2R q) (SF2R p)
                Hu He HG0 (conj HR0 Hr1) HQ0 HP0 Hqe Hpe) as Hfin.
  replace (p2 (-51)) with (4 * p2 (-53))%R by (rewrite <- p2_2, <- p2_add; reflexivity).
  replace (p2 (-1073)) with (4 * p2 (-1075))%R by (rewrite <- p2_2, <- p2_add; reflexivity).
  lra.
Qed.

(** X21. From the GST amount to the base and back: for a finite GST amount
    not below zero and a rate above zero and at most [1], when the base
    [gst_amount / rate] does not overflow, [calc_from_gst_amount] returns
    that base, and [calc_from_excluded] on the base at the same rate
    returns a GST amount that is finite and within
    [gst_amount * 2 ^ -51 + 2 ^ -1073] of the one that went in (no
    rounding on either leg). *)
Theorem gst_amount_round_trip (gst_amount rate : float) :
  finite_nonneg gst_amount = true ->
  Py.lt (VInt 0) (VFloat rate) = true -> float_le rate 1 = true ->
  is_finite (gst_amount / rate) = true ->
  let base := (gst_amount / rate)%float in
  let back := (base * rate)%float in
  calc_from_gst_amount (VFloat gst_amount) (VFloat rate) None
  = Ok (VFloat base, VFloat (base + gst_amount), VFloat (gst_amount / 2),
        VFloat (gst_amount / 2), VFloat gst_amount) /\
  calc_from_excluded (VFloat base) (VFloat rate) None
  = Ok (VFloat (base + back), VFloat back, VFloat (back / 2), VFloat (back / 2),
        VFloat base) /\
  is_finite back = true /\
  (Rabs (float_real back - float_real gst_amount)
   <= float_real gst_amount * p2 (-51) + p2 (-1073))%R.
Proof.
  intros Hg Hr Hr1 Hbf. cbv zeta.
  apply finite_nonneg_spec in Hg.
  pose proof (Prim2SF_valid gst_amount) as Hvg. pose proof (Prim2SF_valid rate) as Hvr.
  assert (Hrf : is_finite rate = true).
  { unfold float_le, Py.le in Hr1. cbn [Py.compare] in Hr1. rewrite Prim2SF_one in Hr1.
    unfold Py.lt in Hr. cbn [Py.compare] in Hr.
    pose proof (compare_float_zero rate) as Hc. cbn [Py.compare] in Hc. rewrite Hc in Hr.
    unfold is_finite.
    destruct (Prim2SF rate) as [ s | [ | ] | | [ | ] m e ]; try reflexivity;
      try (cbn in Hr; discriminate Hr); cbn in Hr1; discriminate Hr1. }
  destruct (lt_zero_positive rate Hr Hrf) as (mr & er & Er).
  rewrite Er in Hvr. cbn [SpecFloat.valid_binary] in Hvr.
  assert (HR1 : (SF2R (S754_finite false mr er) <= 1)%R).
  { rewrite <- SF2R_one.
    apply (SFcompare_le_inv (S754_finite false mr er) SF_one I Hvr I eq_refl).
    unfold float_le, Py.le in Hr1. cbn [Py.compare] in Hr1.
    rewrite Er, Prim2SF_one in Hr1. fold SF_one in Hr1.
    destruct (SFcompare (S754_finite false mr er) SF_one) as [ [ | | ] | ];
      try discriminate Hr1; [right | left]; reflexivity. }
  assert (Hz : (rate =? 0)%float = false) by (rewrite eqb_zero, Er; reflexivity).
  assert (Eq : Prim2SF (gst_amount / rate)
               = SFdiv prec emax (Prim2SF gst_amount) (S754_finite false mr er))
    by (rewrite div_spec, Er; reflexivity).
  assert (Ep : Prim2SF (gst_amount / rate * rate)
               = SFmul prec emax
                   (SFdiv prec emax (Prim2SF gst_amount) (S754_finite false mr er))
                   (S754_finite false mr er))
    by (rewrite mul_spec, Eq, Er; reflexivity).
  assert (Hqi : SFdiv prec emax (Prim2SF gst_amount) (S754_finite false mr er)
                <> S754_infinity false).
  { intros E. unfold is_finite in Hbf. rewrite Eq, E in Hbf. discriminate Hbf. }
  destruct (reverse_SF _ mr er Hvg Hg Hvr HR1 Hqi) as (_ & Hpn & Hbound).
  split.
  { pose proof (calc_from_gst_amount_plain gst_amount rate None eq_refl) as H.
    unfold gst_amount_base, gst_amount_total in H. rewrite Hz in H. exact H. }
  split; [apply (calc_from_excluded_plain (gst_amount / rate) rate None); reflexivity | ].
  unfold is_finite, float_real. rewrite Ep.
  split; [ | exact Hbound].
  destruct (SFmul prec emax
              (SFdiv prec emax (Prim2SF gst_amount) (S754_finite false mr er))
              (S754_finite false mr er)) as [ s | s | | [ | ] m e ];
    try contradiction; reflexivity.
Qed.

Lemma gst_amount_round_trip_witness :
  finite_nonneg 18 = true /\ Py.lt (VInt 0) (VFloat 0.18) = true /\
  float_le 0.18 1 = true /\ is_finite (18 / 0.18) = true /\
  (Rabs (float_real (18 / 0.18 * 0.18) - float_real 18)
   <= float_real 18 * p2 (-51) + p2 (-1073))%R.
Proof.
  split; [reflexivity | split; [reflexivity | split; [reflexivity | split; [reflexivity | ]]]].
  exact (proj2 (proj2 (proj2 (gst_amount_round_trip 18 0.18 eq_refl eq_refl eq_refl eq_refl)))).
Defined.

(** ** From the total to the base and back *)

Local Open Scope R_scope.

(** The error of the way back from the errors of the four operations. *)
Lemma included_back_algebra (u eta T Rt D Q G T' : R) :
  0 < u <= 1 / 64 -> 0 <= eta <= u ->
  0 <= T -> 0 <= Rt <= 1 -> 1 <= D -> 0 <= Q <= T -> 0 <= G <= T -> 0 <= T' ->
  Rabs (D - (1 + Rt)) <= D * u + eta ->
  Rabs (Q - T / D) <= Q * u + eta ->
  Rabs (G - Q * Rt) <= G * u + eta ->
  Rabs (T' - (Q + G)) <= T' * u + eta ->
  Rabs (T' - T) <= 8 * u * T + 8 * eta.
Proof.
  intros Hu He HT HR HD HQ HG HT' H1 H2 H3 H4.
  apply Rabs_le_both in H1, H2, H3, H4.
  assert (HDu : 0 <= D * u <= D * (1 / 64))
    by (split; [apply Rmult_le_pos; lra | apply Rmult_le_compat_l; lra]).
  assert (HD2 : D <= 33 / 16) by lra.
  assert (HQu : 0 <= Q * u <= T * u)
    by (split; [apply Rmult_le_pos; lra | apply Rmult_le_compat_r; lra]).
  assert (HGu : 0 <= G * u <= T * u)
    by (split; [apply Rmult_le_pos; lra | apply Rmult_le_compat_r; lra]).
  assert (HTu : 0 <= T * u) by (apply Rmult_le_pos; lra).
  (* Q * D against T *)
  assert (Ha : - ((33 / 16) * (Q * u) + (33 / 16) * eta) <= Q * D - T
               <= (33 / 16) * (Q * u) + (33 / 16) * eta).
  { assert (E : (Q - T / D) * D = Q * D - T) by (field; lra).
    assert (B1 : D * (Q * u) <= (33 / 16) * (Q * u)) by (apply Rmult_le_compat_r; lra).
    assert (B2 : D * eta <= (33 / 16) * eta) by (apply Rmult_le_compat_r; lra).
    rewrite <- E. split.
    - apply Rle_trans with (- (Q * u + eta) * D); [ | apply Rmult_le_compat_r; lra].
      replace (- (Q * u + eta) * D) with (- (D * (Q * u) + D * eta)) by ring. lra.
    - apply Rle_trans with ((Q * u + eta) * D); [apply Rmult_le_compat_r; lra | ].
      replace ((Q * u + eta) * D) with (D * (Q * u) + D * eta) by ring. lra. }
  (* Q * (1 + Rt) against Q * D *)
  assert (Hb : - ((33 / 16) * (Q * u) + Q * u) <= Q * (1 + Rt) - Q * D
               <= (33 / 16) * (Q * u) + Q * u).
  { assert (B1 : Q * (D * u) <= (33 / 16) * (Q * u)).
    { replace (Q * (D * u)) with (D * (Q * u)) by ring. apply Rmult_le_compat_r; lra. }
    assert (B2 : 0 <= Q * eta <= Q * u)
      by (split; [apply Rmult_le_pos; lra | apply Rmult_le_compat_l; lra]).
    replace (Q * (1 + Rt) - Q * D) with (Q * ((1 + Rt) - D)) by ring. split.
    - apply Rle_trans with (Q * - (D * u + eta)); [ | apply Rmult_le_compat_l; lra].
      replace (Q * - (D * u + eta)) with (- (Q * (D * u) + Q * eta)) by ring. lra.
    - apply Rle_trans with (Q * (D * u + eta)); [apply Rmult_le_compat_l; lra | ].
      replace (Q * (D * u + eta)) with (Q * (D * u) + Q * eta) by ring. lra. }
  assert (Edec : T' - T = (T' - (Q + G)) + (G - Q * Rt) + (Q * (1 + Rt) - Q * D)
                          + (Q * D - T)) by ring.
  assert (Hmain : Rabs (T' - T) <= T' * u + (49 / 8) * (T * u) + 5 * eta).
  { apply Rabs_le. rewrite Edec. split; lra. }
  pose proof (Rabs_pos (T' - T)) as HE0.
  pose proof (Rle_abs (T' - T)) as HE1.
  set (E := Rabs (T' - T)) in *. clearbody E.
  assert (HTE : T' * u <= (T + E) * u) by (apply Rmult_le_compat_r; lra).
  assert (HEu : E * u <= E * (1 / 64)) by (apply Rmult_le_compat_l; lra).
  lra.
Qed.

Local Close Scope R_scope.

(** The way back on spec floats: the quotient by [1 + r], plus its
    product with [r]. *)
Lemma included_back_SF (t r : spec_float) :
  bounded_by t 1000 -> bounded_by r 0 ->
  let d := SFadd prec emax SF_one r in
  let q := SFdiv prec emax t d in
  let g := SFmul prec emax q r in
  let t' := SFadd prec emax q g in
  nonneg_finite t' /\
  (Rabs (SF2R t' - SF2R t) <= SF2R t * p2 (-50) + p2 (-1072))%R.
Proof.
  intros (Ht & Hvt & HT) (Hr & Hvr & HR) d q g t'.
  rewrite p2_0 in HR.
  pose proof (SF2R_nonneg t Ht) as HT0. pose proof (SF2R_nonneg r Hr) as HR0.
  pose proof (p2_lt 0 970 ltac:(lia)) as H0970. rewrite p2_0 in H0970.
  pose proof (p2_lt 1001 1023 ltac:(lia)) as H1001.
  pose proof (p2_lt 1 1001 ltac:(lia)) as H1. change (p2 1) with (2 * 1)%R in H1.
  assert (H1024 : (p2 1023 < p2 1024 - p2 970)%R).
  { replace (p2 1024) with (2 * p2 1023)%R
      by (change 1024 with (1 + 1023); rewrite p2_add; change (p2 1) with (2 * 1)%R; ring).
    pose proof (p2_lt 970 1023 ltac:(lia)). lra. }
  (* the divisor *)
  assert (Hv1 : SpecFloat.valid_binary prec emax SF_one = true) by reflexivity.
  destruct (SFadd_rounds SF_one r Hv1 Hvr I Hr) as [Hdf Hdr]. fold d in Hdf, Hdr.
  rewrite SF2R_one in Hdf, Hdr.
  assert (Hdi : d <> S754_infinity false) by (apply Hdf; lra).
  destruct (Hdr Hdi) as (Hdn & Hdv & Hde & Hdm).
  assert (HD1 : (1 <= SF2R d)%R).
  { rewrite <- p2_0. apply Hdm; [lia | rewrite p2_0; lra]. }
  destruct (included_order t r Hvt Hvr Ht Hr) as (Hqn & Hqv & HQT & _). fold d q in Hqn, Hqv, HQT.
  pose proof (SF2R_nonneg q Hqn) as HQ0.
  destruct d as [ sd | | | [ | ] md ed ] eqn:Ed; try contradiction;
    [cbn [SF2R] in HD1; lra | ].
  cbn [SpecFloat.valid_binary] in Hdv.
  (* the base *)
  destruct (SFdiv_rounds t md ed Hvt Hdv Ht) as [_ Hqr]. fold q in Hqr.
  assert (Hqi : q <> S754_infinity false).
  { intros E. rewrite E in Hqn. exact Hqn. }
  destruct (Hqr Hqi) as (_ & _ & Hqe & _).
  (* the GST amount of the base *)
  pose proof (SFmul_rounding q r Hqv Hvr Hqn Hr) as Hgr. fold g in Hgr.
  assert (HQR : (0 <= SF2R q * SF2R r <= SF2R q)%R).
  { split; [apply Rmult_le_pos; lra | ].
    rewrite <- (Rmult_1_r (SF2R q)) at 2. apply Rmult_le_compat_l; lra. }
  destruct (rounding_of_le _ _ q Hgr Hqn Hqv HQR) as (Hgn & Hgv & HGQ).
  pose proof (SF2R_nonneg g Hgn) as HG0.
  destruct (SFmul_rounds q r Hqv Hvr Hqn Hr) as [_ Hgs]. fold g in Hgs.
  assert (Hgi : g <> S754_infinity false).
  { intros E. rewrite E in Hgn. exact Hgn. }
  destruct (Hgs Hgi) as (_ & _ & Hge & _).
  (* the total that comes back *)
  destruct (SFadd_rounds q g Hqv Hgv Hqn Hgn) as [Htf Htr]. fold t' in Htf, Htr.
  assert (H2T : (SF2R q + SF2R g <= p2 1001)%R).
  { change 1001 with (1000 + 1). rewrite p2_add. change (p2 1) with (2 * 1)%R. lra. }
  assert (Hti : t' <> S754_infinity false) by (apply Htf; lra).
  destruct (Htr Hti) as (Htn & _ & Hte & _).
  pose proof (SF2R_nonneg t' Htn) as HT'0.
  split; [exact Htn | ].
  assert (Hu : (0 < p2 (-53) <= 1 / 64)%R).
  { split; [apply p2_pos | rewrite <- p2_m6; apply p2_le; lia]. }
  assert (He : (0 <= p2 (-1075) <= p2 (-53))%R).
  { split; [apply Rlt_le, p2_pos | apply p2_le; lia]. }
  set (D := SF2R (S754_finite false md ed)) in *.
  assert (HGT : (SF2R g <= SF2R t)%R) by lra.
  pose proof (included_back_algebra (p2 (-53)) (p2 (-1075)) (SF2R t) (SF2R r) D
                (SF2R q) (SF2R g) (SF2R t') Hu He HT0 (conj HR0 HR) HD1
                (conj HQ0 HQT) (conj HG0 HGT) HT'0 Hde Hqe Hge Hte) as Hfin.
  replace (p2 (-50)) with (8 * p2 (-53))%R by (rewrite <- p2_3, <- p2_add; reflexivity).
  replace (p2 (-1072)) with (8 * p2 (-1075))%R by (rewrite <- p2_3, <- p2_add; reflexivity).
  lra.
Qed.

(** X22. From the total to the base and back: for a total from [0] to
    [1e300] and a rate from [0] to [1], [calc_from_included] returns the
    base [total / (1 + rate)], and [calc_from_excluded] on that base at the
    same rate returns a total that is finite and within
    [total * 2 ^ -50 + 2 ^ -1072] of the one that went in (no rounding on
    either leg). *)
Theorem included_round_trip (total_price rate : float) :
  finite_nonneg total_price = true -> float_le total_price 1e300 = true ->
  finite_nonneg rate = true -> float_le rate 1 = true ->
  let base := (total_price / (1 + rate))%float in
  let gst := (total_price - base)%float in
  let back := (base + base * rate)%float in
  calc_from_included (VFloat total_price) (VFloat rate) None
  = Ok (VFloat base, VFloat gst, VFloat (gst / 2), VFloat (gst / 2), VFloat total_price) /\
  calc_from_excluded (VFloat base) (VFloat rate) None
  = Ok (VFloat back, VFloat (base * rate), VFloat (base * rate / 2),
        VFloat (base * rate / 2), VFloat base) /\
  is_finite back = true /\
  (Rabs (float_real back - float_real total_price)
   <= float_real total_price * p2 (-50) + p2 (-1072))%R.
Proof.
  intros Ht Htle Hr Hrle. cbv zeta.
  pose proof (float_le_bound _ Ht Htle) as Htb.
  pose proof (float_le_one _ Hr Hrle) as Hrb.
  apply finite_nonneg_spec in Hr.
  destruct (included_back_SF _ _ Htb Hrb) as (Hn & Hbound).
  assert (Eb : Prim2SF (total_price / (1 + rate) + total_price / (1 + rate) * rate)
               = SFadd prec emax
                   (SFdiv prec emax (Prim2SF total_price)
                      (SFadd prec emax SF_one (Prim2SF rate)))
                   (SFmul prec emax
                      (SFdiv prec emax (Prim2SF total_price)
                         (SFadd prec emax SF_one (Prim2SF rate)))
                      (Prim2SF rate)))
    by (rewrite add_spec, mul_spec, div_spec, add_spec, Prim2SF_one; reflexivity).
  split.
  { pose proof (calc_from_included_plain total_price rate None eq_refl) as H.
    cbv zeta in H. rewrite (nonneg_finite_not_lt rate Hr) in H. exact H. }
  split; [apply (calc_from_excluded_plain (total_price / (1 + rate)) rate None); reflexivity | ].
  unfold is_finite, float_real. rewrite Eb.
  split; [ | exact Hbound].
  destruct (SFadd prec emax
              (SFdiv prec emax (Prim2SF total_price)
                 (SFadd prec emax SF_one (Prim2SF rate)))
              (SFmul prec emax
                 (SFdiv prec emax (Prim2SF total_price)
                    (SFadd prec emax SF_one (Prim2SF rate)))
                 (Prim2SF rate))) as [ s | s | | [ | ] m e ];
    try contradiction; reflexivity.
Qed.

Lemma included_round_trip_witness :
  finite_nonneg 118 = true /\ float_le 118 1e300 = true /\
  finite_nonneg 0.18 = true /\ float_le 0.18 1 = true /\
  (Rabs (float_real (118 / (1 + 0.18) + 118 / (1 + 0.18) * 0.18) - float_real 118)
   <= float_real 118 * p2 (-50) + p2 (-1072))%R.
Proof.
  split; [reflexivity | split; [reflexivity | split; [reflexivity | split; [reflexivity | ]]]].
  exact (proj2 (proj2 (proj2 (included_round_trip 118 0.18 eq_refl eq_refl eq_refl eq_refl)))).
Defined.

End Bounds.
